(** * Request-security subsystem of alx-polly

    A shallow embedding of the three security utilities of the repository:

    - the in-memory rate limiter  ([lib/rate-limit], class [RateLimiter]);
    - the CSRF token service      ([src/lib/csrf.ts]);
    - the session guardian        ([src/lib/session-management.ts]).

    Around them, the code that uses them or stands beside them: the
    client address, the redirect check ([src/lib/secure-redirect.ts]), the
    actions [login] and [register] with their input checks
    ([src/app/lib/actions/auth-actions.ts]), and the redaction and the
    threshold of the logger.

    Conventions of the embedding.

    - JavaScript numbers that hold millisecond timestamps, counters and
      durations are integers far below 2^53, where IEEE-754 arithmetic is
      exact; they are modelled as [Z].  [NaN], which [parseInt] produces on
      a cookie that is not a number, is modelled as [None] in [option Z].
      A number parsed from a cookie is whatever the client sent;
      [Js.time_value] is the range of [Date], inside which the sums and
      differences the program forms are exact.
    - [Date.now()] is an explicit argument [now] of every operation that
      reads the clock.
    - A [Map<string, _>] is a [gmap string _]; an entry object mutated in
      place is re-inserted under its key.
    - JavaScript strings are modelled as [string]: sequences of the
      characters below 256 (U+0000 to U+00FF).  Header values are byte
      strings and are exactly of this kind; cookie values, tokens and
      identifiers of this program are ASCII; buffers are strings of bytes.
      On these characters white space is [Js.is_white_space], which has the
      no-break space, and [toLowerCase] is [Str.toLowerCase], which lowers
      the capital letters from U+00C0 on as well.
    - [cookies()] of [next/headers] is taken to succeed (the functions run
      inside a request).  Within a request a cookie stays in the store
      until it is overwritten or deleted, and the [maxAge] passed to [set]
      is recorded with it.  Between requests a client that honours
      [Max-Age] stops sending a cookie whose lifetime has passed:
      [Web.sent_after].
    - The calls on the logger are recorded in the order they are made;
      which of them write a line is decided by the logger's threshold:
      [Logger.written].
    - [crypto.randomBytes] reads a byte stream that is part of the state,
      and HMAC-SHA256 is a parameter of the CSRF service.
    - [async] functions are modelled as their sequential bodies; an
      exception is a value of [Js.Result], and each [try]/[catch] of the
      source is a match on it.
    - [new URL] and [decodeURIComponent] are parameters of the redirect
      check; the identity provider is a parameter of the actions. *)

From Stdlib Require Import ZArith Bool List Ascii String Lia.
From Stdlib Require Import DecimalString Decimal DecimalZ.
From stdpp Require Import base option gmap strings list fin_maps.

Local Open Scope Z_scope.

(* ====================================================================== *)
(** * Part I.  The program                                                 *)
(* ====================================================================== *)

(** ** Rate limiter *)

Module RateLimit.

(** [interface RateLimitEntry] *)
Record RateLimitEntry : Type := mkEntry {
  count : Z;
  resetTime : Z;
  blocked : bool
}.

(** [class RateLimiter]: the private map and the three read-only
    configuration fields set by the constructor. *)
Record RateLimiter : Type := mkLimiter {
  attempts : gmap string RateLimitEntry;
  maxAttempts : Z;
  windowMs : Z;
  blockDurationMs : Z
}.

(** [new RateLimiter(maxAttempts, windowMs, blockDurationMs)] *)
Definition create (maxA window blockDuration : Z) : RateLimiter :=
  {| attempts := ∅;
     maxAttempts := maxA;
     windowMs := window;
     blockDurationMs := blockDuration |}.

(** Constructor defaults: [5], [15 * 60 * 1000], [30 * 60 * 1000]. *)
Definition create_default : RateLimiter :=
  create 5 (15 * 60 * 1000) (30 * 60 * 1000).

(** The two module-level instances. *)
Definition authRateLimiter : RateLimiter :=
  create 5 (15 * 60 * 1000) (30 * 60 * 1000).
Definition generalRateLimiter : RateLimiter :=
  create 100 (60 * 1000) (5 * 60 * 1000).

(** Replace the map, keep the configuration. *)
Definition set_attempts (rl : RateLimiter)
    (m : gmap string RateLimitEntry) : RateLimiter :=
  {| attempts := m;
     maxAttempts := maxAttempts rl;
     windowMs := windowMs rl;
     blockDurationMs := blockDurationMs rl |}.

(** [isRateLimited(identifier)]: the answer and the limiter afterwards
    (an expired entry is deleted by the read). *)
Definition isRateLimited (now : Z) (identifier : string) (rl : RateLimiter)
    : bool * RateLimiter :=
  match attempts rl !! identifier with
  | None => (false, rl)
  | Some entry =>
      if blocked entry && (now >? resetTime entry) then
        (false, set_attempts rl (delete identifier (attempts rl)))
      else if blocked entry then
        (true, rl)
      else if now >? resetTime entry then
        (false, set_attempts rl (delete identifier (attempts rl)))
      else
        (count entry >=? maxAttempts rl, rl)
  end.

(** The admission decision of the specification: allowed means not rate
    limited (callers reject when [isRateLimited] answers true). *)
Definition isAllowed (now : Z) (identifier : string) (rl : RateLimiter)
    : bool * RateLimiter :=
  let (limited, rl') := isRateLimited now identifier rl in
  (negb limited, rl').

(** The [else] branch of [recordFailedAttempt]: [entry.count++], then the
    block test on the incremented count. *)
Definition bump (now : Z) (rl : RateLimiter) (entry : RateLimitEntry)
    : RateLimitEntry :=
  let c := count entry + 1 in
  if c >=? maxAttempts rl then
    {| count := c; resetTime := now + blockDurationMs rl; blocked := true |}
  else
    {| count := c; resetTime := resetTime entry; blocked := blocked entry |}.

(** The entry written for a new window. *)
Definition fresh (now : Z) (rl : RateLimiter) : RateLimitEntry :=
  {| count := 1; resetTime := now + windowMs rl; blocked := false |}.

(** [recordFailedAttempt(identifier)] *)
Definition recordFailedAttempt (now : Z) (identifier : string)
    (rl : RateLimiter) : RateLimiter :=
  match attempts rl !! identifier with
  | None =>
      set_attempts rl (<[identifier := fresh now rl]> (attempts rl))
  | Some entry =>
      if now >? resetTime entry then
        set_attempts rl (<[identifier := fresh now rl]> (attempts rl))
      else
        set_attempts rl (<[identifier := bump now rl entry]> (attempts rl))
  end.

(** [recordSuccessfulAttempt(identifier)] *)
Definition recordSuccessfulAttempt (identifier : string)
    (rl : RateLimiter) : RateLimiter :=
  set_attempts rl (delete identifier (attempts rl)).

(** [getRemainingAttempts(identifier)] *)
Definition getRemainingAttempts (now : Z) (identifier : string)
    (rl : RateLimiter) : Z :=
  match attempts rl !! identifier with
  | None => maxAttempts rl
  | Some entry =>
      if now >? resetTime entry then maxAttempts rl
      else Z.max 0 (maxAttempts rl - count entry)
  end.

(** [Math.ceil(x / 1000)] on an integer [x]. *)
Definition ceil_div_1000 (x : Z) : Z := - ((- x) / 1000).

(** [getResetTime(identifier)], in seconds. *)
Definition getResetTime (now : Z) (identifier : string)
    (rl : RateLimiter) : Z :=
  match attempts rl !! identifier with
  | None => 0
  | Some entry => Z.max 0 (ceil_div_1000 (resetTime entry - now))
  end.

(** One call on the limiter, with the clock reading it observes. *)
Inductive Call : Type :=
| CIsRateLimited (now : Z) (identifier : string)
| CRecordFailedAttempt (now : Z) (identifier : string)
| CRecordSuccessfulAttempt (identifier : string)
| CGetRemainingAttempts (now : Z) (identifier : string)
| CGetResetTime (now : Z) (identifier : string).

Definition step (rl : RateLimiter) (c : Call) : RateLimiter :=
  match c with
  | CIsRateLimited now id => snd (isRateLimited now id rl)
  | CRecordFailedAttempt now id => recordFailedAttempt now id rl
  | CRecordSuccessfulAttempt id => recordSuccessfulAttempt id rl
  | CGetRemainingAttempts _ _ => rl
  | CGetResetTime _ _ => rl
  end.

(** A history of calls, oldest first. *)
Definition run (rl : RateLimiter) (calls : list Call) : RateLimiter :=
  fold_left step calls rl.

(** [recordFailedAttempt(identifier)] at each of the given clock readings,
    in order. *)
Definition recordFailures (identifier : string) (times : list Z)
    (rl : RateLimiter) : RateLimiter :=
  fold_left (fun r t => recordFailedAttempt t identifier r) times rl.

(** States the program can be in: the map is private, so they are the
    states some history of calls builds from a newly constructed
    limiter. *)
Definition reachable (rl : RateLimiter) : Prop :=
  ∃ calls, rl = run (create (maxAttempts rl) (windowMs rl)
                            (blockDurationMs rl)) calls.

(** The test [!entry || now > entry.resetTime] of [recordFailedAttempt]:
    a failure recorded at [now] starts a new window. *)
Definition opens_window (now : Z) (identifier : string)
    (rl : RateLimiter) : Prop :=
  match attempts rl !! identifier with
  | None => True
  | Some entry => resetTime entry < now
  end.

(** *** Invariants of the map, as predicates on entries *)

(** Holds for every threshold: counts start at one, and a blocked entry
    has reached the threshold. *)
Definition entry_ok (maxA : Z) (e : RateLimitEntry) : Prop :=
  1 <= count e ∧ (blocked e = true → maxA <= count e).

(** Holds for thresholds of at least two: blocked exactly when the
    threshold has been reached. *)
Definition entry_tight (maxA : Z) (e : RateLimitEntry) : Prop :=
  1 <= count e ∧ (blocked e = true ↔ maxA <= count e).

Definition all_entries (P : RateLimitEntry → Prop) (rl : RateLimiter)
    : Prop :=
  map_Forall (λ _ e, P e) (attempts rl).

End RateLimit.

(** ** JavaScript values used by the cookie-backed components *)

Module Js.

(** A number that may be [NaN]: [None] is [NaN].  The integer is exact:
    a double holds every integer up to 2^53 in absolute value, beyond
    that it rounds; see [time_value]. *)
Definition Num : Type := option Z.

(** The time values of [Date]: the integers from 0 to 8.64e15, which is
    below 2^53.  Differences of two of them, and these plus or minus the
    durations of this program, stay below 2^53, so that the doubles of the
    code compute them exactly. *)
Definition time_value (n : Z) : Prop := 0 <= n <= 8640000000000000.

(** Truthiness of a number: [0] and [NaN] are falsy. *)
Definition num_truthy (x : Num) : bool :=
  match x with
  | Some z => negb (z =? 0)
  | None => false
  end.

(** [a - x] for a proper number [a]. *)
Definition num_rsub (a : Z) (x : Num) : Num :=
  match x with
  | Some z => Some (a - z)
  | None => None
  end.

(** [x > b]: every comparison with [NaN] is false. *)
Definition num_gt (x : Num) (b : Z) : bool :=
  match x with
  | Some z => z >? b
  | None => false
  end.

(** Truthiness of [string | undefined]: [undefined] and the empty string
    are falsy. *)
Definition str_truthy (o : option string) : bool :=
  match o with
  | Some (String _ _) => true
  | _ => false
  end.

(** [o || dflt] on [string | undefined]. *)
Definition str_or (o : option string) (dflt : string) : string :=
  match o with
  | Some (String c s) => String c s
  | _ => dflt
  end.

(** [Number.prototype.toString()] on an integer: decimal digits, a leading
    [-] for negatives, no leading zeros. *)
Definition toString (n : Z) : string :=
  NilZero.string_of_int (Z.to_int n).

(** White space and line terminators among the characters below 256: tab,
    line feed, vertical tab, form feed, carriage return, space and the
    no-break space U+00A0.  It is what [parseInt] skips, what [trim]
    removes and what the class [\s] matches. *)
Definition is_white_space (c : ascii) : bool :=
  match N_of_ascii c with
  | 9%N | 10%N | 11%N | 12%N | 13%N | 32%N | 160%N => true
  | _ => false
  end.

Fixpoint trimStart (s : string) : string :=
  match s with
  | String c s' => if is_white_space c then trimStart s' else s
  | EmptyString => s
  end.

(** Value of a character as a digit: [0-9], then [a-z] or [A-Z] for
    10..35. *)
Definition digit_value (c : ascii) : option Z :=
  let n := Z.of_N (N_of_ascii c) in
  if (48 <=? n) && (n <=? 57) then Some (n - 48)
  else if (97 <=? n) && (n <=? 122) then Some (n - 87)
  else if (65 <=? n) && (n <=? 90) then Some (n - 55)
  else None.

(** The longest prefix of radix-[radix] digits, read left to right;
    [acc] is [None] until a digit has been read. *)
Fixpoint parse_digits (radix : Z) (acc : option Z) (s : string)
    : option Z :=
  match s with
  | String c s' =>
      match digit_value c with
      | Some d =>
          if d <? radix
          then parse_digits radix (Some (default 0 acc * radix + d)) s'
          else acc
      | None => acc
      end
  | EmptyString => acc
  end.

(** [parseInt(s)] with no radix argument: skip leading white space, take
    an optional sign, a [0x]/[0X] prefix selects radix 16, otherwise radix
    10; read the longest digit prefix; [NaN] when it is empty. *)
Definition parseInt (s : string) : Num :=
  let s1 := trimStart s in
  let '(sign, s2) :=
    match s1 with
    | String "-" r => (-1, r)
    | String "+" r => (1, r)
    | _ => (1, s1)
    end in
  let '(radix, s3) :=
    match s2 with
    | String "0" (String "x" r) => (16, r)
    | String "0" (String "X" r) => (16, r)
    | _ => (10, s2)
    end in
  match parse_digits radix None s3 with
  | Some m => Some (sign * m)
  | None => None
  end.

(** [s.split('.')] *)
Fixpoint split_dot (s : string) : list string :=
  match s with
  | EmptyString => [EmptyString]
  | String c s' =>
      let r := split_dot s' in
      if Ascii.eqb c "." then EmptyString :: r
      else match r with
           | h :: t => String c h :: t
           | [] => [String c EmptyString]
           end
  end.

(** Exceptions are values: a computation returns or throws. *)
Inductive Result (A : Type) : Type :=
| Return (a : A)
| Throw (name : string).
Arguments Return {A} a.
Arguments Throw {A} name.

(** Lower-case hexadecimal digit of a value below 16. *)
Definition hex_char (n : N) : ascii :=
  if (n <? 10)%N then ascii_of_N (48 + n) else ascii_of_N (87 + n).

Definition hex_of_byte (c : ascii) : string :=
  let n := N_of_ascii c in
  String (hex_char (n / 16)) (String (hex_char (n mod 16)) EmptyString).

(** [buf.toString('hex')] and [digest('hex')]: two digits per byte. *)
Fixpoint to_hex (bytes : string) : string :=
  match bytes with
  | EmptyString => EmptyString
  | String c r => (hex_of_byte c ++ to_hex r)%string
  end.

Definition hex_value (c : ascii) : option N :=
  match digit_value c with
  | Some d => if d <? 16 then Some (Z.to_N d) else None
  | None => None
  end.

(** [Buffer.from(s, 'hex')]: decodes pairs of hexadecimal digits and stops
    at the first pair that is not one (or at a trailing single
    character). *)
Fixpoint from_hex (s : string) : string :=
  match s with
  | String a (String b r) =>
      match hex_value a, hex_value b with
      | Some x, Some y => String (ascii_of_N (16 * x + y)) (from_hex r)
      | _, _ => EmptyString
      end
  | _ => EmptyString
  end.

(** [crypto.timingSafeEqual(a, b)]: throws a [RangeError] when the byte
    lengths differ, otherwise answers whether the contents are equal. *)
Definition timingSafeEqual (a b : string) : Result bool :=
  if Nat.eqb (String.length a) (String.length b)
  then Return (String.eqb a b)
  else Throw "RangeError".

(** The string with its last character replaced by another one: ["0"]
    becomes ["1"], every other character becomes ["0"]. *)
Fixpoint mutate_last (s : string) : string :=
  match s with
  | EmptyString => EmptyString
  | String c EmptyString =>
      String (if Ascii.eqb c "0" then "1"%char else "0"%char) EmptyString
  | String c s' => String c (mutate_last s')
  end.

(** [s.includes('.')] *)
Fixpoint includes_dot (s : string) : bool :=
  match s with
  | EmptyString => false
  | String c s' => Ascii.eqb c "." || includes_dot s'
  end.

(** The number a run of decimal digits denotes when appended to the digits
    already read as [acc]. *)
Fixpoint uint_value (d : uint) (acc : Z) : Z :=
  match d with
  | Nil => acc
  | D0 d => uint_value d (acc * 10 + 0)
  | D1 d => uint_value d (acc * 10 + 1)
  | D2 d => uint_value d (acc * 10 + 2)
  | D3 d => uint_value d (acc * 10 + 3)
  | D4 d => uint_value d (acc * 10 + 4)
  | D5 d => uint_value d (acc * 10 + 5)
  | D6 d => uint_value d (acc * 10 + 6)
  | D7 d => uint_value d (acc * 10 + 7)
  | D8 d => uint_value d (acc * 10 + 8)
  | D9 d => uint_value d (acc * 10 + 9)
  end.

End Js.

(** ** The request context: cookie store, identity provider, logger *)

Module Web.

Inductive SameSite : Type := SameSiteStrict | SameSiteLax | SameSiteNone.

(** A cookie as [cookieStore.set(name, value, options)] writes it;
    [maxAge] is in seconds. *)
Record Cookie : Type := mkCookie {
  value : string;
  httpOnly : bool;
  secure : bool;
  sameSite : SameSite;
  maxAge : Z
}.

(** Modelled from the spec: the wrapper [createClient] of
    [@/lib/supabase/server] and the identity provider behind it are not
    among the sources.  The specification treats the provider as an
    external collaborator that holds at most one upstream session, can be
    asked for it, can be asked to end it, and may fail.  [Unreachable]:
    [createClient()] throws.  [Failing]: [auth.getSession()] resolves with
    an [error].  [SignedOut]: no session.  [SignedIn]: a session with the
    user's id and the access token. *)
Inductive Provider : Type :=
| Unreachable
| Failing
| SignedOut
| SignedIn (userId : string) (access_token : string).

(** Context objects passed to the logger by the session guardian. *)
Inductive LogContext : Type :=
| CtxError
| CtxErrorReason (reason : string)
| CtxIdle (userId : string) (idleTime : Z)
| CtxAge (userId : string) (sessionAge : Z)
| CtxTerminated (userId : string) (reason : string).

(** A call on the logger: [logger.error(message, context)],
    [logger.securityEvent(event, context)] and
    [logger.authEvent(event, userId)], the three methods the session
    guardian calls.  None of them throws; what a call writes is decided
    inside the logger, see [Logger.written]. *)
Inductive LogEvent : Type :=
| LogError (message : string) (context : LogContext)
| LogSecurityEvent (message : string) (context : LogContext)
| LogAuthEvent (message : string) (userId : string).

(** What one request handler can observe and change.  [log] holds the
    calls made on the logger, oldest first.  [production] is
    [process.env.NODE_ENV === 'production'].  [entropy] is the byte stream
    behind [crypto.randomBytes], [cursor] the position of the next unread
    byte. *)
Record World : Type := mkWorld {
  jar : gmap string Cookie;
  provider : Provider;
  log : list LogEvent;
  production : bool;
  entropy : nat → ascii;
  cursor : nat
}.

Definition set_jar (w : World) (j : gmap string Cookie) : World :=
  {| jar := j; provider := provider w; log := log w;
     production := production w; entropy := entropy w;
     cursor := cursor w |}.

Definition set_provider (w : World) (p : Provider) : World :=
  {| jar := jar w; provider := p; log := log w;
     production := production w; entropy := entropy w;
     cursor := cursor w |}.

Definition set_cursor (w : World) (n : nat) : World :=
  {| jar := jar w; provider := provider w; log := log w;
     production := production w; entropy := entropy w;
     cursor := n |}.

(** A call on the logger, see [LogEvent]: it is added to the calls
    made. *)
Definition record (e : LogEvent) (w : World) : World :=
  {| jar := jar w; provider := provider w; log := log w ++ [e];
     production := production w; entropy := entropy w;
     cursor := cursor w |}.

(** [cookieStore.get(name)?.value] *)
Definition cookie_value (name : string) (w : World) : option string :=
  value <$> jar w !! name.

(** [cookieStore.set(name, value, { httpOnly: true, secure:
    process.env.NODE_ENV === 'production', sameSite: 'strict', maxAge })]:
    the option object every [set] of this program passes.  The cookie is
    in the store for the rest of the request; what a later request
    carries of it is [sent_after]. *)
Definition cookie_set (name v : string) (max_age : Z) (w : World)
    : World :=
  set_jar w (<[name := {| value := v; httpOnly := true;
                          secure := production w;
                          sameSite := SameSiteStrict;
                          maxAge := max_age |}]> (jar w)).

(** [cookieStore.delete(name)] *)
Definition cookie_delete (name : string) (w : World) : World :=
  set_jar w (delete name (jar w)).

(** The cookie store of a later request from a client that honours
    [Max-Age], when the cookie [name] was set [age name] milliseconds
    before: a cookie set with [maxAge] seconds is sent as long as its
    expiry, [maxAge * 1000] milliseconds after it was set, is not in the
    past. *)
Definition sent_after (age : string → Z) (w : World) : World :=
  set_jar w
    (filter (λ entry : string * Cookie,
               age entry.1 <= maxAge entry.2 * 1000)
            (jar w)).

(** [crypto.randomBytes(n)]: the next [n] bytes of the stream. *)
Definition randomBytes (n : nat) (w : World) : string * World :=
  (string_of_list_ascii (map (entropy w) (seq (cursor w) n)),
   set_cursor w (cursor w + n)%nat).

(** Modelled from the spec: [supabase.auth.signOut()] belongs to the
    provider client, which is not among the sources.  The specification
    asks of the provider "a way to terminate an upstream session": on a
    client that could be created, an upstream session is ended; the other
    provider states are left as they are. *)
Definition signOut (w : World) : World :=
  match provider w with
  | SignedIn _ _ => set_provider w SignedOut
  | _ => w
  end.

(** A world on which the components are run in examples: no cookies, a
    signed-out provider, and a byte stream whose byte at position [n] is
    [n mod 256]. *)
Definition sample_world : World :=
  {| jar := ∅; provider := SignedOut; log := [];
     production := true; entropy := ascii_of_nat; cursor := 0 |}.


End Web.

(** ** CSRF token service *)

Module Csrf.

Import Web.

Definition CSRF_TOKEN_NAME : string := "csrf-token".
Definition CSRF_SECRET_NAME : string := "csrf-secret".
Definition TOKEN_LENGTH : nat := 32.

(** [generateToken()] *)
Definition generateToken (w : World) : string * World :=
  let (bytes, w') := randomBytes TOKEN_LENGTH w in
  (Js.to_hex bytes, w').

(** The first block of [generateCSRFToken]: the stored secret, or a new one
    that is stored when the cookie is missing or empty. *)
Definition ensure_secret (w : World) : string * World :=
  match cookie_value CSRF_SECRET_NAME w with
  | Some (String c s) => (String c s, w)
  | _ =>
      let (secret, w') := generateToken w in
      (secret, cookie_set CSRF_SECRET_NAME secret (60 * 60 * 24) w')
  end.


Section WithHmac.

(** [crypto.createHmac('sha256', key).update(data).digest()]: the raw
    digest, one character per byte. *)
Variable hmac_sha256 : string → string → string.

(** [generateCSRFToken()] *)
Definition generateCSRFToken (w : World) : string * World :=
  let (secret, w1) := ensure_secret w in
  let (token, w2) := generateToken w1 in
  let signature := Js.to_hex (hmac_sha256 secret token) in
  let csrfToken := (token ++ "." ++ signature)%string in
  (csrfToken, cookie_set CSRF_TOKEN_NAME csrfToken (60 * 60) w2).

(** The body of the [try] block of [validateCSRFToken]; the candidate is
    [None] when the caller passes [null] or [undefined]. *)
Definition validateCSRFToken_try (token : option string) (w : World)
    : Js.Result bool :=
  let storedToken := cookie_value CSRF_TOKEN_NAME w in
  let secret := cookie_value CSRF_SECRET_NAME w in
  match storedToken, secret, token with
  | Some (String c0 s0), Some (String c1 s1), Some (String c2 s2) =>
      let storedToken := String c0 s0 in
      let secret := String c1 s1 in
      let token := String c2 s2 in
      if negb (String.eqb token storedToken) then Js.Return false
      else
        let parts := Js.split_dot token in
        match parts !! 0%nat, parts !! 1%nat with
        | Some (String c3 s3), Some (String c4 s4) =>
            let tokenPart := String c3 s3 in
            let signature := String c4 s4 in
            let expectedSignature :=
              Js.to_hex (hmac_sha256 secret tokenPart) in
            Js.timingSafeEqual (Js.from_hex signature)
                               (Js.from_hex expectedSignature)
        | _, _ => Js.Return false
        end
  | _, _, _ => Js.Return false
  end.

(** [validateCSRFToken(token)]: the [catch] turns every exception into
    [false]. *)
Definition validateCSRFToken (token : option string) (w : World)
    : bool :=
  match validateCSRFToken_try token w with
  | Js.Return b => b
  | Js.Throw _ => false
  end.

End WithHmac.

(** [getCSRFToken()] *)
Definition getCSRFToken (w : World) : option string :=
  match cookie_value CSRF_TOKEN_NAME w with
  | Some (String c s) => Some (String c s)
  | _ => None
  end.

(** [clearCSRFTokens()] *)
Definition clearCSRFTokens (w : World) : World :=
  cookie_delete CSRF_SECRET_NAME (cookie_delete CSRF_TOKEN_NAME w).

(** A stand-in digest on which the service is run in examples: 32 bytes,
    the first taken from the key and the second from the data. *)
Definition sample_hmac (key data : string) : string :=
  let first (s : string) : ascii :=
    match s with String c _ => c | EmptyString => "000"%char end in
  String (first key) (String (first data)
    (string_of_list_ascii (repeat "000"%char 30))).

End Csrf.

(** ** Session guardian *)

Module Session.

Import Web.

Definition SESSION_TIMEOUT_MS : Z := 30 * 60 * 1000.
Definition SESSION_WARNING_MS : Z := 5 * 60 * 1000.
Definition MAX_IDLE_TIME_MS : Z := 60 * 60 * 1000.

(** [interface SessionInfo] *)
Record SessionInfo : Type := mkSessionInfo {
  userId : string;
  sessionId : string;
  lastActivity : Js.Num;
  createdAt : Js.Num;
  isValid : bool
}.

(** The result object of [validateSession]. *)
Record Validation : Type := mkValidation {
  vIsValid : bool;
  vReason : option string
}.

(** The result object of [getSessionTimeoutInfo]. *)
Record TimeoutInfo : Type := mkTimeoutInfo {
  timeUntilWarning : Z;
  timeUntilTimeout : Z;
  shouldWarn : bool;
  shouldTimeout : bool
}.

(** [getCurrentSession()] *)
Definition getCurrentSession (now : Z) (w : World)
    : option SessionInfo * World :=
  match provider w with
  | Unreachable =>
      (None, record (LogError "Error getting current session" CtxError) w)
  | Failing => (None, w)
  | SignedOut => (None, w)
  | SignedIn uid access_token =>
      let lastActivity :=
        Js.parseInt (Js.str_or (cookie_value "last-activity" w) "0") in
      let createdAt :=
        Js.parseInt (Js.str_or (cookie_value "session-created" w)
                               (Js.toString now)) in
      (Some {| userId := uid;
               sessionId := String.substring 0 16 access_token;
               lastActivity := lastActivity;
               createdAt := createdAt;
               isValid := true |}, w)
  end.

(** [updateSessionActivity()] *)
Definition updateSessionActivity (now : Z) (w : World) : World :=
  let w1 := cookie_set "last-activity" (Js.toString now)
                       (SESSION_TIMEOUT_MS / 1000) w in
  if negb (Js.str_truthy (cookie_value "session-created" w1)) then
    cookie_set "session-created" (Js.toString now)
               (MAX_IDLE_TIME_MS / 1000) w1
  else w1.

(** [validateSession()] *)
Definition validateSession (now : Z) (w : World) : Validation * World :=
  let (session, w1) := getCurrentSession now w in
  match session with
  | None =>
      ({| vIsValid := false; vReason := Some "No session found" |}, w1)
  | Some session =>
      if Js.num_truthy (lastActivity session)
         && Js.num_gt (Js.num_rsub now (lastActivity session))
                      MAX_IDLE_TIME_MS
      then
        ({| vIsValid := false;
            vReason := Some "Session expired due to inactivity" |},
         record (LogSecurityEvent "Session expired due to inactivity"
                   (CtxIdle (userId session)
                      (now - default 0 (lastActivity session)))) w1)
      else if Js.num_gt (Js.num_rsub now (createdAt session))
                        (24 * 60 * 60 * 1000)
      then
        ({| vIsValid := false;
            vReason := Some "Session expired due to age" |},
         record (LogSecurityEvent "Session expired due to age"
                   (CtxAge (userId session)
                      (now - default 0 (createdAt session)))) w1)
      else
        ({| vIsValid := true; vReason := None |}, w1)
  end.

(** [terminateSession(reason)] *)
Definition terminateSession (now : Z) (reason : string) (w : World)
    : World :=
  let (session, w1) := getCurrentSession now w in
  match provider w1 with
  | Unreachable =>
      record (LogError "Error terminating session"
                       (CtxErrorReason reason)) w1
  | _ =>
      let w2 :=
        match session with
        | Some session =>
            record (LogSecurityEvent "Session terminated"
                      (CtxTerminated (userId session) reason)) w1
        | None => w1
        end in
      let w3 := signOut w2 in
      cookie_delete "session-created" (cookie_delete "last-activity" w3)
  end.

(** [getSessionTimeoutInfo()] *)
Definition getSessionTimeoutInfo (now : Z) (w : World)
    : option TimeoutInfo * World :=
  let (session, w1) := getCurrentSession now w in
  match session with
  | None => (None, w1)
  | Some session =>
      match lastActivity session with
      | None => (None, w1)
      | Some la =>
          if la =? 0 then (None, w1)
          else
            let timeSinceActivity := now - la in
            let timeUntilWarning :=
              SESSION_WARNING_MS - timeSinceActivity in
            let timeUntilTimeout :=
              SESSION_TIMEOUT_MS - timeSinceActivity in
            (Some {| timeUntilWarning := timeUntilWarning;
                     timeUntilTimeout := timeUntilTimeout;
                     shouldWarn := (timeUntilWarning <=? 0)
                                   && (timeUntilTimeout >? 0);
                     shouldTimeout := timeUntilTimeout <=? 0 |}, w1)
      end
  end.

(** [validation.reason || 'Invalid session'] *)
Definition reason_or_default (v : Validation) : string :=
  Js.str_or (vReason v) "Invalid session".

(** [extendSession()] *)
Definition extendSession (now : Z) (w : World) : bool * World :=
  let (validation, w1) := validateSession now w in
  if negb (vIsValid validation) then
    (false, terminateSession now (reason_or_default validation) w1)
  else
    let w2 := updateSessionActivity now w1 in
    let (session, w3) := getCurrentSession now w2 in
    match session with
    | Some session =>
        (true, record (LogAuthEvent "Session extended" (userId session)) w3)
    | None => (true, w3)
    end.

(** [initializeSession()] *)
Definition initializeSession (now : Z) (w : World) : World :=
  let (session, w1) := getCurrentSession now w in
  match session with
  | Some session =>
      record (LogAuthEvent "Session initialized" (userId session))
             (updateSessionActivity now w1)
  | None => w1
  end.

(** Worlds on which the guardian is run in examples: the provider holds a
    session of ["user-1"]; in the second the [last-activity] cookie records
    the instant [la]. *)
Definition signed_in_world : World :=
  set_provider sample_world
    (SignedIn "user-1" "eyJhbGciOiJIUzI1NiIsInR5cCI6IkpXVCJ9.e30.c2ln").

Definition active_world (la : Z) : World :=
  cookie_set "last-activity" (Js.toString la) (SESSION_TIMEOUT_MS / 1000)
             signed_in_world.

End Session.

(** ** The identifier a call on the limiter names *)

Module RateLimitCalls.

Import RateLimit.

Definition call_identifier (c : Call) : string :=
  match c with
  | CIsRateLimited _ id => id
  | CRecordFailedAttempt _ id => id
  | CRecordSuccessfulAttempt id => id
  | CGetRemainingAttempts _ id => id
  | CGetResetTime _ id => id
  end.

End RateLimitCalls.

(** ** The CSRF check on a submitted form *)

Module CsrfForm.

(** [formData.get(name)] on the list of the form's fields: the first value
    of that name, or [null]. *)
Fixpoint form_get (name : string) (formData : list (string * string))
    : option string :=
  match formData with
  | [] => None
  | (n, v) :: rest =>
      if String.eqb n name then Some v else form_get name rest
  end.

(** [validateCSRFFromFormData(formData)] *)
Definition validateCSRFFromFormData (hmac_sha256 : string → string → string)
    (formData : list (string * string)) (w : Web.World) : bool :=
  let token := form_get "csrf-token" formData in
  Csrf.validateCSRFToken hmac_sha256 token w.

End CsrfForm.

(** ** More string operations of JavaScript *)

Module Str.

(** [s.startsWith(p)] *)
Fixpoint startsWith (s p : string) {struct p} : bool :=
  match p, s with
  | EmptyString, _ => true
  | String a p', String b s' => Ascii.eqb a b && startsWith s' p'
  | String _ _, EmptyString => false
  end.

(** [s.includes(needle)] *)
Fixpoint includes (s needle : string) : bool :=
  startsWith s needle
  || match s with
     | String _ s' => includes s' needle
     | EmptyString => false
     end.

(** [s.split(sep)] for a separator of one character. *)
Fixpoint split_on (sep : ascii) (s : string) : list string :=
  match s with
  | EmptyString => [EmptyString]
  | String c s' =>
      let r := split_on sep s' in
      if Ascii.eqb c sep then EmptyString :: r
      else match r with
           | h :: t => String c h :: t
           | [] => [String c EmptyString]
           end
  end.

(** [s.trimEnd()], on the white space of [Js.is_white_space]. *)
Fixpoint trimEnd (s : string) : string :=
  match s with
  | EmptyString => EmptyString
  | String c r =>
      match trimEnd r with
      | EmptyString =>
          if Js.is_white_space c then EmptyString else String c EmptyString
      | String c' r' => String c (String c' r')
      end
  end.

(** [s.trim()] *)
Definition trim (s : string) : string := trimEnd (Js.trimStart s).

(** [c.toLowerCase()] on one character below 256: [A-Z] become [a-z], and
    the capital letters U+00C0 to U+00DE, of which U+00D7 (the
    multiplication sign) is not one, become U+00E0 to U+00FE. *)
Definition lower_char (c : ascii) : ascii :=
  let n := N_of_ascii c in
  if ((65 <=? n) && (n <=? 90))%N then ascii_of_N (n + 32)
  else if ((192 <=? n) && (n <=? 222) && negb (n =? 215))%N
       then ascii_of_N (n + 32)
       else c.

(** [s.toLowerCase()] *)
Fixpoint toLowerCase (s : string) : string :=
  match s with
  | EmptyString => EmptyString
  | String c r => String (lower_char c) (toLowerCase r)
  end.

(** Whether some character of the string satisfies [p]. *)
Fixpoint some_char (p : ascii → bool) (s : string) : bool :=
  match s with
  | EmptyString => false
  | String c r => p c || some_char p r
  end.

(** Whether every character of the string satisfies [p]. *)
Fixpoint every_char (p : ascii → bool) (s : string) : bool :=
  match s with
  | EmptyString => true
  | String c r => p c && every_char p r
  end.

(** The string is empty or begins with a character that is not white
    space. *)
Definition starts_clean (s : string) : Prop :=
  match s with
  | EmptyString => True
  | String c _ => Js.is_white_space c = false
  end.

End Str.

(** ** Client address, as the rate-limit module extracts it *)

Module ClientIP.

(** [request.headers.get(name)] is the lookup in a map from header names
    to values; a missing header is [null]. *)
Definition getClientIP (headers : gmap string string) : string :=
  let forwarded := headers !! "x-forwarded-for" in
  let realIP := headers !! "x-real-ip" in
  let cfConnectingIP := headers !! "cf-connecting-ip" in
  match forwarded with
  | Some (String c s) =>
      Str.trim (List.hd EmptyString (Str.split_on "," (String c s)))
  | _ =>
      match realIP with
      | Some (String c s) => String c s
      | _ =>
          match cfConnectingIP with
          | Some (String c s) => String c s
          | _ => "unknown"
          end
      end
  end.

End ClientIP.

(** ** Secure redirects ([src/lib/secure-redirect.ts]) *)

Module SecureRedirect.

(** The initial value of the module-level array. *)
Definition ALLOWED_REDIRECT_PATHS : list string :=
  ["/"; "/polls"; "/polls/create"; "/profile"; "/settings"; "/login";
   "/register"].

(** The two fields of a parsed [URL] that the module reads. *)
Record URL : Type := mkURL {
  origin : string;
  pathname : string
}.

(** The callback of both [some] calls: the path is an allowed path, or
    starts with an allowed path followed by [/]. *)
Definition path_allowed (allowed : list string) (path : string) : bool :=
  existsb (λ allowedPath,
             String.eqb path allowedPath
             || Str.startsWith path (allowedPath ++ "/"))
          allowed.

(** [searchParams.get(name)] on the list of name-value pairs: the first
    value of that name, or [null]. *)
Fixpoint params_get (name : string) (params : list (string * string))
    : option string :=
  match params with
  | [] => None
  | (n, v) :: rest =>
      if String.eqb n name then Some v else params_get name rest
  end.

(** Upper-case hexadecimal digit of a value below 16. *)
Definition hex_upper (n : N) : ascii :=
  if (n <? 10)%N then ascii_of_N (48 + n) else ascii_of_N (55 + n).

(** Characters that [URLSearchParams] serialises as they are: ASCII
    letters and digits, [*], [-], [.] and [_]. *)
Definition form_safe (c : ascii) : bool :=
  let n := N_of_ascii c in
  (((48 <=? n) && (n <=? 57)) || ((65 <=? n) && (n <=? 90))
   || ((97 <=? n) && (n <=? 122))
   || (n =? 42) || (n =? 45) || (n =? 46) || (n =? 95))%N.

(** [%XX] for one byte. *)
Definition percent_byte (n : N) : string :=
  String "%" (String (hex_upper (n / 16))
                     (String (hex_upper (n mod 16)) EmptyString)).

(** The [application/x-www-form-urlencoded] serialisation of one character
    below 256: the serialiser works on the UTF-8 encoding, which is the
    character itself below 128 and the two bytes [0xC0 + n / 64] and
    [0x80 + n mod 64] from 128 on. *)
Definition form_encode_char (c : ascii) : string :=
  if form_safe c then String c EmptyString
  else if Ascii.eqb c " " then "+"
  else
    let n := N_of_ascii c in
    if (n <? 128)%N then percent_byte n
    else (percent_byte (192 + n / 64)
          ++ percent_byte (128 + n mod 64))%string.

Fixpoint form_encode (s : string) : string :=
  match s with
  | EmptyString => EmptyString
  | String c r => (form_encode_char c ++ form_encode r)%string
  end.

Section WithPlatform.

(** [new URL(s)]: [None] when the constructor throws. *)
Variable parseURL : string → option URL.

(** [decodeURIComponent(s)]: [None] when it throws a [URIError]. *)
Variable decodeURIComponent : string → option string.

(** [isSafeRedirectURL(url)], with the current allow list and the value of
    [process.env.NEXT_PUBLIC_APP_URL]; every way through the [catch] answers
    false. *)
Definition isSafeRedirectURL (allowed : list string)
    (appUrl : option string) (url : string) : bool :=
  if Str.startsWith url "/" then path_allowed allowed url
  else
    match parseURL url with
    | None => false
    | Some parsedURL =>
        let currentOrigin := Js.str_or appUrl "http://localhost:3000" in
        match parseURL currentOrigin with
        | None => false
        | Some allowedOrigin =>
            if negb (String.eqb (origin parsedURL) (origin allowedOrigin))
            then false
            else path_allowed allowed (pathname parsedURL)
        end
    end.

(** [safeRedirect(url, fallback)]: the URL handed to [redirect], which does
    not return. *)
Definition safeRedirect (allowed : list string) (appUrl : option string)
    (url fallback : string) : string :=
  if isSafeRedirectURL allowed appUrl url then url else fallback.

(** [getSafeRedirectURL(searchParams, fallback)] *)
Definition getSafeRedirectURL (allowed : list string)
    (appUrl : option string) (searchParams : list (string * string))
    (fallback : string) : string :=
  let redirectTo :=
    match params_get "redirect" searchParams with
    | Some (String c s) => Some (String c s)
    | _ =>
        match params_get "redirectTo" searchParams with
        | Some (String c s) => Some (String c s)
        | _ => params_get "return_to" searchParams
        end
    end in
  match redirectTo with
  | Some (String c s) =>
      if isSafeRedirectURL allowed appUrl (String c s)
      then String c s else fallback
  | _ => fallback
  end.

(** [sanitizeRedirectParam(redirectParam)] *)
Definition sanitizeRedirectParam (allowed : list string)
    (appUrl : option string) (redirectParam : option string) : string :=
  match redirectParam with
  | Some (String c s) =>
      match decodeURIComponent (String c s) with
      | Some decoded =>
          if isSafeRedirectURL allowed appUrl decoded
          then decoded else "/polls"
      | None => "/polls"
      end
  | _ => "/polls"
  end.

(** [createLoginRedirectURL(returnTo)] *)
Definition createLoginRedirectURL (allowed : list string)
    (appUrl : option string) (returnTo : option string) : string :=
  match returnTo with
  | Some (String c s) =>
      if negb (isSafeRedirectURL allowed appUrl (String c s)) then "/login"
      else ("/login?" ++ "redirect=" ++ form_encode (String c s))%string
  | _ => "/login"
  end.

End WithPlatform.

(** [ALLOWED_REDIRECT_PATHS.includes(path)] *)
Definition paths_include (allowed : list string) (path : string) : bool :=
  existsb (String.eqb path) allowed.

(** [addAllowedRedirectPath(path)]: the allow list afterwards. *)
Definition addAllowedRedirectPath (path : string) (allowed : list string)
    : list string :=
  if Str.startsWith path "/" && negb (paths_include allowed path)
  then allowed ++ [path]
  else allowed.

(** The answers of [new URL] on the absolute URLs used in examples; on
    every other string of the examples the constructor throws. *)
Definition sample_parseURL (s : string) : option URL :=
  if String.eqb s "http://localhost:3000" then
    Some {| origin := "http://localhost:3000"; pathname := "/" |}
  else if String.eqb s "http://localhost:3000/polls/42" then
    Some {| origin := "http://localhost:3000"; pathname := "/polls/42" |}
  else if String.eqb s "https://evil.example/polls" then
    Some {| origin := "https://evil.example"; pathname := "/polls" |}
  else None.

End SecureRedirect.

(** ** Authentication actions ([src/app/lib/actions/auth-actions.ts]) *)

Module AuthActions.

Import RateLimit.

(** The fields of the forms are strings of characters below 256, as all
    strings of this development; on them [trim], the class [\s] and
    [toLowerCase] are [Str.trim], [Js.is_white_space] and
    [Str.toLowerCase]. *)

(** [getClientIP()] of this module: two headers, then ['unknown']. *)
Definition getClientIP (headers : gmap string string) : string :=
  let forwarded := headers !! "x-forwarded-for" in
  let realIP := headers !! "x-real-ip" in
  match forwarded with
  | Some (String c s) =>
      Str.trim (List.hd EmptyString (Str.split_on "," (String c s)))
  | _ =>
      match realIP with
      | Some (String c s) => String c s
      | _ => "unknown"
      end
  end.

(** The replacement callback of [sanitizeInput]: the entity of each of the
    five characters its pattern matches, which are [<], [>], the double
    quote (character 34), the apostrophe and [&]. *)
Definition escape_char (c : ascii) : string :=
  if Ascii.eqb c "<" then "&lt;"
  else if Ascii.eqb c ">" then "&gt;"
  else if Ascii.eqb c "034" then "&quot;"
  else if Ascii.eqb c "'" then "&#x27;"
  else if Ascii.eqb c "&" then "&amp;"
  else String c EmptyString.

Fixpoint escape (s : string) : string :=
  match s with
  | EmptyString => EmptyString
  | String c r => (escape_char c ++ escape r)%string
  end.

(** [sanitizeInput(input)] *)
Definition sanitizeInput (input : string) : string :=
  escape (Str.trim input).

Definition is_lower (c : ascii) : bool :=
  let n := N_of_ascii c in ((97 <=? n) && (n <=? 122))%N.
Definition is_upper (c : ascii) : bool :=
  let n := N_of_ascii c in ((65 <=? n) && (n <=? 90))%N.
Definition is_digit (c : ascii) : bool :=
  let n := N_of_ascii c in ((48 <=? n) && (n <=? 57))%N.
(** The class [[@$!%*?&]]. *)
Definition is_special (c : ascii) : bool :=
  Ascii.eqb c "@" || Ascii.eqb c "$" || Ascii.eqb c "!" || Ascii.eqb c "%"
  || Ascii.eqb c "*" || Ascii.eqb c "?" || Ascii.eqb c "&".

(** [validatePasswordStrength(password)]; each pattern [/(?=.*[class])/]
    matches exactly when the password has a character of the class. *)
Definition validatePasswordStrength (password : string) : option string :=
  if (String.length password <? 8)%nat then
    Some "Password must be at least 8 characters long"
  else if negb (Str.some_char is_lower password) then
    Some "Password must contain at least one lowercase letter"
  else if negb (Str.some_char is_upper password) then
    Some "Password must contain at least one uppercase letter"
  else if negb (Str.some_char is_digit password) then
    Some "Password must contain at least one number"
  else if negb (Str.some_char is_special password) then
    Some "Password must contain at least one special character"
  else None.

(** The class [[^\s@]]. *)
Definition email_char (c : ascii) : bool :=
  negb (Js.is_white_space c) && negb (Ascii.eqb c "@").

(** [[^\s@]*\.[^\s@]+$]: some ['.'] of the string is followed by at least
    one character, and all characters are of the class. *)
Fixpoint dot_then_more (s : string) : bool :=
  match s with
  | EmptyString => false
  | String c r =>
      email_char c
      && ((Ascii.eqb c "."
           && match r with
              | EmptyString => false
              | String _ _ => Str.every_char email_char r
              end)
          || dot_then_more r)
  end.

(** [[^\s@]+\.[^\s@]+$] *)
Definition email_domain (s : string) : bool :=
  match s with
  | EmptyString => false
  | String c r => email_char c && dot_then_more r
  end.

(** [[^\s@]*@[^\s@]+\.[^\s@]+$] *)
Fixpoint email_rest (s : string) : bool :=
  match s with
  | EmptyString => false
  | String c r =>
      if Ascii.eqb c "@" then email_domain r
      else negb (Js.is_white_space c) && email_rest r
  end.

(** [/^[^\s@]+@[^\s@]+\.[^\s@]+$/.test(s)] *)
Definition emailRegex_test (s : string) : bool :=
  match s with
  | EmptyString => false
  | String c r => email_char c && email_rest r
  end.

(** What the provider answers to [auth.signInWithPassword]. *)
Inductive SignInOutcome : Type :=
| SignInOk
| SignInError
| SignInThrows.

(** What the provider answers to [auth.signUp]. *)
Inductive SignUpOutcome : Type :=
| SignUpOk
| SignUpError (message : string)
| SignUpThrows.

(** The identity provider as the two actions use it: whether
    [createClient()] returns, and the answers to the two calls. *)
Record Backend : Type := mkBackend {
  createClient_ok : bool;
  signInWithPassword : string → string → SignInOutcome;
  signUp : string → string → string → SignUpOutcome
}.

(** [LoginFormData] and [RegisterFormData]. *)
Record LoginFormData : Type := mkLogin {
  login_email : string;
  login_password : string
}.

Record RegisterFormData : Type := mkRegister {
  register_name : string;
  register_email : string;
  register_password : string
}.

(** What an action does: it throws, or returns [{ error }]. *)
Inductive ActionResult : Type :=
| Threw
| Returned (error : option string).

(** [Math.ceil(resetTime / 60)] on an integer. *)
Definition ceil_div_60 (x : Z) : Z := - ((- x) / 60).

(** The three clock readings of one action: in [isRateLimited], in
    [getResetTime], and in the [recordFailedAttempt] that follows the
    provider's answer. *)
Record Clock : Type := mkClock {
  t_check : Z;
  t_reset : Z;
  t_record : Z
}.

(** [login(data)] on the limiter [authRateLimiter], whose state is passed
    in and out. *)
Definition login (backend : Backend) (headers : gmap string string)
    (clock : Clock) (data : LoginFormData) (rl : RateLimiter)
    : ActionResult * RateLimiter :=
  if negb (createClient_ok backend) then (Threw, rl)
  else
    let clientIP := getClientIP headers in
    let (limited, rl1) := isRateLimited (t_check clock) clientIP rl in
    if limited then
      let resetTime := getResetTime (t_reset clock) clientIP rl1 in
      (Returned (Some ("Too many login attempts. Please try again in "
                       ++ Js.toString (ceil_div_60 resetTime)
                       ++ " minutes.")%string), rl1)
    else
      let sanitizedEmail :=
        sanitizeInput (Str.toLowerCase (login_email data)) in
      if negb (emailRegex_test sanitizedEmail) then
        (Returned (Some "Please enter a valid email address"), rl1)
      else if (String.length (login_password data) =? 0)%nat then
        (Returned (Some "Password is required"), rl1)
      else
        match signInWithPassword backend sanitizedEmail
                (login_password data) with
        | SignInError =>
            (Returned (Some "Invalid email or password"),
             recordFailedAttempt (t_record clock) clientIP rl1)
        | SignInOk =>
            (Returned None, recordSuccessfulAttempt clientIP rl1)
        | SignInThrows =>
            (Returned (Some "Login failed. Please try again."),
             recordFailedAttempt (t_record clock) clientIP rl1)
        end.

(** [register(data)] *)
Definition register (backend : Backend) (headers : gmap string string)
    (clock : Clock) (data : RegisterFormData) (rl : RateLimiter)
    : ActionResult * RateLimiter :=
  if negb (createClient_ok backend) then (Threw, rl)
  else
    let clientIP := getClientIP headers in
    let (limited, rl1) := isRateLimited (t_check clock) clientIP rl in
    if limited then
      let resetTime := getResetTime (t_reset clock) clientIP rl1 in
      (Returned (Some ("Too many registration attempts. Please try again in "
                       ++ Js.toString (ceil_div_60 resetTime)
                       ++ " minutes.")%string), rl1)
    else
      let sanitizedName := sanitizeInput (register_name data) in
      let sanitizedEmail :=
        sanitizeInput (Str.toLowerCase (register_email data)) in
      if negb (emailRegex_test sanitizedEmail) then
        (Returned (Some "Please enter a valid email address"), rl1)
      else
        match validatePasswordStrength (register_password data) with
        | Some passwordError => (Returned (Some passwordError), rl1)
        | None =>
            if (String.length sanitizedName <? 2)%nat
               || (50 <? String.length sanitizedName)%nat
            then
              (Returned (Some "Name must be between 2 and 50 characters"),
               rl1)
            else
              match signUp backend sanitizedEmail (register_password data)
                      sanitizedName with
              | SignUpError message =>
                  (Returned
                     (Some (if Str.includes message "already registered"
                            then "An account with this email already exists"
                            else "Registration failed. Please try again.")),
                   recordFailedAttempt (t_record clock) clientIP rl1)
              | SignUpOk =>
                  (Returned None, recordSuccessfulAttempt clientIP rl1)
              | SignUpThrows =>
                  (Returned (Some "Registration failed. Please try again."),
                   recordFailedAttempt (t_record clock) clientIP rl1)
              end
        end.

(** The limiter after a run of [login] calls, oldest first. *)
Definition logins (backend : Backend) (headers : gmap string string)
    (calls : list (Clock * LoginFormData)) (rl : RateLimiter)
    : RateLimiter :=
  fold_left (λ r call, snd (login backend headers (fst call) (snd call) r))
            calls rl.

(** The e-mail address as [login] passes it on. *)
Definition sanitizedEmail (data : LoginFormData) : string :=
  sanitizeInput (Str.toLowerCase (login_email data)).

(** The form passes both input checks of [login]. *)
Definition well_formed (data : LoginFormData) : Prop :=
  emailRegex_test (sanitizedEmail data) = true
  ∧ login_password data ≠ EmptyString.

(** The provider does not accept the credentials: it answers with an
    error, or the call throws. *)
Definition rejects (backend : Backend) (data : LoginFormData) : Prop :=
  signInWithPassword backend (sanitizedEmail data) (login_password data)
  ≠ SignInOk.

(** A well-formed login that the provider rejects, checked and recorded
    no later than [deadline]. *)
Definition rejected_by (backend : Backend) (deadline : Z)
    (call : Clock * LoginFormData) : Prop :=
  well_formed (snd call)
  ∧ rejects backend (snd call)
  ∧ t_check (fst call) <= deadline
  ∧ t_record (fst call) <= deadline.

(** The message of a refused login. *)
Definition too_many_logins (resetTime : Z) : string :=
  ("Too many login attempts. Please try again in "
   ++ Js.toString (ceil_div_60 resetTime) ++ " minutes.")%string.

(** The message of a refused registration. *)
Definition too_many_registrations (resetTime : Z) : string :=
  ("Too many registration attempts. Please try again in "
   ++ Js.toString (ceil_div_60 resetTime) ++ " minutes.")%string.

(** A provider that rejects every sign-in and every sign-up, for
    examples. *)
Definition rejecting_backend : Backend :=
  {| createClient_ok := true;
     signInWithPassword := λ _ _, SignInError;
     signUp := λ _ _ _, SignUpError "User already registered" |}.

End AuthActions.

(** ** Logger (the source that follows the authentication actions) *)

Module Logger.

(** The values a log context is made of. *)
#[local] Unset Elimination Schemes.
Inductive Json : Type :=
| JNull
| JUndefined
| JBool (b : bool)
| JNum (n : Z)
| JStr (s : string)
| JArr (items : list Json)
| JObj (entries : list (string * Json)).
#[local] Set Elimination Schemes.

(** [SENSITIVE_PATTERNS], each a case-insensitive search for a word. *)
Definition SENSITIVE_PATTERNS : list string :=
  ["password"; "token"; "secret"; "key"; "auth"; "session"; "cookie";
   "csrf"].

(** [SENSITIVE_PATTERNS.some(pattern => pattern.test(key))] *)
Definition isSensitive (key : string) : bool :=
  existsb (Str.includes (Str.toLowerCase key)) SENSITIVE_PATTERNS.

(** [typeof value === 'object' && value !== null] *)
Definition is_object (v : Json) : bool :=
  match v with
  | JArr _ | JObj _ => true
  | _ => false
  end.

(** The assignment [redacted[key] = v] on the object literal adds the
    entry [key], except for the key ["__proto__"]: there it calls the
    setter inherited from [Object.prototype] and adds no entry. *)
Definition adds_entry (entry : string * Json) : bool :=
  negb (String.eqb (fst entry) "__proto__").

(** [redactSensitiveData(obj)]; an object is the list of its entries in the
    order of [Object.entries], so with distinct keys. *)
Fixpoint redactSensitiveData (obj : Json) : Json :=
  match obj with
  | JArr items => JArr (map redactSensitiveData items)
  | JObj entries =>
      JObj (List.filter adds_entry
              (map (λ entry : string * Json,
                      let (key, value) := entry in
                      if isSensitive key then (key, JStr "[REDACTED]")
                      else if is_object value
                           then (key, redactSensitiveData value)
                           else (key, value))
                   entries))
  | _ => obj
  end.

Inductive LogLevel : Type := Debug | Info | Warn | Error.

Definition level_name (l : LogLevel) : string :=
  match l with
  | Debug => "debug"
  | Info => "info"
  | Warn => "warn"
  | Error => "error"
  end.

(** [levels[name]] for the table of [shouldLog]; any other name gives no
    number. *)
Definition levels (name : string) : option Z :=
  if String.eqb name "debug" then Some 0
  else if String.eqb name "info" then Some 1
  else if String.eqb name "warn" then Some 2
  else if String.eqb name "error" then Some 3
  else None.

(** The field [logLevel]: [process.env.LOG_LEVEL || 'info']. *)
Definition logLevel (env_LOG_LEVEL : option string) : string :=
  Js.str_or env_LOG_LEVEL "info".

(** [shouldLog(level)]: a comparison with a missing number is false. *)
Definition shouldLog (env_LOG_LEVEL : option string) (level : LogLevel)
    : bool :=
  match levels (level_name level), levels (logLevel env_LOG_LEVEL) with
  | Some a, Some b => a >=? b
  | _, _ => false
  end.

(** The level at which a call on the logger reaches [log]: [error] passes
    ['error'], [securityEvent] goes through [warn] and [authEvent] through
    [info]. *)
Definition event_level (e : Web.LogEvent) : LogLevel :=
  match e with
  | Web.LogError _ _ => Error
  | Web.LogSecurityEvent _ _ => Warn
  | Web.LogAuthEvent _ _ => Info
  end.

(** [log(level, ...)] returns at once when [shouldLog(level)] is false, and
    writes one line to the console otherwise: of the calls made, the ones
    that write a line. *)
Definition written (env_LOG_LEVEL : option string)
    (calls : list Web.LogEvent) : list Web.LogEvent :=
  List.filter (λ e, shouldLog env_LOG_LEVEL (event_level e)) calls.

(** Whether some entry, at any depth, has a sensitive key and a value other
    than the string ["[REDACTED]"]. *)
Fixpoint exposes (v : Json) : bool :=
  match v with
  | JArr items => existsb exposes items
  | JObj entries =>
      existsb (λ entry : string * Json,
                 let (key, value) := entry in
                 if isSensitive key
                 then match value with
                      | JStr s => negb (String.eqb s "[REDACTED]")
                      | _ => true
                      end
                 else exposes value)
              entries
  | _ => false
  end.

(** Whether some entry, at any depth, has a key that satisfies [p]. *)
Fixpoint has_key (p : string → bool) (v : Json) : bool :=
  match v with
  | JArr items => existsb (has_key p) items
  | JObj entries =>
      existsb (λ entry : string * Json,
                 let (key, value) := entry in
                 p key || has_key p value)
              entries
  | _ => false
  end.

End Logger.

(* ====================================================================== *)
(** * Part II.  Properties                                                 *)
(* ====================================================================== *)

(** ** Rate limiter *)

Section RateLimitFacts.

Import RateLimit.

(** Turn the boolean comparisons of the source into propositions. *)
Ltac cmp :=
  repeat match goal with
  | |- context [?a >? ?b] => destruct (Z.gtb_spec a b)
  | |- context [?a >=? ?b] => destruct (Z.geb_spec a b)
  | H : context [?a >? ?b] |- _ => destruct (Z.gtb_spec a b)
  | H : context [?a >=? ?b] |- _ => destruct (Z.geb_spec a b)
  end.

(** *** The configuration never changes *)

Lemma step_config rl c :
  maxAttempts (step rl c) = maxAttempts rl
  ∧ windowMs (step rl c) = windowMs rl
  ∧ blockDurationMs (step rl c) = blockDurationMs rl.
Proof.
  destruct c as [now id|now id|id|now id|now id]; simpl; auto.
  - unfold isRateLimited.
    destruct (attempts rl !! id) as [e|]; simpl; auto.
    destruct (blocked e); simpl; destruct (now >? resetTime e); simpl; auto.
  - unfold recordFailedAttempt.
    destruct (attempts rl !! id) as [e|]; simpl; auto.
    destruct (now >? resetTime e); simpl; auto.
Qed.

Lemma run_config calls : ∀ rl,
  maxAttempts (run rl calls) = maxAttempts rl
  ∧ windowMs (run rl calls) = windowMs rl
  ∧ blockDurationMs (run rl calls) = blockDurationMs rl.
Proof.
  induction calls as [|c calls IH]; intros rl; simpl; auto.
  destruct (IH (step rl c)) as (-> & -> & ->). apply step_config.
Qed.

Lemma recordFailedAttempt_config now id rl :
  maxAttempts (recordFailedAttempt now id rl) = maxAttempts rl
  ∧ windowMs (recordFailedAttempt now id rl) = windowMs rl
  ∧ blockDurationMs (recordFailedAttempt now id rl) = blockDurationMs rl.
Proof. apply (step_config rl (CRecordFailedAttempt now id)). Qed.

(** *** Invariants of the map *)

(** An entry property that the two writes of [recordFailedAttempt]
    establish or preserve survives every call. *)
Lemma step_all_entries (P : Z → RateLimitEntry → Prop) rl c :
  (∀ now, P (maxAttempts rl) (fresh now rl)) →
  (∀ now e, P (maxAttempts rl) e → P (maxAttempts rl) (bump now rl e)) →
  all_entries (P (maxAttempts rl)) rl →
  all_entries (P (maxAttempts (step rl c))) (step rl c).
Proof.
  intros Hfresh Hbump Hall.
  destruct (step_config rl c) as (-> & _ & _).
  unfold all_entries in *.
  destruct c as [now id|now id|id|now id|now id]; simpl; auto.
  - unfold isRateLimited.
    destruct (attempts rl !! id) as [e|]; simpl; auto.
    destruct (blocked e); simpl; destruct (now >? resetTime e); simpl;
      auto; apply map_Forall_delete; assumption.
  - unfold recordFailedAttempt.
    destruct (attempts rl !! id) as [e|] eqn:He; simpl.
    + destruct (now >? resetTime e); simpl;
        apply map_Forall_insert_2; auto.
      apply Hbump. exact (Hall id e He).
    + apply map_Forall_insert_2; auto.
  - apply map_Forall_delete; auto.
Qed.

Lemma fresh_ok now rl : entry_ok (maxAttempts rl) (fresh now rl).
Proof. split; simpl; [lia | discriminate]. Qed.

Lemma bump_ok now rl e :
  entry_ok (maxAttempts rl) e → entry_ok (maxAttempts rl) (bump now rl e).
Proof.
  intros [Hc Hb]. unfold bump, entry_ok.
  destruct (Z.geb_spec (count e + 1) (maxAttempts rl)); simpl.
  - split; [lia | intros _; lia].
  - split; [lia | intros Hbl; specialize (Hb Hbl); lia].
Qed.

Lemma fresh_tight now rl :
  2 <= maxAttempts rl → entry_tight (maxAttempts rl) (fresh now rl).
Proof.
  intros Hmax. split; simpl; [lia|]. split; [discriminate | lia].
Qed.

Lemma bump_tight now rl e :
  entry_tight (maxAttempts rl) e →
  entry_tight (maxAttempts rl) (bump now rl e).
Proof.
  intros [Hc Hb]. unfold bump, entry_tight.
  destruct (Z.geb_spec (count e + 1) (maxAttempts rl)); simpl.
  - split; [lia | split; [intros _; lia | reflexivity]].
  - split; [lia | split; [intros Hbl; apply Hb in Hbl; lia | lia]].
Qed.

Lemma run_ok calls : ∀ rl,
  all_entries (entry_ok (maxAttempts rl)) rl →
  all_entries (entry_ok (maxAttempts rl)) (run rl calls).
Proof.
  induction calls as [|c calls IH]; intros rl Hall; simpl; auto.
  destruct (step_config rl c) as (Hm & _ & _).
  rewrite <- Hm. apply IH.
  apply (step_all_entries entry_ok); auto using fresh_ok, bump_ok.
Qed.

Lemma run_tight calls : ∀ rl,
  2 <= maxAttempts rl →
  all_entries (entry_tight (maxAttempts rl)) rl →
  all_entries (entry_tight (maxAttempts rl)) (run rl calls).
Proof.
  induction calls as [|c calls IH]; intros rl Hmax Hall; simpl; auto.
  destruct (step_config rl c) as (Hm & _ & _).
  rewrite <- Hm. apply IH; [lia|].
  apply (step_all_entries entry_tight);
    auto using fresh_tight, bump_tight.
Qed.

Lemma reachable_ok rl id e :
  reachable rl → attempts rl !! id = Some e →
  entry_ok (maxAttempts rl) e.
Proof.
  intros [calls Hrun] He.
  set (rl0 := create (maxAttempts rl) (windowMs rl) (blockDurationMs rl))
    in Hrun.
  assert (Hall : all_entries (entry_ok (maxAttempts rl0)) (run rl0 calls)).
  { apply run_ok. unfold all_entries. simpl. apply map_Forall_empty. }
  rewrite <- Hrun in Hall. exact (Hall id e He).
Qed.

(** *** Failures inside one window *)

Lemma lookup_recordFailedAttempt_new now id rl :
  opens_window now id rl →
  attempts (recordFailedAttempt now id rl) !! id = Some (fresh now rl).
Proof.
  unfold opens_window, recordFailedAttempt. intros Hopen.
  destruct (attempts rl !! id) as [e|]; simpl.
  - destruct (Z.gtb_spec now (resetTime e)); [|lia].
    simpl. apply lookup_insert_eq.
  - apply lookup_insert_eq.
Qed.

Lemma lookup_recordFailedAttempt_live now id rl e :
  attempts rl !! id = Some e → now <= resetTime e →
  attempts (recordFailedAttempt now id rl) !! id = Some (bump now rl e).
Proof.
  unfold recordFailedAttempt. intros -> Hlive.
  destruct (Z.gtb_spec now (resetTime e)); [lia|].
  simpl. apply lookup_insert_eq.
Qed.

(** While the count stays below the threshold, failures inside the window
    only count up: the window's expiry and the flag are untouched. *)
Lemma recordFailures_counting id ts : ∀ rl e,
  attempts rl !! id = Some e →
  blocked e = false →
  count e + Z.of_nat (length ts) < maxAttempts rl →
  Forall (λ t, t <= resetTime e) ts →
  attempts (recordFailures id ts rl) !! id
    = Some {| count := count e + Z.of_nat (length ts);
              resetTime := resetTime e;
              blocked := false |}
  ∧ maxAttempts (recordFailures id ts rl) = maxAttempts rl
  ∧ blockDurationMs (recordFailures id ts rl) = blockDurationMs rl.
Proof.
  induction ts as [|t ts IH]; intros rl e He Hb Hlt Hall.
  - simpl. rewrite He. destruct e as [c r b]; simpl in *; subst b.
    repeat split. do 2 f_equal. lia.
  - apply Forall_cons in Hall as [Ht Hall].
    change (recordFailures id (t :: ts) rl)
      with (recordFailures id ts (recordFailedAttempt t id rl)).
    destruct (recordFailedAttempt_config t id rl) as (Hm & _ & Hd).
    pose proof (lookup_recordFailedAttempt_live t id rl e He Ht) as Hnew.
    assert (Hbump : bump t rl e
              = {| count := count e + 1; resetTime := resetTime e;
                   blocked := false |}).
    { unfold bump.
      destruct (Z.geb_spec (count e + 1) (maxAttempts rl)).
      - simpl length in Hlt. lia.
      - now rewrite Hb. }
    rewrite Hbump in Hnew.
    destruct (IH _ _ Hnew eq_refl) as (Hl & Hm' & Hd'); simpl.
    + rewrite Hm. simpl length in Hlt. lia.
    + exact Hall.
    + simpl in Hl. rewrite Hl, Hm', Hd', Hm, Hd. repeat split.
      do 2 f_equal. simpl length. lia.
Qed.

(** The entry left by [maxAttempts] failures inside one window. *)
Lemma recordFailures_blocks rl id t1 ts :
  2 <= maxAttempts rl →
  Z.of_nat (length (t1 :: ts)) = maxAttempts rl →
  opens_window t1 id rl →
  Forall (λ t, t <= t1 + windowMs rl) ts →
  attempts (recordFailures id (t1 :: ts) rl) !! id
    = Some {| count := maxAttempts rl;
              resetTime := List.last ts t1 + blockDurationMs rl;
              blocked := true |}.
Proof.
  intros Hmax Hlen Hopen Hall.
  destruct ts as [|t0 ts0] using rev_ind; [simpl in Hlen; lia|].
  clear IHts0. rewrite List.last_last.
  apply Forall_app in Hall as [Hmid Hlast].
  apply Forall_cons in Hlast as [Hlast _].
  rewrite length_cons, length_app in Hlen. simpl in Hlen.
  unfold recordFailures. rewrite app_comm_cons, fold_left_app. simpl.
  fold (recordFailures id ts0 (recordFailedAttempt t1 id rl)).
  destruct (recordFailedAttempt_config t1 id rl) as (Hm & _ & Hd).
  pose proof (lookup_recordFailedAttempt_new t1 id rl Hopen) as Hfirst.
  destruct (recordFailures_counting id ts0 _ _ Hfirst eq_refl)
    as (Hl & Hm' & Hd').
  { simpl. rewrite Hm. lia. }
  { exact Hmid. }
  simpl in Hl.
  rewrite (lookup_recordFailedAttempt_live _ _ _ _ Hl); [|simpl; lia].
  unfold bump. simpl. rewrite Hm', Hd', Hm, Hd.
  destruct (Z.geb_spec (1 + Z.of_nat (length ts0) + 1) (maxAttempts rl));
    [|lia].
  do 2 f_equal. lia.
Qed.

(** The answer of [isRateLimited] on a blocked entry. *)
Lemma isRateLimited_blocked now id rl e :
  attempts rl !! id = Some e → blocked e = true →
  fst (isRateLimited now id rl) = negb (now >? resetTime e).
Proof.
  unfold isRateLimited. intros -> ->. simpl.
  destruct (now >? resetTime e); reflexivity.
Qed.

Lemma isAllowed_blocked now id rl e :
  attempts rl !! id = Some e → blocked e = true →
  fst (isAllowed now id rl) = (now >? resetTime e).
Proof.
  intros He Hb. pose proof (isRateLimited_blocked now id rl e He Hb) as H.
  unfold isAllowed. destruct (isRateLimited now id rl) as [l r].
  simpl in *. rewrite H. apply negb_involutive.
Qed.

(** A denied query leaves the limiter as it is: only an expired entry is
    ever deleted by a read. *)
Lemma isAllowed_denied_unchanged now id rl :
  fst (isAllowed now id rl) = false → snd (isAllowed now id rl) = rl.
Proof.
  unfold isAllowed, isRateLimited.
  destruct (attempts rl !! id) as [e|]; simpl; [|discriminate].
  destruct (blocked e); simpl; destruct (now >? resetTime e); simpl;
    try discriminate; reflexivity.
Qed.

(** *** Blocking after [maxAttempts] failures *)

(** C1, amended to thresholds of at least two.  For every limiter with
    [maxAttempts >= 2] and every identifier: when [recordFailedAttempt] is
    called [maxAttempts] times in one window (the first call opens the
    window, the later ones come no later than its expiry, nothing else
    touches the entry), the identifier is denied at every instant up to
    and including [blockDurationMs] after the last failure, and is allowed
    only at instants later than that; the block is measured from the last
    failure, not from the start of the window.  With a non-negative block
    duration the denial already holds at the instant of the last failure.
    A denied query changes nothing, so the same holds however often the
    identifier is queried in between. *)
Theorem block_lasts_blockDuration_from_last_failure rl id t1 ts :
  2 <= maxAttempts rl →
  Z.of_nat (length (t1 :: ts)) = maxAttempts rl →
  opens_window t1 id rl →
  Forall (λ t, t <= t1 + windowMs rl) ts →
  let rl' := recordFailures id (t1 :: ts) rl in
  let t_last := List.last ts t1 in
  (∀ t, t <= t_last + blockDurationMs rl →
        fst (isAllowed t id rl') = false)
  ∧ (∀ t, fst (isAllowed t id rl') = true →
          t_last + blockDurationMs rl < t)
  ∧ (0 <= blockDurationMs rl → fst (isAllowed t_last id rl') = false)
  ∧ (∀ t, fst (isAllowed t id rl') = false →
          snd (isAllowed t id rl') = rl').
Proof.
  intros Hmax Hlen Hopen Hall rl' t_last.
  pose proof (recordFailures_blocks rl id t1 ts Hmax Hlen Hopen Hall) as He.
  fold rl' t_last in He.
  assert (Hdec : ∀ t, fst (isAllowed t id rl')
                      = (t >? t_last + blockDurationMs rl)).
  { intros t. now rewrite (isAllowed_blocked t id rl' _ He). }
  split; [|split; [|split]].
  - intros t Ht. rewrite Hdec. cmp; [lia | reflexivity].
  - intros t. rewrite Hdec. cmp; [lia | discriminate].
  - intros Hd. rewrite Hdec. cmp; [lia | reflexivity].
  - intros t. apply isAllowed_denied_unchanged.
Qed.

(** The amended C1 at the limiter [new RateLimiter(3, 1000, 2000)] with
    failures of ["x"] at 0, 100 and 200. *)
Lemma block_lasts_blockDuration_from_last_failure_witness :
  let rl' := recordFailures "x" [0; 100; 200] (create 3 1000 2000) in
  (∀ t, t <= 200 + 2000 → fst (isAllowed t "x" rl') = false)
  ∧ (∀ t, fst (isAllowed t "x" rl') = true → 200 + 2000 < t)
  ∧ (0 <= 2000 → fst (isAllowed 200 "x" rl') = false)
  ∧ (∀ t, fst (isAllowed t "x" rl') = false →
          snd (isAllowed t "x" rl') = rl').
Proof.
  apply (block_lasts_blockDuration_from_last_failure
           (create 3 1000 2000) "x" 0 [100; 200]).
  - simpl. lia.
  - reflexivity.
  - exact I.
  - repeat constructor; simpl; lia.
Defined.

(** C1 as stated, for every [maxAttempts >= 1], fails at
    [maxAttempts = 1]: the single failure opens a window and leaves the
    entry unblocked, so with [new RateLimiter(1, 1000, 2000)] and one
    failure at 0 the identifier is allowed again at 1001, when the window
    has expired, long before 0 + 2000. *)
Lemma block_from_last_failure_fails_at_threshold_one :
  ¬ (∀ rl id t1 ts,
       1 <= maxAttempts rl →
       Z.of_nat (length (t1 :: ts)) = maxAttempts rl →
       opens_window t1 id rl →
       Forall (λ t, t <= t1 + windowMs rl) ts →
       ∀ t, fst (isAllowed t id (recordFailures id (t1 :: ts) rl)) = true →
            List.last ts t1 + blockDurationMs rl < t).
Proof.
  intros H.
  specialize (H (create 1 1000 2000) "x" 0 [] ltac:(simpl; lia)
                eq_refl I ltac:(constructor) 1001 eq_refl).
  simpl in H. lia.
Qed.

(** C2, amended at the boundary.  With [maxAttempts = 3], a window of
    1000 ms, a block of 2000 ms and failures of ["x"] at 0, 100 and 200,
    ["x"] is denied at every [t] with [201 <= t <= 2200] and allowed at
    every [t > 2200]. *)
Theorem scenario_denied_through_2200 :
  let rl := recordFailures "x" [0; 100; 200] (create 3 1000 2000) in
  (∀ t, 201 <= t <= 2200 → fst (isAllowed t "x" rl) = false)
  ∧ (∀ t, 2200 < t → fst (isAllowed t "x" rl) = true).
Proof.
  intros rl.
  assert (He : attempts rl !! "x"
               = Some {| count := 3; resetTime := 2200; blocked := true |})
    by (vm_compute; reflexivity).
  split; intros t Ht; rewrite (isAllowed_blocked t "x" rl _ He eq_refl);
    simpl; cmp; lia || reflexivity.
Qed.

(** The amended C2 at the two ends: denied at 2200, allowed at 2201. *)
Lemma scenario_denied_through_2200_witness :
  let rl := recordFailures "x" [0; 100; 200] (create 3 1000 2000) in
  fst (isAllowed 2200 "x" rl) = false ∧ fst (isAllowed 2201 "x" rl) = true.
Proof.
  destruct scenario_denied_through_2200 as [Hdeny Hallow].
  split; [apply Hdeny | apply Hallow]; lia.
Defined.

(** C2 as stated says ["x"] is allowed at [t = 2200] exactly; the expiry
    test is [now > resetTime], so at 2200 the block still holds. *)
Lemma scenario_still_denied_at_2200 :
  let rl := recordFailures "x" [0; 100; 200] (create 3 1000 2000) in
  fst (isAllowed 2200 "x" rl) ≠ true.
Proof. vm_compute. discriminate. Qed.

(** *** The invariant of reachable maps *)

(** C9.  For every limiter with [maxAttempts >= 2] and every history of
    calls from the empty map, every entry of the map has [count >= 1] and
    is blocked exactly when [count >= maxAttempts]; so the last line of
    [isRateLimited], reached only for an unblocked entry, never answers
    true. *)
Theorem entries_blocked_iff_threshold maxA window blockD calls id e :
  2 <= maxA →
  attempts (run (create maxA window blockD) calls) !! id = Some e →
  1 <= count e
  ∧ (blocked e = true ↔ maxA <= count e)
  ∧ (blocked e = false → (count e >=? maxA) = false).
Proof.
  intros Hmax He.
  assert (Hall : all_entries (entry_tight maxA)
                   (run (create maxA window blockD) calls)).
  { apply (run_tight calls (create maxA window blockD) Hmax).
    unfold all_entries. simpl. apply map_Forall_empty. }
  destruct (Hall id e He) as [Hc Hb].
  repeat split; try tauto.
  intros Hun. cmp; [|reflexivity].
  assert (blocked e = true) by (apply Hb; lia). congruence.
Qed.

(** C9 on a history that blocks, queries, succeeds and fails again. *)
Lemma entries_blocked_iff_threshold_witness :
  1 <= 1
  ∧ (false = true ↔ 2 <= 1)
  ∧ (false = false → (1 >=? 2) = false).
Proof.
  apply (entries_blocked_iff_threshold 2 1000 2000
           [CRecordFailedAttempt 0 "x"; CRecordFailedAttempt 1 "x";
            CIsRateLimited 2 "x"; CRecordSuccessfulAttempt "x";
            CRecordFailedAttempt 3 "x"]
           "x" {| count := 1; resetTime := 1003; blocked := false |}).
  - lia.
  - vm_compute. reflexivity.
Defined.

(** *** Failures during a block *)

(** C10.  In every reachable state, for every identifier whose entry is
    blocked and not yet expired ([now <= resetTime]), one more
    [recordFailedAttempt] increments the count, keeps the entry blocked
    and sets [resetTime] to [now + blockDurationMs]. *)
Theorem failure_during_block_extends_block rl now id e :
  reachable rl →
  attempts rl !! id = Some e →
  blocked e = true →
  now <= resetTime e →
  attempts (recordFailedAttempt now id rl) !! id
    = Some {| count := count e + 1;
              resetTime := now + blockDurationMs rl;
              blocked := true |}.
Proof.
  intros Hreach He Hb Hlive.
  destruct (reachable_ok rl id e Hreach He) as [_ Hthr].
  specialize (Hthr Hb).
  rewrite (lookup_recordFailedAttempt_live now id rl e He Hlive).
  unfold bump. cmp; [reflexivity | lia].
Qed.

(** C10 after the scenario of C2: a fourth failure at 1500 moves the
    expiry from 2200 to 3500. *)
Lemma failure_during_block_extends_block_witness :
  attempts (recordFailedAttempt 1500 "x"
              (recordFailures "x" [0; 100; 200] (create 3 1000 2000)))
    !! "x"
  = Some {| count := 3 + 1; resetTime := 1500 + 2000; blocked := true |}.
Proof.
  apply (failure_during_block_extends_block
           (recordFailures "x" [0; 100; 200] (create 3 1000 2000))
           1500 "x" {| count := 3; resetTime := 2200; blocked := true |}).
  - exists [CRecordFailedAttempt 0 "x"; CRecordFailedAttempt 100 "x";
            CRecordFailedAttempt 200 "x"].
    vm_compute. reflexivity.
  - vm_compute. reflexivity.
  - reflexivity.
  - simpl. lia.
Defined.

End RateLimitFacts.

(** ** Numbers and strings *)

Section JsFacts.

Import Js.

(** *** [parseInt] reads back what [toString] prints *)

Lemma parse_digits_uint d : ∀ acc,
  parse_digits 10 (Some acc) (NilEmpty.string_of_uint d)
  = Some (uint_value d acc).
Proof.
  induction d; intros acc; simpl; try reflexivity; apply IHd.
Qed.

Lemma of_uint_acc_value d : ∀ acc,
  Z.pos (Pos.of_uint_acc d acc) = uint_value d (Z.pos acc).
Proof.
  induction d; intros acc; cbn [Pos.of_uint_acc uint_value];
    try reflexivity; rewrite IHd; f_equal; lia.
Qed.

Lemma of_uint_value d : Z.of_uint d = uint_value d 0.
Proof.
  unfold Z.of_uint.
  induction d; cbn [Pos.of_uint uint_value]; try reflexivity;
    try exact IHd;
    cbn [Z.of_N]; rewrite of_uint_acc_value; reflexivity.
Qed.

Lemma parseInt_string_of_uint d :
  d ≠ Nil → parseInt (NilEmpty.string_of_uint d) = Some (Z.of_uint d).
Proof.
  intros Hd. rewrite of_uint_value.
  destruct d as [|d|d|d|d|d|d|d|d|d|d]; [congruence|..].
  2-10: unfold parseInt; simpl; rewrite parse_digits_uint; f_equal;
        destruct (uint_value d _); reflexivity.
  destruct d; unfold parseInt; simpl; try reflexivity;
    rewrite parse_digits_uint; f_equal;
    destruct (uint_value d _); reflexivity.
Qed.

Lemma parseInt_neg_string_of_uint d :
  d ≠ Nil →
  parseInt (String "-" (NilEmpty.string_of_uint d)) = Some (- Z.of_uint d).
Proof.
  intros Hd. rewrite of_uint_value.
  destruct d as [|d|d|d|d|d|d|d|d|d|d]; [congruence|..].
  2-10: unfold parseInt; simpl; rewrite parse_digits_uint; f_equal;
        destruct (uint_value d _); reflexivity.
  destruct d; unfold parseInt; simpl; try reflexivity;
    rewrite parse_digits_uint; f_equal;
    destruct (uint_value d _); reflexivity.
Qed.

Lemma string_of_uint_nonnil d :
  d ≠ Nil → NilZero.string_of_uint d = NilEmpty.string_of_uint d.
Proof. destruct d; [congruence | reflexivity..]. Qed.

Lemma parseInt_toString n : parseInt (toString n) = Some n.
Proof.
  unfold toString.
  rewrite <- (DecimalZ.of_to n) at 2.
  destruct n as [|p|p]; [reflexivity|..]; simpl Z.to_int;
    pose proof (DecimalPos.Unsigned.to_uint_nonnil p) as Hp;
    cbn [NilZero.string_of_int Z.of_int];
    rewrite (string_of_uint_nonnil _ Hp).
  - apply parseInt_string_of_uint; assumption.
  - apply parseInt_neg_string_of_uint; assumption.
Qed.

Lemma toString_nonempty n : ∃ c s, toString n = String c s.
Proof.
  unfold toString. destruct n as [|p|p]; simpl.
  - eauto.
  - pose proof (DecimalPos.Unsigned.to_uint_nonnil p) as Hp.
    destruct (Pos.to_uint p); try congruence; simpl; eauto.
  - eauto.
Qed.

Lemma str_truthy_toString n : str_truthy (Some (toString n)) = true.
Proof. destruct (toString_nonempty n) as (c & s & ->). reflexivity. Qed.

Lemma str_or_truthy o dflt :
  str_truthy o = true → Some (str_or o dflt) = o.
Proof. destruct o as [[|c s]|]; simpl; congruence. Qed.

Lemma str_or_falsy o dflt : str_truthy o = false → str_or o dflt = dflt.
Proof. destruct o as [[|c s]|]; simpl; congruence. Qed.

(** *** Splitting at the separator *)

Lemma split_dot_no_dot s : includes_dot s = false → split_dot s = [s].
Proof.
  induction s as [|c s IH]; simpl; [reflexivity|].
  destruct (Ascii.eqb c "."); simpl; [discriminate|].
  intros H. now rewrite (IH H).
Qed.

Lemma split_dot_app a b :
  includes_dot a = false →
  split_dot (a ++ "." ++ b) = a :: split_dot b.
Proof.
  induction a as [|c a IH]; simpl; [reflexivity|].
  destruct (Ascii.eqb c "."); simpl; [discriminate|].
  intros H. now rewrite (IH H).
Qed.

Lemma split_dot_head s : ∃ h t, split_dot s = h :: t.
Proof.
  induction s as [|c s (h & t & IH)]; simpl; [eauto|].
  rewrite IH. destruct (Ascii.eqb c "."); eauto.
Qed.

(** Without a separator there is no second part. *)
Lemma split_dot_second_none s :
  includes_dot s = false → split_dot s !! 1%nat = None.
Proof. intros H. now rewrite (split_dot_no_dot s H). Qed.

(** *** Hexadecimal text *)

Lemma includes_dot_app a b :
  includes_dot (a ++ b) = includes_dot a || includes_dot b.
Proof.
  induction a as [|c a IH]; simpl; [reflexivity|].
  rewrite IH. apply orb_assoc.
Qed.

Lemma hex_of_byte_no_dot c : includes_dot (hex_of_byte c) = false.
Proof. destruct c as [[] [] [] [] [] [] [] []]; reflexivity. Qed.

Lemma to_hex_no_dot bytes : includes_dot (to_hex bytes) = false.
Proof.
  induction bytes as [|c r IH]; [reflexivity|].
  cbn [to_hex]. rewrite includes_dot_app, IH, hex_of_byte_no_dot.
  reflexivity.
Qed.

Lemma to_hex_nonempty c r : ∃ c' s', to_hex (String c r) = String c' s'.
Proof. simpl. unfold hex_of_byte. simpl. eauto. Qed.

Lemma from_hex_of_byte c r :
  from_hex (hex_of_byte c ++ r) = String c (from_hex r).
Proof. destruct c as [[] [] [] [] [] [] [] []]; reflexivity. Qed.

(** [Buffer.from(buf.toString('hex'), 'hex')] gives the bytes back. *)
Lemma from_hex_to_hex bytes : from_hex (to_hex bytes) = bytes.
Proof.
  induction bytes as [|c r IH]; [reflexivity|].
  cbn [to_hex]. rewrite from_hex_of_byte, IH. reflexivity.
Qed.

Lemma timingSafeEqual_refl a : timingSafeEqual a a = Return true.
Proof.
  unfold timingSafeEqual. now rewrite Nat.eqb_refl, String.eqb_refl.
Qed.

End JsFacts.

(** ** Cookie store *)

Section WebFacts.

Import Web.

Lemma cookie_value_set_eq name v a w :
  cookie_value name (cookie_set name v a w) = Some v.
Proof.
  unfold cookie_value, cookie_set. simpl. now rewrite lookup_insert_eq.
Qed.

Lemma cookie_value_set_ne name name' v a w :
  name ≠ name' →
  cookie_value name' (cookie_set name v a w) = cookie_value name' w.
Proof.
  intros Hne. unfold cookie_value, cookie_set. simpl.
  now rewrite lookup_insert_ne.
Qed.

Lemma cookie_value_delete_eq name w :
  cookie_value name (cookie_delete name w) = None.
Proof.
  unfold cookie_value, cookie_delete. simpl. now rewrite lookup_delete_eq.
Qed.

Lemma cookie_value_delete_ne name name' w :
  name ≠ name' →
  cookie_value name' (cookie_delete name w) = cookie_value name' w.
Proof.
  intros Hne. unfold cookie_value, cookie_delete. simpl.
  now rewrite lookup_delete_ne.
Qed.

End WebFacts.

(** ** CSRF token service *)

Section CsrfFacts.

Import Web Js Csrf.

Variable hmac_sha256 : string → string → string.

Lemma generateToken_spec w :
  (∃ c r, fst (generateToken w) = to_hex (String c r))
  ∧ jar (snd (generateToken w)) = jar w
  ∧ production (snd (generateToken w)) = production w.
Proof.
  unfold generateToken, randomBytes, TOKEN_LENGTH.
  cbn [fst snd seq map string_of_list_ascii jar production set_cursor].
  repeat split. eauto.
Qed.

(** Shape of a truthy string. *)
Lemma str_truthy_inv o :
  str_truthy o = true → ∃ c s, o = Some (String c s).
Proof. destruct o as [[|c s]|]; simpl; try discriminate; eauto. Qed.

Lemma ensure_secret_spec w :
  str_truthy (Some (fst (ensure_secret w))) = true
  ∧ cookie_value CSRF_SECRET_NAME (snd (ensure_secret w))
    = Some (fst (ensure_secret w))
  ∧ (str_truthy (cookie_value CSRF_SECRET_NAME w) = true →
     cookie_value CSRF_SECRET_NAME w = Some (fst (ensure_secret w))).
Proof.
  unfold ensure_secret.
  destruct (generateToken_spec w) as ((c & r & Htok) & _ & _).
  destruct (cookie_value CSRF_SECRET_NAME w) as [[|c0 s0]|] eqn:Hsec;
    try (destruct (generateToken w) as [secret w'];
         cbn [fst snd] in *; subst secret;
         destruct (to_hex_nonempty c r) as (c' & s' & ->);
         rewrite cookie_value_set_eq; repeat split; discriminate).
  cbn [fst snd]. rewrite Hsec. repeat split.
Qed.

Lemma generateCSRFToken_spec w :
  ∃ secret nonce,
    fst (generateCSRFToken hmac_sha256 w)
      = (nonce ++ "." ++ to_hex (hmac_sha256 secret nonce))%string
    ∧ str_truthy (Some secret) = true
    ∧ (∃ c r, nonce = to_hex (String c r))
    ∧ cookie_value CSRF_TOKEN_NAME (snd (generateCSRFToken hmac_sha256 w))
      = Some (fst (generateCSRFToken hmac_sha256 w))
    ∧ cookie_value CSRF_SECRET_NAME (snd (generateCSRFToken hmac_sha256 w))
      = Some secret
    ∧ (str_truthy (cookie_value CSRF_SECRET_NAME w) = true →
       cookie_value CSRF_SECRET_NAME w = Some secret).
Proof.
  unfold generateCSRFToken.
  destruct (ensure_secret_spec w) as (Hsec & Hstored & Hkept).
  destruct (ensure_secret w) as [secret w1]. cbn [fst snd] in *.
  destruct (generateToken_spec w1) as (Hnonce & Hjar & _).
  destruct (generateToken w1) as [nonce w2]. cbn [fst snd] in *.
  exists secret, nonce. repeat split; auto.
  - apply cookie_value_set_eq.
  - rewrite cookie_value_set_ne by discriminate.
    unfold cookie_value in *. now rewrite Hjar.
Qed.

(** The check on a candidate that is the stored token, with a stored
    secret. *)
Lemma validateCSRFToken_try_stored w c s c1 s1 :
  cookie_value CSRF_TOKEN_NAME w = Some (String c s) →
  cookie_value CSRF_SECRET_NAME w = Some (String c1 s1) →
  validateCSRFToken_try hmac_sha256 (Some (String c s)) w
  = match split_dot (String c s) !! 0%nat,
          split_dot (String c s) !! 1%nat with
    | Some (String c3 s3), Some (String c4 s4) =>
        timingSafeEqual
          (from_hex (String c4 s4))
          (from_hex (to_hex (hmac_sha256 (String c1 s1) (String c3 s3))))
    | _, _ => Return false
    end.
Proof.
  intros Ht Hs. unfold validateCSRFToken_try. rewrite Ht, Hs.
  now rewrite String.eqb_refl.
Qed.

(** An accepted candidate is the stored token. *)
Lemma validateCSRFToken_true_stored token w :
  validateCSRFToken hmac_sha256 token w = true →
  token = cookie_value CSRF_TOKEN_NAME w ∧ str_truthy token = true.
Proof.
  unfold validateCSRFToken, validateCSRFToken_try.
  destruct (cookie_value CSRF_TOKEN_NAME w) as [[|c0 s0]|];
    try discriminate;
    destruct (cookie_value CSRF_SECRET_NAME w) as [[|c1 s1]|];
    try discriminate;
    destruct token as [[|c2 s2]|]; try discriminate.
  destruct (String.eqb_spec (String c2 s2) (String c0 s0)) as [->|];
    simpl; [auto | discriminate].
Qed.

Hypothesis hmac_sha256_length :
  ∀ key data, String.length (hmac_sha256 key data) = 32%nat.

Lemma digest_hex_nonempty key data :
  ∃ c s, to_hex (hmac_sha256 key data) = String c s.
Proof.
  pose proof (hmac_sha256_length key data) as Hlen.
  destruct (hmac_sha256 key data) as [|c r]; [discriminate|].
  apply to_hex_nonempty.
Qed.

Lemma validate_issued w :
  validateCSRFToken hmac_sha256
    (Some (fst (generateCSRFToken hmac_sha256 w)))
    (snd (generateCSRFToken hmac_sha256 w)) = true.
Proof.
  destruct (generateCSRFToken_spec w)
    as (secret & nonce & HT & Hsec & (c & r & Hnonce) & Htok & Hst & _).
  destruct (generateCSRFToken hmac_sha256 w) as [T w']. cbn [fst snd] in *.
  apply str_truthy_inv in Hsec as (c1 & s1 & [= ->]).
  destruct (to_hex_nonempty c r) as (cn & sn & Hn).
  destruct (digest_hex_nonempty (String c1 s1) nonce) as (cs & ss & Hsig).
  assert (Hsplit : split_dot T
                   = [nonce; to_hex (hmac_sha256 (String c1 s1) nonce)]).
  { rewrite HT.
    rewrite split_dot_app by (rewrite Hnonce; apply to_hex_no_dot).
    now rewrite split_dot_no_dot by apply to_hex_no_dot. }
  assert (HTne : ∃ c s, T = String c s).
  { rewrite HT, Hnonce, Hn. simpl. eauto. }
  destruct HTne as (ct & st & HTeq).
  unfold validateCSRFToken. rewrite HTeq in Htok |- *.
  rewrite (validateCSRFToken_try_stored _ _ _ _ _ Htok Hst).
  rewrite <- HTeq, Hsplit. cbn [lookup list_lookup].
  rewrite Hn in Hnonce. subst nonce. rewrite Hsig.
  now rewrite timingSafeEqual_refl.
Qed.

(** A candidate that is not the stored token is rejected. *)
Lemma validateCSRFToken_not_stored token w :
  token ≠ cookie_value CSRF_TOKEN_NAME w →
  validateCSRFToken hmac_sha256 token w = false.
Proof.
  intros Hne.
  destruct (validateCSRFToken hmac_sha256 token w) eqn:Hv; [|reflexivity].
  apply validateCSRFToken_true_stored in Hv as [Hv _]. contradiction.
Qed.

Lemma validateCSRFToken_missing token w :
  str_truthy token = false
  ∨ str_truthy (cookie_value CSRF_TOKEN_NAME w) = false
  ∨ str_truthy (cookie_value CSRF_SECRET_NAME w) = false →
  validateCSRFToken hmac_sha256 token w = false.
Proof.
  unfold validateCSRFToken, validateCSRFToken_try.
  destruct (cookie_value CSRF_TOKEN_NAME w) as [[|c0 s0]|];
    destruct (cookie_value CSRF_SECRET_NAME w) as [[|c1 s1]|];
    destruct token as [[|c2 s2]|]; simpl; try reflexivity.
  intros [H|[H|H]]; discriminate.
Qed.

Lemma validateCSRFToken_no_separator s w :
  includes_dot s = false →
  validateCSRFToken hmac_sha256 (Some s) w = false.
Proof.
  intros Hdot.
  unfold validateCSRFToken, validateCSRFToken_try.
  destruct (cookie_value CSRF_TOKEN_NAME w) as [[|c0 s0]|];
    destruct (cookie_value CSRF_SECRET_NAME w) as [[|c1 s1]|];
    destruct s as [|c2 s2]; try reflexivity.
  destruct (negb _); [reflexivity|].
  rewrite (split_dot_no_dot _ Hdot). reflexivity.
Qed.

Lemma validateCSRFToken_throw token w name :
  validateCSRFToken_try hmac_sha256 token w = Throw name →
  validateCSRFToken hmac_sha256 token w = false.
Proof. unfold validateCSRFToken. now intros ->. Qed.

Lemma generateCSRFToken_nonce w :
  ∃ signature,
    fst (generateCSRFToken hmac_sha256 w)
    = (fst (generateToken (snd (ensure_secret w))) ++ "." ++ signature)%string.
Proof.
  unfold generateCSRFToken.
  destruct (ensure_secret w) as [secret w1]. cbn [fst snd].
  destruct (generateToken w1) as [token w2]. cbn [fst snd].
  eexists. reflexivity.
Qed.

(** Two issuances give different tokens as soon as the random bytes drawn
    for the two nonces differ. *)
Lemma issued_tokens_differ w :
  let w1 := snd (generateCSRFToken hmac_sha256 w) in
  fst (generateToken (snd (ensure_secret w)))
    ≠ fst (generateToken (snd (ensure_secret w1))) →
  fst (generateCSRFToken hmac_sha256 w)
    ≠ fst (generateCSRFToken hmac_sha256 w1).
Proof.
  intros w1 Hne Heq. apply Hne.
  destruct (generateCSRFToken_nonce w) as (sig & HT).
  destruct (generateCSRFToken_nonce w1) as (sig1 & HT1).
  destruct (generateToken_spec (snd (ensure_secret w)))
    as ((c & r & Hn) & _).
  destruct (generateToken_spec (snd (ensure_secret w1)))
    as ((c1 & r1 & Hn1) & _).
  rewrite HT, HT1 in Heq. apply (f_equal split_dot) in Heq.
  rewrite !split_dot_app in Heq
    by (rewrite ?Hn, ?Hn1; apply to_hex_no_dot).
  congruence.
Qed.






(** C5.  For every candidate and every cookie state, [validateCSRFToken]
    answers false when the candidate, the stored token or the stored secret
    is missing or empty; when the candidate is not the stored token, so also
    for any string other than a token that is valid, such as that token with
    one signature character changed; when the candidate has no ['.']; and
    when the body of the [try] throws: no exception leaves the function. *)
Theorem validateCSRFToken_fails_closed token w :
  (str_truthy token = false
   ∨ str_truthy (cookie_value CSRF_TOKEN_NAME w) = false
   ∨ str_truthy (cookie_value CSRF_SECRET_NAME w) = false →
   validateCSRFToken hmac_sha256 token w = false)
  ∧ (token ≠ cookie_value CSRF_TOKEN_NAME w →
     validateCSRFToken hmac_sha256 token w = false)
  ∧ (∀ valid, validateCSRFToken hmac_sha256 (Some valid) w = true →
       token ≠ Some valid →
       validateCSRFToken hmac_sha256 token w = false)
  ∧ (∀ s, token = Some s → includes_dot s = false →
       validateCSRFToken hmac_sha256 token w = false)
  ∧ (∀ name, validateCSRFToken_try hmac_sha256 token w = Throw name →
       validateCSRFToken hmac_sha256 token w = false).
Proof.
  repeat split.
  - apply validateCSRFToken_missing.
  - apply validateCSRFToken_not_stored.
  - intros valid Hvalid Hne. apply validateCSRFToken_not_stored.
    apply validateCSRFToken_true_stored in Hvalid as [<- _]. exact Hne.
  - intros s -> Hdot. now apply validateCSRFToken_no_separator.
  - intros name. apply validateCSRFToken_throw.
Qed.

(** The [catch] is live: with the stored token ["ab.zz"] the signature
    decodes to no bytes, [timingSafeEqual] throws on the unequal lengths,
    and the answer is false. *)
Lemma validateCSRFToken_catches_RangeError w :
  cookie_value CSRF_TOKEN_NAME w = Some "ab.zz" →
  cookie_value CSRF_SECRET_NAME w = Some "k" →
  validateCSRFToken_try hmac_sha256 (Some "ab.zz") w = Throw "RangeError"
  ∧ validateCSRFToken hmac_sha256 (Some "ab.zz") w = false.
Proof.
  intros Ht Hs.
  assert (Htry : validateCSRFToken_try hmac_sha256 (Some "ab.zz") w
                 = Throw "RangeError").
  { rewrite (validateCSRFToken_try_stored _ _ _ _ _ Ht Hs).
    cbn [split_dot Ascii.eqb Bool.eqb lookup list_lookup].
    rewrite from_hex_to_hex. unfold timingSafeEqual.
    rewrite hmac_sha256_length. reflexivity. }
  split; [exact Htry | exact (validateCSRFToken_throw _ _ _ Htry)].
Qed.

End CsrfFacts.

Lemma sample_hmac_length key data :
  String.length (Csrf.sample_hmac key data) = 32%nat.
Proof. reflexivity. Qed.



(** C5 on the sample world after one issuance: a candidate without a
    separator is rejected, and so is the issued token with the last
    character of its signature changed. *)
Lemma validateCSRFToken_fails_closed_witness :
  let T := fst (Csrf.generateCSRFToken Csrf.sample_hmac Web.sample_world) in
  let w := snd (Csrf.generateCSRFToken Csrf.sample_hmac Web.sample_world) in
  Csrf.validateCSRFToken Csrf.sample_hmac (Some "0123abcd") w = false
  ∧ Csrf.validateCSRFToken Csrf.sample_hmac (Some (Js.mutate_last T)) w
    = false.
Proof.
  intros T w. split.
  - destruct (validateCSRFToken_fails_closed Csrf.sample_hmac
                (Some "0123abcd") w) as (_ & _ & _ & Hsep & _).
    apply (Hsep "0123abcd"); reflexivity.
  - destruct (validateCSRFToken_fails_closed Csrf.sample_hmac
                (Some (Js.mutate_last T)) w) as (_ & _ & Hmut & _).
    apply (Hmut T).
    + vm_compute. reflexivity.
    + vm_compute. discriminate.
Defined.

(** ** Session guardian *)

Section SessionFacts.

Import Web Js Session.

(** *** Reading the session *)

Lemma getCurrentSession_signed_in now w uid tok :
  provider w = SignedIn uid tok →
  getCurrentSession now w
  = (Some {| userId := uid;
             sessionId := String.substring 0 16 tok;
             lastActivity :=
               parseInt (str_or (cookie_value "last-activity" w) "0");
             createdAt :=
               parseInt (str_or (cookie_value "session-created" w)
                                (toString now));
             isValid := true |}, w).
Proof. unfold getCurrentSession. now intros ->. Qed.

Lemma getCurrentSession_absent now w :
  (∀ uid tok, provider w ≠ SignedIn uid tok) →
  fst (getCurrentSession now w) = None.
Proof.
  unfold getCurrentSession. intros Hp.
  destruct (provider w) as [| | |uid tok]; try reflexivity.
  now destruct (Hp uid tok).
Qed.

Lemma getCurrentSession_some now w session :
  fst (getCurrentSession now w) = Some session →
  ∃ uid tok, provider w = SignedIn uid tok
             ∧ snd (getCurrentSession now w) = w.
Proof.
  unfold getCurrentSession.
  destruct (provider w) as [| | |uid tok]; try discriminate; eauto.
Qed.

(** Reading the session changes at most the log. *)
Lemma getCurrentSession_world now w :
  jar (snd (getCurrentSession now w)) = jar w
  ∧ provider (snd (getCurrentSession now w)) = provider w.
Proof.
  unfold getCurrentSession. destruct (provider w) eqn:Hp; simpl; auto.
Qed.

(** *** Validation *)

Lemma validateSession_no_session now w :
  fst (getCurrentSession now w) = None →
  validateSession now w
  = ({| vIsValid := false; vReason := Some "No session found" |},
     snd (getCurrentSession now w)).
Proof.
  unfold validateSession. destruct (getCurrentSession now w) as [o w1].
  simpl. now intros ->.
Qed.

(** The verdict on an existing session, by the two expiry tests. *)
Lemma validateSession_verdict now w session :
  fst (getCurrentSession now w) = Some session →
  vIsValid (fst (validateSession now w))
  = negb (num_truthy (lastActivity session)
          && num_gt (num_rsub now (lastActivity session)) MAX_IDLE_TIME_MS)
    && negb (num_gt (num_rsub now (createdAt session))
                    (24 * 60 * 60 * 1000)).
Proof.
  unfold validateSession. destruct (getCurrentSession now w) as [o w1].
  simpl. intros ->.
  destruct (num_truthy (lastActivity session)
            && num_gt (num_rsub now (lastActivity session)) MAX_IDLE_TIME_MS);
    [reflexivity|].
  destruct (num_gt (num_rsub now (createdAt session)) (24 * 60 * 60 * 1000));
    reflexivity.
Qed.

(** Validation changes at most the log. *)
Lemma validateSession_world now w :
  jar (snd (validateSession now w)) = jar w
  ∧ provider (snd (validateSession now w)) = provider w.
Proof.
  unfold validateSession.
  pose proof (getCurrentSession_world now w) as Hw.
  destruct (getCurrentSession now w) as [[session|] w1]; simpl in *; auto.
  destruct (_ && _); simpl; auto.
  destruct (num_gt _ _); simpl; auto.
Qed.

Lemma validateSession_valid now w :
  vIsValid (fst (validateSession now w)) = true →
  snd (validateSession now w) = w
  ∧ ∃ uid tok, provider w = SignedIn uid tok.
Proof.
  unfold validateSession.
  destruct (getCurrentSession now w) as [[session|] w1] eqn:Hg;
    simpl; [|discriminate].
  destruct (getCurrentSession_some now w session) as (uid & tok & Hp & Hw).
  { now rewrite Hg. }
  rewrite Hg in Hw. simpl in Hw. subst w1.
  destruct (_ && _); simpl; [discriminate|].
  destruct (num_gt _ _); simpl; [discriminate|]. eauto.
Qed.

(** *** Termination *)

Lemma terminateSession_absent now later reason w :
  fst (getCurrentSession later (terminateSession now reason w)) = None.
Proof.
  apply getCurrentSession_absent. intros uid tok.
  unfold terminateSession.
  pose proof (getCurrentSession_world now w) as [_ Hp].
  destruct (getCurrentSession now w) as [session w1]. simpl in Hp.
  destruct (provider w1) eqn:Hp1; simpl.
  - rewrite Hp1. discriminate.
  - destruct session; unfold signOut; simpl; rewrite Hp1; simpl;
      rewrite Hp1; discriminate.
  - destruct session; unfold signOut; simpl; rewrite Hp1; simpl;
      rewrite Hp1; discriminate.
  - destruct session; unfold signOut; simpl; rewrite Hp1; simpl;
      discriminate.
Qed.

(** *** Refreshing the activity cookies *)

Lemma updateSessionActivity_provider now w :
  provider (updateSessionActivity now w) = provider w.
Proof.
  unfold updateSessionActivity. destruct (negb _); reflexivity.
Qed.

Lemma updateSessionActivity_last_activity now w :
  cookie_value "last-activity" (updateSessionActivity now w)
  = Some (toString now).
Proof.
  unfold updateSessionActivity. destruct (negb _).
  - rewrite cookie_value_set_ne by discriminate.
    apply cookie_value_set_eq.
  - apply cookie_value_set_eq.
Qed.

(** The instant written by [updateSessionActivity] is the one
    [getCurrentSession] reads back as [lastActivity]. *)
Lemma updateSessionActivity_read_back now later w uid tok :
  provider w = SignedIn uid tok →
  lastActivity <$> fst (getCurrentSession later (updateSessionActivity now w))
  = Some (Some now).
Proof.
  intros Hp.
  rewrite (getCurrentSession_signed_in later _ uid tok)
    by (now rewrite updateSessionActivity_provider).
  cbn [fst fmap option_fmap option_map lastActivity].
  rewrite updateSessionActivity_last_activity.
  destruct (toString_nonempty now) as (c & r & Hs).
  rewrite Hs. cbn [str_or]. rewrite <- Hs.
  now rewrite parseInt_toString.
Qed.

(** C8, amended in the two lifetimes and for an empty cookie.  Every call
    of [updateSessionActivity] writes the [last-activity] cookie with the
    current time and a lifetime of [SESSION_TIMEOUT_MS] (30 minutes, 1800
    seconds); it writes the [session-created] cookie, with the current time
    and a lifetime of [MAX_IDLE_TIME_MS] (1 hour, 3600 seconds), only when
    that cookie is absent or empty; a [session-created] cookie with a
    non-empty value is left as it is, and so is every other cookie. *)
Theorem updateSessionActivity_cookies now w :
  let w' := updateSessionActivity now w in
  jar w' !! "last-activity"
    = Some {| value := toString now; httpOnly := true;
              secure := production w; sameSite := SameSiteStrict;
              maxAge := 1800 |}
  ∧ (str_truthy (cookie_value "session-created" w) = true →
     jar w' !! "session-created" = jar w !! "session-created")
  ∧ (str_truthy (cookie_value "session-created" w) = false →
     jar w' !! "session-created"
       = Some {| value := toString now; httpOnly := true;
                 secure := production w; sameSite := SameSiteStrict;
                 maxAge := 3600 |})
  ∧ (∀ name, name ≠ "last-activity" → name ≠ "session-created" →
       jar w' !! name = jar w !! name)
  ∧ provider w' = provider w
  ∧ log w' = log w.
Proof.
  intros w'. subst w'. unfold updateSessionActivity.
  rewrite cookie_value_set_ne by discriminate.
  destruct (str_truthy (cookie_value "session-created" w)); simpl.
  - repeat split; try discriminate.
    + apply lookup_insert_eq.
    + intros _. now apply lookup_insert_ne.
    + intros name Hla _. now apply lookup_insert_ne.
  - repeat split; try discriminate.
    + rewrite lookup_insert_ne by discriminate. apply lookup_insert_eq.
    + intros _. apply lookup_insert_eq.
    + intros name Hla Hsc. now rewrite !lookup_insert_ne.
Qed.

(** C8 as stated gives the [last-activity] cookie a lifetime of one hour
    and the [session-created] cookie one of 24 hours; on the sample world
    the lifetimes written are 1800 and 3600 seconds. *)
Lemma updateSessionActivity_lifetimes_differ :
  ¬ (∀ now w,
       let w' := updateSessionActivity now w in
       maxAge <$> jar w' !! "last-activity" = Some (60 * 60)
       ∧ (jar w !! "session-created" = None →
          maxAge <$> jar w' !! "session-created" = Some (24 * 60 * 60))).
Proof.
  intros H. destruct (H 1730000000000 sample_world) as [Hla _].
  vm_compute in Hla. discriminate.
Qed.

(** *** The warning window *)

(** What the code computes: whenever [getSessionTimeoutInfo] answers,
    [shouldWarn] is true exactly when the time since the last activity is
    at least [SESSION_WARNING_MS] (5 minutes) and less than
    [SESSION_TIMEOUT_MS] (30 minutes). *)
Lemma shouldWarn_from_five_minutes now w info :
  fst (getSessionTimeoutInfo now w) = Some info →
  ∃ session la,
    fst (getCurrentSession now w) = Some session
    ∧ lastActivity session = Some la
    ∧ la ≠ 0
    ∧ (shouldWarn info = true ↔ 5 * 60 * 1000 <= now - la < 30 * 60 * 1000).
Proof.
  unfold getSessionTimeoutInfo.
  destruct (getCurrentSession now w) as [[session|] w1]; simpl;
    [|discriminate].
  destruct (lastActivity session) as [la|] eqn:Hla; [|discriminate].
  destruct (Z.eqb_spec la 0) as [|Hnz]; [discriminate|].
  intros [= <-]. exists session, la.
  split; [reflexivity|]. split; [exact Hla|]. split; [exact Hnz|].
  cbn [shouldWarn].
  rewrite andb_true_iff, Z.leb_le, Z.gtb_ltb, Z.ltb_lt.
  unfold SESSION_WARNING_MS, SESSION_TIMEOUT_MS. lia.
Qed.

(** *** Extending the session *)

(** C6.  [extendSession] first evaluates [validateSession].  On an invalid
    verdict it calls [terminateSession] with the verdict's reason and
    answers false, and from then on [getCurrentSession] reports no session.
    On a valid verdict it calls [updateSessionActivity] and answers true.
    In particular, on a session whose last activity lies
    [MAX_IDLE_TIME_MS + 1] ms in the past it answers false and leaves no
    current session. *)
Theorem extendSession_terminates_or_refreshes now w :
  let v := fst (validateSession now w) in
  let w1 := snd (validateSession now w) in
  (vIsValid v = false →
     extendSession now w
       = (false, terminateSession now (reason_or_default v) w1)
     ∧ ∀ later,
         fst (getCurrentSession later (snd (extendSession now w))) = None)
  ∧ (vIsValid v = true →
     fst (extendSession now w) = true
     ∧ ∃ uid,
         snd (extendSession now w)
         = record (LogAuthEvent "Session extended" uid)
                  (updateSessionActivity now w1))
  ∧ (∀ session,
       fst (getCurrentSession now w) = Some session →
       lastActivity session = Some (now - (MAX_IDLE_TIME_MS + 1)) →
       now - (MAX_IDLE_TIME_MS + 1) ≠ 0 →
       fst (extendSession now w) = false
       ∧ ∀ later,
           fst (getCurrentSession later (snd (extendSession now w))) = None).
Proof.
  intros v w1.
  assert (Hinvalid : vIsValid v = false →
            extendSession now w
              = (false, terminateSession now (reason_or_default v) w1)).
  { intros Hv. unfold extendSession. subst v w1.
    destruct (validateSession now w) as [v w1]. simpl in *.
    now rewrite Hv. }
  split; [|split].
  - intros Hv. split; [auto|].
    intros later. rewrite (Hinvalid Hv). apply terminateSession_absent.
  - intros Hv.
    destruct (validateSession_valid now w Hv) as (Hw & uid & tok & Hp).
    unfold extendSession. subst v w1.
    destruct (validateSession now w) as [v w1]. simpl in *. subst w1.
    rewrite Hv. simpl.
    rewrite (getCurrentSession_signed_in now _ uid tok)
      by (now rewrite updateSessionActivity_provider).
    split; [reflexivity | eauto].
  - intros session Hs Hla Hnz.
    assert (Hv : vIsValid v = false).
    { subst v. rewrite (validateSession_verdict now w session Hs), Hla.
      simpl. destruct (Z.eqb_spec (now - (MAX_IDLE_TIME_MS + 1)) 0);
        [contradiction|]. simpl.
      destruct (Z.gtb_spec (now - (now - (MAX_IDLE_TIME_MS + 1)))
                           MAX_IDLE_TIME_MS); [reflexivity | lia]. }
    rewrite (Hinvalid Hv). split; [reflexivity|].
    intros later. apply terminateSession_absent.
Qed.

(** *** Failing closed, and where the guardian does not *)

Variable hmac_sha256 : string → string → string.

(** C3, amended for the activity cookies.  Provider failure and a missing
    provider session make [validateSession] answer invalid, and a missing
    cookie, a missing or malformed candidate or an exception make
    [validateCSRFToken] answer false.  A missing [last-activity] cookie
    beside an existing provider session does not: the idle test is
    skipped, and the verdict is valid unless the [session-created] cookie
    shows an age above 24 hours; with that cookie missing too, the verdict
    is valid. *)
Theorem denial_except_missing_activity_cookie now w token :
  (provider w = Unreachable ∨ provider w = Failing
   ∨ provider w = SignedOut →
   vIsValid (fst (validateSession now w)) = false)
  ∧ (∀ uid tok,
       provider w = SignedIn uid tok →
       cookie_value "last-activity" w = None →
       vIsValid (fst (validateSession now w))
       = negb (num_gt
                 (num_rsub now
                    (parseInt (str_or (cookie_value "session-created" w)
                                      (toString now))))
                 (24 * 60 * 60 * 1000)))
  ∧ (∀ uid tok,
       provider w = SignedIn uid tok →
       cookie_value "last-activity" w = None →
       cookie_value "session-created" w = None →
       vIsValid (fst (validateSession now w)) = true)
  ∧ (str_truthy token = false
     ∨ str_truthy (cookie_value Csrf.CSRF_TOKEN_NAME w) = false
     ∨ str_truthy (cookie_value Csrf.CSRF_SECRET_NAME w) = false →
     Csrf.validateCSRFToken hmac_sha256 token w = false)
  ∧ (∀ s, token = Some s → includes_dot s = false →
       Csrf.validateCSRFToken hmac_sha256 token w = false)
  ∧ (∀ name,
       Csrf.validateCSRFToken_try hmac_sha256 token w = Throw name →
       Csrf.validateCSRFToken hmac_sha256 token w = false).
Proof.
  assert (Hmissing : ∀ uid tok,
            provider w = SignedIn uid tok →
            cookie_value "last-activity" w = None →
            vIsValid (fst (validateSession now w))
            = negb (num_gt
                      (num_rsub now
                         (parseInt (str_or (cookie_value "session-created" w)
                                           (toString now))))
                      (24 * 60 * 60 * 1000))).
  { intros uid tok Hp Hla.
    pose proof (getCurrentSession_signed_in now w uid tok Hp) as Hg.
    rewrite (validateSession_verdict now w _ (f_equal fst Hg)).
    cbn [lastActivity createdAt]. rewrite Hla. reflexivity. }
  repeat split.
  - intros Hp. rewrite validateSession_no_session; [reflexivity|].
    apply getCurrentSession_absent. intros uid tok.
    destruct Hp as [-> | [-> | ->]]; discriminate.
  - exact Hmissing.
  - intros uid tok Hp Hla Hsc. rewrite (Hmissing uid tok Hp Hla), Hsc.
    cbn [str_or]. rewrite parseInt_toString. cbn [num_rsub num_gt].
    destruct (Z.gtb_spec (now - now) (24 * 60 * 60 * 1000));
      [lia | reflexivity].
  - apply validateCSRFToken_missing.
  - intros s -> Hdot. now apply validateCSRFToken_no_separator.
  - intros name. apply validateCSRFToken_throw.
Qed.

End SessionFacts.

(** C3 as stated: with a provider session and no [last-activity] cookie the
    verdict would be invalid.  On [signed_in_world], which has no cookies,
    the verdict is valid. *)
Lemma missing_activity_cookie_is_valid :
  ¬ (∀ now w uid tok,
       Web.provider w = Web.SignedIn uid tok →
       Web.cookie_value "last-activity" w = None →
       Session.vIsValid (fst (Session.validateSession now w)) = false).
Proof.
  intros H.
  specialize (H 1730000000000 Session.signed_in_world _ _ eq_refl eq_refl).
  vm_compute in H. discriminate.
Qed.

(** The amended C3 on [signed_in_world]: no activity cookies, verdict
    valid; and a candidate without separator is rejected. *)
Lemma denial_except_missing_activity_cookie_witness :
  Session.vIsValid
    (fst (Session.validateSession 1730000000000 Session.signed_in_world))
  = true
  ∧ Csrf.validateCSRFToken Csrf.sample_hmac (Some "0123abcd")
      Session.signed_in_world = false.
Proof.
  destruct (denial_except_missing_activity_cookie Csrf.sample_hmac
              1730000000000 Session.signed_in_world (Some "0123abcd"))
    as (_ & _ & Hvalid & _ & Hsep & _).
  split.
  - apply (Hvalid "user-1" "eyJhbGciOiJIUzI1NiIsInR5cCI6IkpXVCJ9.e30.c2ln");
      reflexivity.
  - apply (Hsep "0123abcd"); reflexivity.
Defined.

(** C6 on a session idle for one hour and one millisecond. *)
Lemma extendSession_terminates_or_refreshes_witness :
  let now := 1730003600001 in
  let w := Session.active_world 1730000000000 in
  fst (Session.extendSession now w) = false
  ∧ ∀ later,
      fst (Session.getCurrentSession later
             (snd (Session.extendSession now w))) = None.
Proof.
  intros now w.
  destruct (extendSession_terminates_or_refreshes now w) as (_ & _ & Hidle).
  apply (Hidle
           {| Session.userId := "user-1";
              Session.sessionId := "eyJhbGciOiJIUzI1";
              Session.lastActivity := Some 1730000000000;
              Session.createdAt := Some 1730003600001;
              Session.isValid := true |}).
  - vm_compute. reflexivity.
  - reflexivity.
  - vm_compute. discriminate.
Defined.

(** C7 fails on the code.  The claim puts the warning in the last five
    minutes before the 30-minute timeout, as does the comment on
    [SESSION_WARNING_MS].  Ten minutes after the last activity, twenty
    minutes before the timeout and so outside that interval,
    [getSessionTimeoutInfo] already answers [shouldWarn = true]. *)
Theorem shouldWarn_ten_minutes_after_activity :
  let la := 1730000000000 in
  let now := la + 10 * 60 * 1000 in
  fst (Session.getSessionTimeoutInfo now (Session.active_world la))
  = Some {| Session.timeUntilWarning := - (5 * 60 * 1000);
            Session.timeUntilTimeout := 20 * 60 * 1000;
            Session.shouldWarn := true;
            Session.shouldTimeout := false |}
  ∧ ¬ (Session.SESSION_TIMEOUT_MS - Session.SESSION_WARNING_MS < now - la).
Proof.
  split.
  - vm_compute. reflexivity.
  - vm_compute. discriminate.
Qed.

(** The amended C8 on [signed_in_world]: both cookies are written, with
    lifetimes of 1800 and 3600 seconds. *)
Lemma updateSessionActivity_cookies_witness :
  let w' := Session.updateSessionActivity 1730000000000
              Session.signed_in_world in
  Web.maxAge <$> Web.jar w' !! "last-activity" = Some 1800
  ∧ Web.maxAge <$> Web.jar w' !! "session-created" = Some 3600
  ∧ Web.cookie_value "session-created" w' = Some "1730000000000".
Proof.
  intros w'.
  destruct (updateSessionActivity_cookies 1730000000000
              Session.signed_in_world) as (Hla & _ & Hsc & _).
  fold w' in Hla, Hsc. unfold Web.cookie_value.
  rewrite Hla, (Hsc eq_refl). repeat split.
Defined.

(* ====================================================================== *)
(** * Part III.  Further properties of the code                           *)
(* ====================================================================== *)

(** ** Rate limiter: the other operations *)

Section RateLimitMore.

Import RateLimit RateLimitCalls.

(** X1.  A recorded success forgets the identifier: whatever the entry
    was, afterwards the identifier is not rate limited, all attempts remain
    and the reset time is zero, at every clock reading, and the queries
    leave the limiter as it is. *)
Theorem success_forgets_identifier rl id now :
  let rl' := recordSuccessfulAttempt id rl in
  attempts rl' !! id = None
  ∧ isRateLimited now id rl' = (false, rl')
  ∧ getRemainingAttempts now id rl' = maxAttempts rl
  ∧ getResetTime now id rl' = 0.
Proof.
  intros rl'.
  assert (Hnone : attempts rl' !! id = None) by apply lookup_delete_eq.
  unfold isRateLimited, getRemainingAttempts, getResetTime.
  rewrite Hnone. repeat split.
Qed.

(** The answers about an identifier depend on its entry and on the
    configuration only. *)
Lemma answers_by_entry rl rl' id now :
  attempts rl' !! id = attempts rl !! id →
  maxAttempts rl' = maxAttempts rl →
  fst (isRateLimited now id rl') = fst (isRateLimited now id rl)
  ∧ getRemainingAttempts now id rl' = getRemainingAttempts now id rl
  ∧ getResetTime now id rl' = getResetTime now id rl.
Proof.
  intros He Hm.
  unfold isRateLimited, getRemainingAttempts, getResetTime.
  rewrite He, Hm. destruct (attempts rl !! id) as [e|]; [|auto].
  repeat split.
  destruct (blocked e); simpl; destruct (now >? resetTime e); reflexivity.
Qed.

Lemma step_other_identifier rl c id :
  call_identifier c ≠ id →
  attempts (step rl c) !! id = attempts rl !! id.
Proof.
  intros Hne.
  destruct c as [now i|now i|i|now i|now i]; simpl in *; auto.
  - unfold isRateLimited.
    destruct (attempts rl !! i) as [e|]; simpl; auto.
    destruct (blocked e); simpl; destruct (now >? resetTime e); simpl;
      auto; now apply lookup_delete_ne.
  - unfold recordFailedAttempt.
    destruct (attempts rl !! i) as [e|]; simpl.
    + destruct (now >? resetTime e); simpl; now apply lookup_insert_ne.
    + now apply lookup_insert_ne.
  - now apply lookup_delete_ne.
Qed.

(** X2.  Identifiers are independent: a history of calls none of which
    names [id] leaves the entry of [id] as it was, and with it every
    answer about [id]. *)
Theorem other_identifiers_do_not_interfere calls : ∀ rl id now,
  Forall (λ c, call_identifier c ≠ id) calls →
  attempts (run rl calls) !! id = attempts rl !! id
  ∧ fst (isRateLimited now id (run rl calls)) = fst (isRateLimited now id rl)
  ∧ getRemainingAttempts now id (run rl calls)
    = getRemainingAttempts now id rl
  ∧ getResetTime now id (run rl calls) = getResetTime now id rl.
Proof.
  intros rl id now Hall.
  assert (He : attempts (run rl calls) !! id = attempts rl !! id).
  { revert rl. induction Hall as [|c calls Hc _ IH]; intros rl; simpl; auto.
    rewrite IH. now apply step_other_identifier. }
  split; [exact He|].
  apply answers_by_entry; [exact He|]. apply run_config.
Qed.

(** X2 after the scenario of C2 for [x]: calls about [y] and [z] change
    nothing for [x]. *)
Lemma other_identifiers_do_not_interfere_witness :
  let rl := recordFailures "x" [0; 100; 200] (create 3 1000 2000) in
  let calls := [CRecordFailedAttempt 300 "y"; CRecordSuccessfulAttempt "z";
                CIsRateLimited 400 "y"; CRecordFailedAttempt 2500 "y"] in
  attempts (run rl calls) !! "x" = attempts rl !! "x"
  ∧ fst (isRateLimited 500 "x" (run rl calls))
    = fst (isRateLimited 500 "x" rl)
  ∧ getRemainingAttempts 500 "x" (run rl calls)
    = getRemainingAttempts 500 "x" rl
  ∧ getResetTime 500 "x" (run rl calls) = getResetTime 500 "x" rl.
Proof.
  intros rl calls.
  apply (other_identifiers_do_not_interfere calls rl "x" 500).
  repeat (apply Forall_cons_2; [simpl; discriminate|]).
  apply Forall_nil_2.
Defined.

(** X3.  In every reachable state of a limiter with [maxAttempts >= 1],
    an identifier is rate limited exactly when no attempts remain, and the
    remaining attempts lie between 0 and [maxAttempts]. *)
Theorem limited_iff_no_attempts_remain rl id now :
  reachable rl →
  1 <= maxAttempts rl →
  (fst (isRateLimited now id rl) = true
   ↔ getRemainingAttempts now id rl = 0)
  ∧ 0 <= getRemainingAttempts now id rl <= maxAttempts rl.
Proof.
  intros Hreach Hmax.
  unfold isRateLimited, getRemainingAttempts.
  destruct (attempts rl !! id) as [e|] eqn:He; simpl.
  - destruct (reachable_ok rl id e Hreach He) as [Hc Hb].
    destruct (blocked e) eqn:Hbl; simpl.
    + specialize (Hb eq_refl).
      destruct (Z.gtb_spec now (resetTime e)); simpl.
      * split; [split; [discriminate | lia] | lia].
      * split; [split; [lia | reflexivity] | lia].
    + destruct (Z.gtb_spec now (resetTime e)); simpl.
      * split; [split; [discriminate | lia] | lia].
      * destruct (Z.geb_spec (count e) (maxAttempts rl)).
        -- split; [split; [lia | reflexivity] | lia].
        -- split; [split; [discriminate | lia] | lia].
  - split; [split; [discriminate | lia] | lia].
Qed.

(** X3 after the scenario of C2, during the block. *)
Lemma limited_iff_no_attempts_remain_witness :
  let rl := recordFailures "x" [0; 100; 200] (create 3 1000 2000) in
  (fst (isRateLimited 500 "x" rl) = true
   ↔ getRemainingAttempts 500 "x" rl = 0)
  ∧ 0 <= getRemainingAttempts 500 "x" rl <= maxAttempts rl.
Proof.
  intros rl.
  apply (limited_iff_no_attempts_remain rl "x" 500).
  - exists [CRecordFailedAttempt 0 "x"; CRecordFailedAttempt 100 "x";
            CRecordFailedAttempt 200 "x"].
    vm_compute. reflexivity.
  - vm_compute. discriminate.
Defined.

(** X4.  Inside one window the attempts count down: after [k] failures,
    the first of which opens the window and the others fall inside it,
    with [k < maxAttempts], the identifier is still admitted and
    [maxAttempts - k] attempts remain until the window expires. *)
Theorem attempts_count_down rl id t1 ts now :
  opens_window t1 id rl →
  Forall (λ t, t <= t1 + windowMs rl) ts →
  Z.of_nat (length (t1 :: ts)) < maxAttempts rl →
  now <= t1 + windowMs rl →
  let rl' := recordFailures id (t1 :: ts) rl in
  fst (isRateLimited now id rl') = false
  ∧ getRemainingAttempts now id rl'
    = maxAttempts rl - Z.of_nat (length (t1 :: ts)).
Proof.
  intros Hopen Hall Hlen Hnow rl'.
  destruct (recordFailedAttempt_config t1 id rl) as (Hm & _ & _).
  pose proof (lookup_recordFailedAttempt_new t1 id rl Hopen) as Hfirst.
  destruct (recordFailures_counting id ts _ _ Hfirst eq_refl)
    as (Hl & Hm' & _).
  { simpl. rewrite Hm. simpl length in Hlen. lia. }
  { exact Hall. }
  change (recordFailures id ts (recordFailedAttempt t1 id rl)) with rl'
    in Hl, Hm'.
  unfold isRateLimited, getRemainingAttempts. rewrite Hl, Hm', Hm.
  cbn [blocked resetTime count fresh andb].
  destruct (Z.gtb_spec now (t1 + windowMs rl)); [lia|].
  destruct (Z.geb_spec (1 + Z.of_nat (length ts)) (maxAttempts rl));
    simpl length in *; [lia|].
  split; [reflexivity | lia].
Qed.

(** X4 on a new limiter of five attempts: after three failures two
    attempts remain. *)
Lemma attempts_count_down_witness :
  let rl' := recordFailures "x" [0; 100; 200] (create 5 1000 2000) in
  fst (isRateLimited 900 "x" rl') = false
  ∧ getRemainingAttempts 900 "x" rl'
    = 5 - Z.of_nat (length [0; 100; 200]).
Proof.
  apply (attempts_count_down (create 5 1000 2000) "x" 0 [100; 200] 900).
  - exact I.
  - repeat (apply Forall_cons_2; [simpl; lia|]). apply Forall_nil_2.
  - simpl. lia.
  - simpl. lia.
Defined.

(** X5.  [getResetTime] is the time to the entry's expiry in whole
    seconds, rounded up: it is never negative, it is zero once the expiry
    has been reached, and before that the expiry lies within the last of
    the seconds it counts. *)
Theorem getResetTime_rounds_up rl id now e :
  attempts rl !! id = Some e →
  let r := getResetTime now id rl in
  0 <= r
  ∧ (resetTime e <= now → r = 0)
  ∧ (now < resetTime e →
     1000 * (r - 1) < resetTime e - now <= 1000 * r).
Proof.
  intros He r. subst r. unfold getResetTime, ceil_div_1000. rewrite He.
  set (d := resetTime e - now).
  pose proof (Z.div_mod (- d) 1000 ltac:(lia)) as Hdm.
  pose proof (Z.mod_pos_bound (- d) 1000 ltac:(lia)) as Hmod.
  repeat split; try lia.
Qed.

(** X5 a quarter of a second into a window of one second: one second is
    reported. *)
Lemma getResetTime_rounds_up_witness :
  let r := getResetTime 250 "x"
             (recordFailures "x" [0] (create 3 1000 2000)) in
  0 <= r
  ∧ (1000 <= 250 → r = 0)
  ∧ (250 < 1000 → 1000 * (r - 1) < 1000 - 250 <= 1000 * r).
Proof.
  apply (getResetTime_rounds_up
           (recordFailures "x" [0] (create 3 1000 2000)) "x" 250
           {| count := 1; resetTime := 1000; blocked := false |}).
  vm_compute. reflexivity.
Defined.

(** X6.  An entry whose [resetTime] has passed counts for nothing, blocked
    or not: the query answers false and deletes it, all attempts remain,
    and the next failure starts a new window with a count of one. *)
Theorem expired_entry_is_forgotten rl id now e :
  attempts rl !! id = Some e →
  resetTime e < now →
  isRateLimited now id rl
    = (false, set_attempts rl (delete id (attempts rl)))
  ∧ getRemainingAttempts now id rl = maxAttempts rl
  ∧ attempts (recordFailedAttempt now id rl) !! id
    = Some {| count := 1; resetTime := now + windowMs rl;
              blocked := false |}.
Proof.
  intros He Hexp.
  unfold isRateLimited, getRemainingAttempts, recordFailedAttempt.
  rewrite He. destruct (Z.gtb_spec now (resetTime e)); [|lia].
  repeat split.
  - destruct (blocked e); reflexivity.
  - simpl. apply lookup_insert_eq.
Qed.

(** X6 after the scenario of C2, one millisecond after the block ends. *)
Lemma expired_entry_is_forgotten_witness :
  let rl := recordFailures "x" [0; 100; 200] (create 3 1000 2000) in
  isRateLimited 2201 "x" rl
    = (false, set_attempts rl (delete "x" (attempts rl)))
  ∧ getRemainingAttempts 2201 "x" rl = maxAttempts rl
  ∧ attempts (recordFailedAttempt 2201 "x" rl) !! "x"
    = Some {| count := 1; resetTime := 2201 + windowMs rl;
              blocked := false |}.
Proof.
  intros rl.
  apply (expired_entry_is_forgotten rl "x" 2201
           {| count := 3; resetTime := 2200; blocked := true |}).
  - vm_compute. reflexivity.
  - simpl. lia.
Defined.

End RateLimitMore.

(** ** Strings *)

Section StrFacts.

Import Js Str.

Lemma append_cons c (a b : string) :
  (String c a ++ b)%string = String c (a ++ b).
Proof. reflexivity. Qed.

Lemma startsWith_app s r : startsWith (s ++ r) s = true.
Proof.
  induction s as [|c s IH]; [reflexivity|].
  rewrite append_cons. simpl. now rewrite Ascii.eqb_refl, IH.
Qed.

Lemma every_char_app p a b :
  every_char p (a ++ b) = every_char p a && every_char p b.
Proof.
  induction a as [|c a IH]; [reflexivity|].
  rewrite append_cons. simpl. rewrite IH. apply andb_assoc.
Qed.

(** *** Splitting *)

Lemma split_on_head sep s :
  every_char (λ c, negb (Ascii.eqb c sep))
             (List.hd EmptyString (split_on sep s)) = true.
Proof.
  induction s as [|c s IH]; simpl; [reflexivity|].
  destruct (Ascii.eqb c sep) eqn:Hc; simpl; [reflexivity|].
  destruct (split_on sep s) as [|h t]; simpl in *; rewrite Hc; auto.
Qed.

Lemma split_on_starts_with_sep sep s :
  List.hd EmptyString (split_on sep (String sep s)) = EmptyString.
Proof. simpl. now rewrite Ascii.eqb_refl. Qed.

(** *** Trimming *)

Lemma every_char_trimStart p s :
  every_char p s = true → every_char p (trimStart s) = true.
Proof.
  induction s as [|c s IH]; simpl; [auto|].
  intros H. destruct (is_white_space c); [|exact H].
  apply andb_true_iff in H as [_ H]. auto.
Qed.

Lemma every_char_trimEnd p s :
  every_char p s = true → every_char p (trimEnd s) = true.
Proof.
  induction s as [|c s IH]; simpl; [auto|].
  intros H. apply andb_true_iff in H as [Hc H]. specialize (IH H).
  destruct (trimEnd s) as [|c' r'].
  - destruct (is_white_space c); simpl; [reflexivity | now rewrite Hc].
  - simpl in *. now rewrite Hc, IH.
Qed.

Lemma every_char_trim p s :
  every_char p s = true → every_char p (trim s) = true.
Proof.
  intros H. apply every_char_trimEnd. now apply every_char_trimStart.
Qed.

Lemma trimStart_clean s : starts_clean (trimStart s).
Proof.
  induction s as [|c s IH]; simpl; [exact I|].
  destruct (is_white_space c) eqn:Hc; [exact IH | exact Hc].
Qed.

Lemma trimStart_fixed s : starts_clean s → trimStart s = s.
Proof. destruct s as [|c s]; simpl; [auto|]. now intros ->. Qed.

Lemma trimEnd_clean s : starts_clean s → starts_clean (trimEnd s).
Proof.
  destruct s as [|c s]; simpl; [auto|]. intros Hc.
  destruct (trimEnd s); simpl; [now rewrite Hc | exact Hc].
Qed.

Lemma trimEnd_idempotent s : trimEnd (trimEnd s) = trimEnd s.
Proof.
  induction s as [|c s IH]; simpl; [reflexivity|].
  destruct (trimEnd s) as [|c' r'] eqn:Hr.
  - destruct (is_white_space c) eqn:Hc; simpl; [reflexivity|].
    now rewrite Hc.
  - cbn [trimEnd] in IH |- *. fold (trimEnd (String c' r')).
    change (trimEnd (String c (String c' r')))
      with (match trimEnd (String c' r') with
            | EmptyString =>
                if is_white_space c then EmptyString
                else String c EmptyString
            | String c'' r'' => String c (String c'' r'')
            end).
    now rewrite IH.
Qed.

Lemma trim_idempotent s : trim (trim s) = trim s.
Proof.
  unfold trim.
  rewrite (trimStart_fixed (trimEnd (trimStart s)))
    by apply trimEnd_clean, trimStart_clean.
  apply trimEnd_idempotent.
Qed.

End StrFacts.

(** ** Client address *)

Section ClientIPFacts.

Import Js Str.

(** X7.  When the [x-forwarded-for] header is present and not empty,
    [getClientIP] answers its first comma-separated entry, trimmed: the
    answer has no comma and no white space at either end, the other two
    headers are not consulted, and a header value that begins with a comma
    gives the empty identifier, not ['unknown']. *)
Theorem getClientIP_first_forwarded_entry headers forwarded :
  headers !! "x-forwarded-for" = Some forwarded →
  forwarded ≠ EmptyString →
  let ip := ClientIP.getClientIP headers in
  ip = trim (List.hd EmptyString (split_on "," forwarded))
  ∧ every_char (λ c, negb (Ascii.eqb c ",")) ip = true
  ∧ trim ip = ip
  ∧ (startsWith forwarded "," = true → ip = EmptyString).
Proof.
  intros Hf Hne ip.
  assert (Hip : ip = trim (List.hd EmptyString (split_on "," forwarded))).
  { subst ip. unfold ClientIP.getClientIP. rewrite Hf.
    destruct forwarded; [contradiction | reflexivity]. }
  split; [exact Hip|]. rewrite Hip. split; [|split].
  - apply every_char_trim, split_on_head.
  - apply trim_idempotent.
  - intros Hs. destruct forwarded as [|c r]; [contradiction|].
    cbn [startsWith] in Hs. apply andb_true_iff in Hs as [Hc _].
    apply Ascii.eqb_eq in Hc. subst c.
    now rewrite split_on_starts_with_sep.
Qed.

(** X7 on a proxy chain whose first entry stands between a no-break space
    and a space. *)
Lemma getClientIP_first_forwarded_entry_witness :
  ClientIP.getClientIP
    (<["x-forwarded-for" := String "160" "203.0.113.7 , 70.41.3.18"]>
       (<["x-real-ip" := "10.0.0.1"]> ∅))
  = "203.0.113.7".
Proof.
  destruct (getClientIP_first_forwarded_entry
              (<["x-forwarded-for" := String "160" "203.0.113.7 , 70.41.3.18"]>
                 (<["x-real-ip" := "10.0.0.1"]> ∅))
              (String "160" "203.0.113.7 , 70.41.3.18")) as (Hip & _).
  - vm_compute. reflexivity.
  - discriminate.
  - rewrite Hip. vm_compute. reflexivity.
Defined.

(** X8.  The [getClientIP] of the authentication actions and the one of
    the rate-limit module agree on every request in which
    [x-forwarded-for] or [x-real-ip] is set or [cf-connecting-ip] is not;
    on a request that carries [cf-connecting-ip] alone the actions key the
    limiter by ['unknown']. *)
Theorem getClientIP_variants headers :
  (str_truthy (headers !! "x-forwarded-for") = true
   ∨ str_truthy (headers !! "x-real-ip") = true
   ∨ str_truthy (headers !! "cf-connecting-ip") = false →
   AuthActions.getClientIP headers = ClientIP.getClientIP headers)
  ∧ (str_truthy (headers !! "x-forwarded-for") = false →
     str_truthy (headers !! "x-real-ip") = false →
     AuthActions.getClientIP headers = "unknown"
     ∧ (str_truthy (headers !! "cf-connecting-ip") = true →
        Some (ClientIP.getClientIP headers)
        = headers !! "cf-connecting-ip")).
Proof.
  unfold AuthActions.getClientIP, ClientIP.getClientIP.
  destruct (headers !! "x-forwarded-for") as [[|c0 s0]|];
    destruct (headers !! "x-real-ip") as [[|c1 s1]|];
    destruct (headers !! "cf-connecting-ip") as [[|c2 s2]|];
    simpl; repeat split; try reflexivity; try discriminate;
    intros; try reflexivity;
    repeat match goal with
           | H : _ ∨ _ |- _ => destruct H
           end; discriminate.
Qed.

(** X8 on a request that carries [cf-connecting-ip] alone. *)
Lemma getClientIP_variants_witness :
  AuthActions.getClientIP (<["cf-connecting-ip" := "198.51.100.4"]> ∅)
  = "unknown"
  ∧ ClientIP.getClientIP (<["cf-connecting-ip" := "198.51.100.4"]> ∅)
    = "198.51.100.4".
Proof.
  destruct (getClientIP_variants (<["cf-connecting-ip" := "198.51.100.4"]> ∅))
    as [_ Hcf].
  destruct (Hcf eq_refl eq_refl) as [Hunknown Hother].
  split; [exact Hunknown|].
  specialize (Hother eq_refl). vm_compute in Hother |- *. congruence.
Defined.

End ClientIPFacts.

(** ** CSRF token service: the other operations *)

Section CsrfMore.

Import Web Js Csrf CsrfForm.

Variable hmac_sha256 : string → string → string.

Lemma length_append (a b : string) :
  String.length (a ++ b) = (String.length a + String.length b)%nat.
Proof.
  induction a as [|c a IH]; [reflexivity|].
  change (String c a ++ b)%string with (String c (a ++ b)).
  simpl. now rewrite IH.
Qed.

Lemma length_to_hex bytes :
  String.length (to_hex bytes) = (2 * String.length bytes)%nat.
Proof.
  induction bytes as [|c r IH]; [reflexivity|].
  cbn [to_hex]. rewrite length_append, IH. simpl. lia.
Qed.

Lemma generateToken_length w :
  String.length (fst (generateToken w)) = 64%nat.
Proof.
  unfold generateToken, randomBytes, TOKEN_LENGTH. cbn [fst].
  rewrite length_to_hex.
  assert (H : ∀ l, String.length (string_of_list_ascii l) = length l).
  { induction l as [|c l IH]; simpl; [reflexivity | now rewrite IH]. }
  now rewrite H, length_map, length_seq.
Qed.

(** X9.  After [clearCSRFTokens] no candidate validates and
    [getCSRFToken] answers [null]; the other cookies are untouched. *)
Theorem clearCSRFTokens_invalidates w token :
  validateCSRFToken hmac_sha256 token (clearCSRFTokens w) = false
  ∧ getCSRFToken (clearCSRFTokens w) = None
  ∧ cookie_value CSRF_TOKEN_NAME (clearCSRFTokens w) = None
  ∧ cookie_value CSRF_SECRET_NAME (clearCSRFTokens w) = None
  ∧ (∀ name, name ≠ CSRF_TOKEN_NAME → name ≠ CSRF_SECRET_NAME →
       jar (clearCSRFTokens w) !! name = jar w !! name).
Proof.
  assert (Htok : cookie_value CSRF_TOKEN_NAME (clearCSRFTokens w) = None).
  { unfold clearCSRFTokens.
    rewrite cookie_value_delete_ne by discriminate.
    apply cookie_value_delete_eq. }
  assert (Hsec : cookie_value CSRF_SECRET_NAME (clearCSRFTokens w) = None).
  { unfold clearCSRFTokens. apply cookie_value_delete_eq. }
  split; [|split; [|split; [|split]]]; auto.
  - apply validateCSRFToken_missing. right. left. now rewrite Htok.
  - unfold getCSRFToken. now rewrite Htok.
  - intros name Ht Hs. unfold clearCSRFTokens, cookie_delete. simpl.
    rewrite !lookup_delete_ne by congruence. reflexivity.
Qed.

(** X10.  An accepted candidate is signed: when [validateCSRFToken]
    answers true, the candidate is the stored token, it splits at its first
    two ['.'] into a nonce and a signature, and the signature decodes to
    the HMAC of the nonce under the stored secret.  Equality with the
    cookie alone is not enough. *)
Theorem accepted_token_is_signed token w :
  validateCSRFToken hmac_sha256 token w = true →
  ∃ stored secret tokenPart signature,
    token = Some stored
    ∧ cookie_value CSRF_TOKEN_NAME w = Some stored
    ∧ cookie_value CSRF_SECRET_NAME w = Some secret
    ∧ split_dot stored !! 0%nat = Some tokenPart
    ∧ split_dot stored !! 1%nat = Some signature
    ∧ from_hex signature = hmac_sha256 secret tokenPart.
Proof.
  unfold validateCSRFToken, validateCSRFToken_try.
  destruct (cookie_value CSRF_TOKEN_NAME w) as [[|c0 s0]|];
    try discriminate;
    destruct (cookie_value CSRF_SECRET_NAME w) as [[|c1 s1]|];
    try discriminate;
    destruct token as [[|c2 s2]|]; try discriminate.
  destruct (String.eqb_spec (String c2 s2) (String c0 s0)) as [->|];
    simpl negb; cbv iota; [|discriminate].
  destruct (split_dot (String c0 s0) !! 0%nat) as [[|c3 s3]|] eqn:H0;
    try discriminate.
  destruct (split_dot (String c0 s0) !! 1%nat) as [[|c4 s4]|] eqn:H1;
    try discriminate.
  rewrite from_hex_to_hex. unfold timingSafeEqual.
  destruct (Nat.eqb _ _); [|discriminate].
  destruct (String.eqb_spec (from_hex (String c4 s4))
              (hmac_sha256 (String c1 s1) (String c3 s3))) as [Heq|];
    [|discriminate].
  intros _. exists (String c0 s0), (String c1 s1), (String c3 s3),
    (String c4 s4). repeat split; auto.
Qed.

(** X11.  The issued token is the one [getCSRFToken] hands to the page,
    and a submitted form validates when its first [csrf-token] field
    carries it; a form without that field is rejected. *)
Theorem issued_token_round_trip w formData :
  (∀ key data, String.length (hmac_sha256 key data) = 32%nat) →
  let T := fst (generateCSRFToken hmac_sha256 w) in
  let w' := snd (generateCSRFToken hmac_sha256 w) in
  getCSRFToken w' = Some T
  ∧ validateCSRFFromFormData hmac_sha256
      (("csrf-token", T) :: formData) w' = true
  ∧ (form_get "csrf-token" formData = None →
     validateCSRFFromFormData hmac_sha256 formData w' = false).
Proof.
  intros Hlen T w'.
  destruct (generateCSRFToken_spec hmac_sha256 w)
    as (secret & nonce & HT & _ & (c & r & Hn) & Htok & _).
  fold T w' in HT, Htok.
  split; [|split].
  - unfold getCSRFToken. rewrite Htok.
    destruct (to_hex_nonempty c r) as (c' & s' & Hne).
    rewrite HT, Hn, Hne. reflexivity.
  - unfold validateCSRFFromFormData. cbn [form_get].
    rewrite String.eqb_refl. apply validate_issued. exact Hlen.
  - intros Hnone. unfold validateCSRFFromFormData. rewrite Hnone.
    apply validateCSRFToken_missing. now left.
Qed.

(** X12.  Shape of an issued token: 64 hexadecimal characters of nonce, a
    ['.'], 64 of signature; 129 characters in all, and it splits at the
    ['.'] into exactly these two parts. *)
Theorem issued_token_shape w :
  (∀ key data, String.length (hmac_sha256 key data) = 32%nat) →
  let T := fst (generateCSRFToken hmac_sha256 w) in
  ∃ nonce signature,
    T = (nonce ++ "." ++ signature)%string
    ∧ split_dot T = [nonce; signature]
    ∧ String.length nonce = 64%nat
    ∧ String.length signature = 64%nat
    ∧ String.length T = 129%nat.
Proof.
  intros Hlen T.
  destruct (generateCSRFToken_nonce hmac_sha256 w) as (sig & HT).
  fold T in HT.
  destruct (generateCSRFToken_spec hmac_sha256 w)
    as (secret & nonce & HT' & _ & (c & r & Hn) & _).
  fold T in HT'.
  assert (Hnodot : includes_dot nonce = false)
    by (rewrite Hn; apply to_hex_no_dot).
  assert (Hnonce : nonce = fst (generateToken (snd (ensure_secret w)))).
  { pose proof (f_equal split_dot HT) as Hs. rewrite HT' in Hs.
    rewrite split_dot_app in Hs by exact Hnodot.
    destruct (generateToken_spec (snd (ensure_secret w)))
      as ((c1 & r1 & Hn1) & _).
    rewrite split_dot_app in Hs by (rewrite Hn1; apply to_hex_no_dot).
    congruence. }
  exists nonce, (to_hex (hmac_sha256 secret nonce)).
  assert (Hl1 : String.length nonce = 64%nat)
    by (rewrite Hnonce; apply generateToken_length).
  assert (Hl2 : String.length (to_hex (hmac_sha256 secret nonce)) = 64%nat)
    by (rewrite length_to_hex, Hlen; reflexivity).
  repeat split; auto.
  - rewrite HT', split_dot_app by exact Hnodot.
    now rewrite split_dot_no_dot by apply to_hex_no_dot.
  - rewrite HT', !length_append, Hl1, Hl2. reflexivity.
Qed.

(** X13.  Cookies written by [generateCSRFToken]: the token cookie always,
    with a lifetime of one hour; the secret cookie only when it was missing
    or empty, with a lifetime of 24 hours and 64 characters of fresh
    randomness.  A secret that is present is never rotated, and no other
    cookie, nor the provider, nor the log, is touched. *)
Theorem generateCSRFToken_cookies w :
  let T := fst (generateCSRFToken hmac_sha256 w) in
  let w' := snd (generateCSRFToken hmac_sha256 w) in
  jar w' !! CSRF_TOKEN_NAME
    = Some {| value := T; httpOnly := true; secure := production w;
              sameSite := SameSiteStrict; maxAge := 3600 |}
  ∧ (str_truthy (cookie_value CSRF_SECRET_NAME w) = true →
     jar w' !! CSRF_SECRET_NAME = jar w !! CSRF_SECRET_NAME)
  ∧ (str_truthy (cookie_value CSRF_SECRET_NAME w) = false →
     ∃ secret,
       jar w' !! CSRF_SECRET_NAME
         = Some {| value := secret; httpOnly := true;
                   secure := production w; sameSite := SameSiteStrict;
                   maxAge := 86400 |}
       ∧ String.length secret = 64%nat)
  ∧ (∀ name, name ≠ CSRF_TOKEN_NAME → name ≠ CSRF_SECRET_NAME →
       jar w' !! name = jar w !! name)
  ∧ provider w' = provider w
  ∧ log w' = log w.
Proof.
  intros T w'. subst T w'. unfold generateCSRFToken, ensure_secret.
  destruct (cookie_value CSRF_SECRET_NAME w) as [[|c s]|] eqn:Hsec;
    cbn [str_truthy].
  2: { destruct (generateToken_spec w) as (_ & Hjar & Hprod).
       destruct (generateToken w) as [token w2] eqn:Hg.
       cbn [fst snd] in *.
       split; [|split; [|split; [|split; [|split]]]].
       - cbn. rewrite Hprod. apply lookup_insert_eq.
       - intros _. cbn. rewrite lookup_insert_ne by discriminate.
         now rewrite Hjar.
       - discriminate.
       - intros name Ht Hs. cbn. rewrite lookup_insert_ne by congruence.
         now rewrite Hjar.
       - unfold generateToken, randomBytes in Hg. now injection Hg as _ <-.
       - unfold generateToken, randomBytes in Hg. now injection Hg as _ <-. }
  all: pose proof (generateToken_length w) as Hlen;
    destruct (generateToken_spec w) as (_ & Hjar & Hprod);
    destruct (generateToken w) as [secret w1] eqn:Hg;
    cbn [fst snd] in *;
    destruct (generateToken_spec
                (cookie_set CSRF_SECRET_NAME secret (60 * 60 * 24) w1))
      as (_ & Hjar2 & Hprod2);
    destruct (generateToken
                (cookie_set CSRF_SECRET_NAME secret (60 * 60 * 24) w1))
      as [token w2] eqn:Hg2;
    cbn [fst snd] in *;
    assert (Hp1 : provider w1 = provider w ∧ log w1 = log w)
      by (unfold generateToken, randomBytes in Hg;
          now injection Hg as _ <-);
    assert (Hp2 : provider w2 = provider w1 ∧ log w2 = log w1)
      by (unfold generateToken, randomBytes in Hg2;
          now injection Hg2 as _ <-);
    destruct Hp1 as [Hp1 Hl1]; destruct Hp2 as [Hp2 Hl2];
    (split; [|split; [|split; [|split; [|split]]]]);
    [ cbn; rewrite Hprod2; cbn; rewrite Hprod; apply lookup_insert_eq
    | discriminate
    | intros _; exists secret; split; [|exact Hlen];
      cbn; rewrite lookup_insert_ne by discriminate;
      rewrite Hjar2; cbn; rewrite Hprod; apply lookup_insert_eq
    | intros name Ht Hs; cbn; rewrite lookup_insert_ne by congruence;
      rewrite Hjar2; cbn; rewrite lookup_insert_ne by congruence;
      now rewrite Hjar
    | cbn; now rewrite Hp2
    | cbn; now rewrite Hl2 ].
Qed.

End CsrfMore.

(** X10 on the token issued on the sample world. *)
Lemma accepted_token_is_signed_witness :
  let T := fst (Csrf.generateCSRFToken Csrf.sample_hmac Web.sample_world) in
  let w' := snd (Csrf.generateCSRFToken Csrf.sample_hmac Web.sample_world) in
  ∃ stored secret tokenPart signature,
    Some T = Some stored
    ∧ Web.cookie_value Csrf.CSRF_TOKEN_NAME w' = Some stored
    ∧ Web.cookie_value Csrf.CSRF_SECRET_NAME w' = Some secret
    ∧ Js.split_dot stored !! 0%nat = Some tokenPart
    ∧ Js.split_dot stored !! 1%nat = Some signature
    ∧ Js.from_hex signature = Csrf.sample_hmac secret tokenPart.
Proof.
  intros T w'.
  apply (accepted_token_is_signed Csrf.sample_hmac (Some T) w').
  vm_compute. reflexivity.
Defined.

(** X11 on the sample world. *)
Lemma issued_token_round_trip_witness :
  let T := fst (Csrf.generateCSRFToken Csrf.sample_hmac Web.sample_world) in
  let w' := snd (Csrf.generateCSRFToken Csrf.sample_hmac Web.sample_world) in
  Csrf.getCSRFToken w' = Some T
  ∧ CsrfForm.validateCSRFFromFormData Csrf.sample_hmac
      [("question", "Tea or coffee?"); ("csrf-token", T)] w' = true
  ∧ CsrfForm.validateCSRFFromFormData Csrf.sample_hmac
      [("question", "Tea or coffee?")] w' = false.
Proof.
  intros T w'.
  destruct (issued_token_round_trip Csrf.sample_hmac Web.sample_world
              [("question", "Tea or coffee?")] sample_hmac_length)
    as (Hget & Hok & Hmissing).
  split; [exact Hget|]. split; [|exact (Hmissing eq_refl)].
  exact Hok.
Defined.

(** X12 on the sample world. *)
Lemma issued_token_shape_witness :
  String.length
    (fst (Csrf.generateCSRFToken Csrf.sample_hmac Web.sample_world))
  = 129%nat.
Proof.
  destruct (issued_token_shape Csrf.sample_hmac Web.sample_world
              sample_hmac_length)
    as (nonce & signature & _ & _ & _ & _ & Hlen).
  exact Hlen.
Defined.

(** X13 on the sample world, which has no cookies: both cookies are
    written. *)
Lemma generateCSRFToken_cookies_witness :
  let w' := snd (Csrf.generateCSRFToken Csrf.sample_hmac Web.sample_world) in
  Web.maxAge <$> Web.jar w' !! Csrf.CSRF_TOKEN_NAME = Some 3600
  ∧ Web.maxAge <$> Web.jar w' !! Csrf.CSRF_SECRET_NAME = Some 86400.
Proof.
  intros w'.
  destruct (generateCSRFToken_cookies Csrf.sample_hmac Web.sample_world)
    as (Htok & _ & Hsec & _).
  destruct (Hsec eq_refl) as (secret & Hs & _).
  fold w' in Htok, Hs. now rewrite Htok, Hs.
Defined.

(** ** Session guardian: the other operations *)

Section SessionMore.

Import Web Js Session.

(** *** Reads only log *)

Lemma session_reads_only_log_get now w :
  jar (snd (getCurrentSession now w)) = jar w
  ∧ provider (snd (getCurrentSession now w)) = provider w
  ∧ ∃ events, log (snd (getCurrentSession now w)) = log w ++ events.
Proof.
  unfold getCurrentSession.
  destruct (provider w) eqn:Hp; simpl; repeat split; auto;
    try (exists []; now rewrite app_nil_r). eauto.
Qed.

(** X14.  [getCurrentSession], [validateSession] and
    [getSessionTimeoutInfo] change neither the cookies nor the provider's
    session: detecting an expired session removes nothing, and all they
    ever do to the world is append to the log. *)
Theorem session_reads_only_log now w :
  (jar (snd (getCurrentSession now w)) = jar w
   ∧ provider (snd (getCurrentSession now w)) = provider w
   ∧ ∃ events, log (snd (getCurrentSession now w)) = log w ++ events)
  ∧ (jar (snd (validateSession now w)) = jar w
     ∧ provider (snd (validateSession now w)) = provider w
     ∧ ∃ events, log (snd (validateSession now w)) = log w ++ events)
  ∧ (jar (snd (getSessionTimeoutInfo now w)) = jar w
     ∧ provider (snd (getSessionTimeoutInfo now w)) = provider w
     ∧ ∃ events,
         log (snd (getSessionTimeoutInfo now w)) = log w ++ events).
Proof.
  pose proof (session_reads_only_log_get now w) as Hget.
  split; [exact Hget|]. destruct Hget as (Hj & Hp & events & Hl). split.
  - unfold validateSession.
    destruct (getCurrentSession now w) as [[session|] w1]; simpl in *;
      [|eauto].
    destruct (_ && _); simpl.
    + repeat split; auto. rewrite Hl, <- app_assoc. eauto.
    + destruct (num_gt _ _); simpl; repeat split; auto; [|eauto].
      rewrite Hl, <- app_assoc. eauto.
  - unfold getSessionTimeoutInfo.
    destruct (getCurrentSession now w) as [[session|] w1]; simpl in *;
      [|eauto].
    destruct (lastActivity session) as [la|]; [|eauto].
    destruct (la =? 0); simpl; eauto.
Qed.

(** *** Validity in terms of the two cookies *)

Lemma str_or_toString n dflt : str_or (Some (toString n)) dflt = toString n.
Proof. destruct (toString_nonempty n) as (c & s & ->). reflexivity. Qed.

(** With both cookies holding instants written by [toString], the verdict
    and its reason: the idle limit is tested first, then the age limit,
    each exclusive of the limit itself. *)
Lemma validateSession_by_cookies now w uid tok a c :
  provider w = SignedIn uid tok →
  cookie_value "last-activity" w = Some (toString a) →
  cookie_value "session-created" w = Some (toString c) →
  a ≠ 0 →
  fst (validateSession now w)
  = if now - a >? MAX_IDLE_TIME_MS
    then {| vIsValid := false;
            vReason := Some "Session expired due to inactivity" |}
    else if now - c >? 24 * 60 * 60 * 1000
    then {| vIsValid := false;
            vReason := Some "Session expired due to age" |}
    else {| vIsValid := true; vReason := None |}.
Proof.
  intros Hp Hla Hsc Ha. unfold validateSession.
  rewrite (getCurrentSession_signed_in now w uid tok Hp).
  cbn [lastActivity createdAt userId]. rewrite Hla, Hsc.
  rewrite !str_or_toString.
  rewrite !parseInt_toString. cbn [num_truthy num_rsub num_gt].
  destruct (Z.eqb_spec a 0); [contradiction|]. cbn [negb andb].
  destruct (now - a >? MAX_IDLE_TIME_MS); [reflexivity|].
  destruct (now - c >? 24 * 60 * 60 * 1000); reflexivity.
Qed.

(** X15.  A session whose two cookies hold the instants [a] of the last
    activity and [c] of its creation is valid exactly while at most
    [MAX_IDLE_TIME_MS] (one hour) have passed since [a] and at most 24
    hours since [c]; either limit alone invalidates, and a session that
    exceeds both is reported as idle. *)
Theorem session_valid_within_both_limits now w uid tok a c :
  provider w = SignedIn uid tok →
  cookie_value "last-activity" w = Some (toString a) →
  cookie_value "session-created" w = Some (toString c) →
  a ≠ 0 →
  let v := fst (validateSession now w) in
  (vIsValid v = true
   ↔ now - a <= 60 * 60 * 1000 ∧ now - c <= 24 * 60 * 60 * 1000)
  ∧ (60 * 60 * 1000 < now - a →
     vReason v = Some "Session expired due to inactivity")
  ∧ (now - a <= 60 * 60 * 1000 → 24 * 60 * 60 * 1000 < now - c →
     vReason v = Some "Session expired due to age").
Proof.
  intros Hp Hla Hsc Ha v. subst v.
  rewrite (validateSession_by_cookies now w uid tok a c Hp Hla Hsc Ha).
  unfold MAX_IDLE_TIME_MS.
  destruct (Z.gtb_spec (now - a) (60 * 60 * 1000));
    destruct (Z.gtb_spec (now - c) (24 * 60 * 60 * 1000)); simpl;
    (split; [split; [intros; try discriminate; lia | intros []; lia || auto]
            | split; intros; lia || reflexivity]).
Qed.

(** X15 ten minutes after the last activity of a session created some
    hours before. *)
Lemma session_valid_within_both_limits_witness :
  let a := 1730000000000 in
  let c := 1729990000000 in
  let now := 1730000600000 in
  let w := cookie_set "session-created" (toString c) 3600
             (active_world a) in
  let v := fst (validateSession now w) in
  (vIsValid v = true
   ↔ now - a <= 60 * 60 * 1000 ∧ now - c <= 24 * 60 * 60 * 1000)
  ∧ (60 * 60 * 1000 < now - a →
     vReason v = Some "Session expired due to inactivity")
  ∧ (now - a <= 60 * 60 * 1000 → 24 * 60 * 60 * 1000 < now - c →
     vReason v = Some "Session expired due to age").
Proof.
  intros a c now w.
  apply (session_valid_within_both_limits now w "user-1"
           "eyJhbGciOiJIUzI1NiIsInR5cCI6IkpXVCJ9.e30.c2ln" a c).
  - reflexivity.
  - vm_compute. reflexivity.
  - vm_compute. reflexivity.
  - discriminate.
Defined.

(** *** Between requests *)

Lemma cookie_value_sent_after age name w :
  cookie_value name (sent_after age w)
  = match jar w !! name with
    | Some c =>
        if decide (age name <= maxAge c * 1000) then Some (value c)
        else None
    | None => None
    end.
Proof.
  unfold cookie_value, sent_after. cbn [jar set_jar].
  rewrite map_lookup_filter.
  destruct (jar w !! name) as [c|]; [|reflexivity].
  cbn. destruct (decide (age name <= maxAge c * 1000)).
  - now rewrite option_guard_True.
  - now rewrite option_guard_False.
Qed.

(** The two cookies as the first [updateSessionActivity] of a session
    writes them. *)
Lemma updateSessionActivity_first_jar now w :
  str_truthy (cookie_value "session-created" w) = false →
  (maxAge <$> jar (updateSessionActivity now w) !! "last-activity"
   = Some 1800
   ∧ cookie_value "last-activity" (updateSessionActivity now w)
     = Some (toString now))
  ∧ (maxAge <$> jar (updateSessionActivity now w) !! "session-created"
     = Some 3600
     ∧ cookie_value "session-created" (updateSessionActivity now w)
       = Some (toString now)).
Proof.
  intros Hsc. unfold updateSessionActivity.
  rewrite cookie_value_set_ne by discriminate. rewrite Hsc. cbn [negb].
  unfold cookie_value, cookie_set. cbn [jar set_jar].
  rewrite lookup_insert_ne by discriminate.
  rewrite !lookup_insert_eq. repeat split.
Qed.

(** X16.  The idle limit of [validateSession] cannot expire the session of
    a client that honours [Max-Age].  After the first
    [updateSessionActivity] of a session, at the instant [now], the
    [last-activity] cookie is sent for 30 minutes and the
    [session-created] cookie for one hour; [validateSession] skips the
    idle test without the first and takes the session as created now
    without the second.  So at every later instant, while the provider
    holds the session, the verdict is valid: the idle limit of one hour is
    never seen to be exceeded. *)
Theorem idle_limit_unreachable_with_max_age now later age w uid tok :
  provider w = SignedIn uid tok →
  str_truthy (cookie_value "session-created" w) = false →
  time_value now → now ≠ 0 → time_value later → now <= later →
  age "last-activity" = later - now →
  age "session-created" = later - now →
  let w' := sent_after age (updateSessionActivity now w) in
  (later - now <= 30 * 60 * 1000 →
   cookie_value "last-activity" w' = Some (toString now))
  ∧ (30 * 60 * 1000 < later - now →
     cookie_value "last-activity" w' = None)
  ∧ (60 * 60 * 1000 < later - now →
     cookie_value "session-created" w' = None)
  ∧ fst (validateSession later w')
    = {| vIsValid := true; vReason := None |}.
Proof.
  intros Hp Hsc _ Hnow _ Hle Hla Hcr w'.
  destruct (updateSessionActivity_first_jar now w Hsc)
    as ((Hla_age & Hla_val) & (Hsc_age & Hsc_val)).
  assert (Hla' : cookie_value "last-activity" w'
                 = if decide (later - now <= 1800 * 1000)
                   then Some (toString now) else None).
  { subst w'. rewrite cookie_value_sent_after, Hla.
    unfold cookie_value in Hla_val.
    destruct (jar (updateSessionActivity now w) !! "last-activity")
      as [c|]; [|discriminate].
    cbn in Hla_age, Hla_val. injection Hla_age as ->.
    injection Hla_val as ->. reflexivity. }
  assert (Hsc' : cookie_value "session-created" w'
                 = if decide (later - now <= 3600 * 1000)
                   then Some (toString now) else None).
  { subst w'. rewrite cookie_value_sent_after, Hcr.
    unfold cookie_value in Hsc_val.
    destruct (jar (updateSessionActivity now w) !! "session-created")
      as [c|]; [|discriminate].
    cbn in Hsc_age, Hsc_val. injection Hsc_age as ->.
    injection Hsc_val as ->. reflexivity. }
  split; [|split; [|split]].
  - intros H. rewrite Hla'.
    destruct (decide (later - now <= 1800 * 1000)); [reflexivity | lia].
  - intros H. rewrite Hla'.
    destruct (decide (later - now <= 1800 * 1000)); [lia | reflexivity].
  - intros H. rewrite Hsc'.
    destruct (decide (later - now <= 3600 * 1000)); [lia | reflexivity].
  - unfold validateSession.
    rewrite (getCurrentSession_signed_in later w' uid tok)
      by (subst w'; cbn; now rewrite updateSessionActivity_provider).
    cbn [lastActivity createdAt userId]. rewrite Hla', Hsc'.
    unfold MAX_IDLE_TIME_MS.
    destruct (decide (later - now <= 1800 * 1000));
      destruct (decide (later - now <= 3600 * 1000));
      rewrite ?str_or_toString; cbn [str_or];
      rewrite ?parseInt_toString; cbn [parseInt];
      cbn [num_truthy num_rsub num_gt];
      try (destruct (Z.eqb_spec now 0); [contradiction|]);
      cbn [negb andb];
      repeat match goal with
             | |- context [?a >? ?b] => destruct (Z.gtb_spec a b); try lia
             end; reflexivity.
Qed.

(** X16 on [signed_in_world], two hours after the refresh. *)
Lemma idle_limit_unreachable_with_max_age_witness :
  let now := 1730000000000 in
  let later := now + 2 * 60 * 60 * 1000 in
  let w' := sent_after (λ _, later - now)
              (updateSessionActivity now signed_in_world) in
  cookie_value "last-activity" w' = None
  ∧ fst (validateSession later w')
    = {| vIsValid := true; vReason := None |}.
Proof.
  intros now later w'.
  destruct (idle_limit_unreachable_with_max_age now later
              (λ _, later - now) signed_in_world
              "user-1" "eyJhbGciOiJIUzI1NiIsInR5cCI6IkpXVCJ9.e30.c2ln")
    as (_ & Hgone & _ & Hvalid).
  - reflexivity.
  - vm_compute. reflexivity.
  - vm_compute. split; discriminate.
  - discriminate.
  - vm_compute. split; discriminate.
  - vm_compute. discriminate.
  - reflexivity.
  - reflexivity.
  - split; [apply Hgone; vm_compute; reflexivity | exact Hvalid].
Defined.

(** *** Timeout information *)

(** X17.  [getSessionTimeoutInfo] answers exactly when the provider holds
    a session and the [last-activity] cookie parses to a number other than
    0.  In its answer [shouldWarn] and [shouldTimeout] never hold
    together; and when the clock reading and the number in the cookie are
    time values, where the subtractions are exact, the two countdowns are
    25 minutes apart and [shouldTimeout] holds exactly from 30 minutes of
    inactivity on. *)
Theorem timeout_info_fields now w :
  (fst (getSessionTimeoutInfo now w) = None
   ↔ (∀ uid tok, provider w ≠ SignedIn uid tok)
     ∨ num_truthy (parseInt (str_or (cookie_value "last-activity" w) "0"))
       = false)
  ∧ (∀ info,
       fst (getSessionTimeoutInfo now w) = Some info →
       (shouldWarn info = true → shouldTimeout info = false)
       ∧ ∃ la,
           parseInt (str_or (cookie_value "last-activity" w) "0") = Some la
           ∧ (time_value now → time_value la →
              timeUntilTimeout info = 30 * 60 * 1000 - (now - la)
              ∧ timeUntilTimeout info
                = timeUntilWarning info + 25 * 60 * 1000
              ∧ (shouldTimeout info = true ↔ 30 * 60 * 1000 <= now - la))).
Proof.
  unfold getSessionTimeoutInfo, getCurrentSession.
  destruct (provider w) as [| | |uid tok] eqn:Hp; cbn [fst snd].
  1-3: split; [split; [intros _; left; intros ? ?; discriminate
                      | reflexivity]
              | discriminate].
  cbn [lastActivity].
  destruct (parseInt (str_or (cookie_value "last-activity" w) "0"))
    as [la|]; cbn [fst num_truthy].
  - destruct (Z.eqb_spec la 0) as [|Hnz]; cbn [fst negb].
    + split; [split; [now right | reflexivity] | discriminate].
    + split.
      * split; [discriminate|].
        intros [Hno | Hfalse]; [now destruct (Hno uid tok) | discriminate].
      * intros info [= <-]. cbn.
        unfold SESSION_TIMEOUT_MS, SESSION_WARNING_MS. split.
        -- rewrite andb_true_iff, Z.gtb_ltb, Z.ltb_lt.
           intros [_ H]. apply Z.leb_gt. lia.
        -- exists la. split; [reflexivity|]. intros _ _.
           split; [reflexivity|]. split; [lia|].
           rewrite Z.leb_le. lia.
  - split; [split; [now right | reflexivity] | discriminate].
Qed.

(** X17 twenty-six minutes after the last activity. *)
Lemma timeout_info_fields_witness :
  let a := 1730000000000 in
  let now := a + 26 * 60 * 1000 in
  let info := {| timeUntilWarning := - (21 * 60 * 1000);
                 timeUntilTimeout := 4 * 60 * 1000;
                 shouldWarn := true;
                 shouldTimeout := false |} in
  timeUntilTimeout info = 30 * 60 * 1000 - (now - a)
  ∧ timeUntilTimeout info = timeUntilWarning info + 25 * 60 * 1000
  ∧ (shouldTimeout info = true ↔ 30 * 60 * 1000 <= now - a).
Proof.
  intros a now info.
  destruct (timeout_info_fields now (active_world a)) as [_ Hinfo].
  destruct (Hinfo info) as (_ & la & Hla & Hfields).
  - vm_compute. reflexivity.
  - vm_compute in Hla. injection Hla as <-. apply Hfields.
    + vm_compute. split; discriminate.
    + vm_compute. split; discriminate.
Defined.

(** *** Termination *)

(** What [terminateSession] changes, by the state of the provider. *)
Lemma terminateSession_changes now reason w :
  let w' := terminateSession now reason w in
  (provider w ≠ Unreachable →
   jar w' = delete "session-created" (delete "last-activity" (jar w))
   ∧ (∀ uid tok, provider w' ≠ SignedIn uid tok)
   ∧ (∀ uid tok, provider w = SignedIn uid tok →
        log w' = log w ++ [LogSecurityEvent "Session terminated"
                             (CtxTerminated uid reason)])
   ∧ ((∀ uid tok, provider w ≠ SignedIn uid tok) → log w' = log w))
  ∧ (provider w = Unreachable →
     jar w' = jar w
     ∧ provider w' = Unreachable
     ∧ log w' = log w ++ [LogError "Error getting current session" CtxError;
                          LogError "Error terminating session"
                                   (CtxErrorReason reason)]).
Proof.
  intros w'. subst w'. unfold terminateSession, getCurrentSession.
  destruct (provider w) as [| | |uid tok] eqn:Hp; cbn -[delete].
  - rewrite Hp. split; [congruence|]. intros _. cbn.
    rewrite Hp, <- app_assoc. auto.
  - rewrite Hp. unfold signOut. rewrite Hp. cbn -[delete]. rewrite Hp.
    split; [|discriminate]. intros _.
    repeat split; try discriminate; auto.
  - rewrite Hp. unfold signOut. rewrite Hp. cbn -[delete]. rewrite Hp.
    split; [|discriminate]. intros _.
    repeat split; try discriminate; auto.
  - rewrite Hp. unfold signOut. cbn -[delete]. rewrite Hp. cbn -[delete].
    split; [|discriminate]. intros _.
    repeat split; try discriminate; auto.
    + intros uid' tok' [= <- <-]. reflexivity.
    + intros Hno. now destruct (Hno uid tok).
Qed.

(** A second call changes nothing. *)
Lemma terminateSession_again now reason now' reason' w :
  provider w ≠ Unreachable →
  terminateSession now' reason' (terminateSession now reason w)
  = terminateSession now reason w.
Proof.
  intros Hreach. destruct w as [j p l pr en cu]. cbn in Hreach.
  unfold terminateSession, getCurrentSession, signOut, cookie_delete,
    set_jar.
  destruct p as [| | |uid tok]; [contradiction|..];
    cbn -[delete]; f_equal;
    rewrite (delete_id (delete "session-created" _) "last-activity")
      by (rewrite lookup_delete_ne by discriminate;
          apply lookup_delete_eq);
    apply delete_id, lookup_delete_eq.
Qed.

(** The lines written by the calls made, after one more call. *)
Lemma written_app env calls more :
  Logger.written env (calls ++ more)
  = Logger.written env calls ++ Logger.written env more.
Proof. apply List.filter_app. Qed.

(** X18.  [terminateSession] with a provider that can be reached: the two
    activity cookies are deleted and every other cookie (the CSRF pair
    among them) is as it was, the provider holds no session, the logger is
    called once, with the security event ['Session terminated'], exactly
    when there was a session, and that call writes a line exactly when the
    logger's threshold admits ['warn']; a second call of
    [terminateSession], at any time and for any reason, changes nothing
    and calls the logger no more.  With an unreachable provider nothing is
    cleared: the cookies stay, and the logger is called twice with an
    error, which writes two lines when the threshold admits ['error'] and
    none otherwise. *)
Theorem terminateSession_effects now reason now' reason' env w :
  let w' := terminateSession now reason w in
  (provider w ≠ Unreachable →
   jar w' = delete "session-created" (delete "last-activity" (jar w))
   ∧ (∀ uid tok, provider w' ≠ SignedIn uid tok)
   ∧ (∀ uid tok, provider w = SignedIn uid tok →
        let call := LogSecurityEvent "Session terminated"
                      (CtxTerminated uid reason) in
        log w' = log w ++ [call]
        ∧ Logger.written env (log w')
          = Logger.written env (log w)
            ++ (if Logger.shouldLog env Logger.Warn then [call] else []))
   ∧ ((∀ uid tok, provider w ≠ SignedIn uid tok) → log w' = log w)
   ∧ terminateSession now' reason' w' = w')
  ∧ (provider w = Unreachable →
     let calls := [LogError "Error getting current session" CtxError;
                   LogError "Error terminating session"
                            (CtxErrorReason reason)] in
     jar w' = jar w
     ∧ provider w' = Unreachable
     ∧ log w' = log w ++ calls
     ∧ Logger.written env (log w')
       = Logger.written env (log w)
         ++ (if Logger.shouldLog env Logger.Error then calls else [])).
Proof.
  intros w'. subst w'.
  destruct (terminateSession_changes now reason w) as [Hup Hdown].
  split.
  - intros Hreach. destruct (Hup Hreach) as (Hj & Hp & Hl & Hl').
    split; [exact Hj|]. split; [exact Hp|]. split; [|split].
    + intros uid tok Hin call. rewrite (Hl uid tok Hin).
      split; [reflexivity|]. rewrite written_app. f_equal.
    + exact Hl'.
    + now apply terminateSession_again.
  - intros Hun calls. destruct (Hdown Hun) as (Hj & Hp & Hl).
    split; [exact Hj|]. split; [exact Hp|]. rewrite Hl.
    split; [reflexivity|]. rewrite written_app. f_equal.
    unfold Logger.written. cbn [List.filter Logger.event_level].
    now destruct (Logger.shouldLog env Logger.Error).
Qed.

(** X18 on a signed-in session with its activity cookie, with [LOG_LEVEL]
    not set. *)
Lemma terminateSession_effects_witness :
  let w := active_world 1730000000000 in
  let w' := terminateSession 1730000000500 "User logout" w in
  let call := LogSecurityEvent "Session terminated"
                (CtxTerminated "user-1" "User logout") in
  jar w' = delete "session-created" (delete "last-activity" (jar w))
  ∧ Logger.written None (log w') = Logger.written None (log w) ++ [call]
  ∧ terminateSession 1730000900000 "Session expired" w' = w'.
Proof.
  intros w w' call.
  destruct (terminateSession_effects 1730000000500 "User logout"
              1730000900000 "Session expired" None w)
    as [Hup _].
  destruct Hup as (Hjar & _ & Hlog & _ & Hagain); [discriminate|].
  split; [exact Hjar|]. split; [|exact Hagain].
  destruct (Hlog "user-1" "eyJhbGciOiJIUzI1NiIsInR5cCI6IkpXVCJ9.e30.c2ln"
              eq_refl) as [_ Hwritten].
  exact Hwritten.
Defined.

(** *** Initialisation *)

(** X19.  [initializeSession] does nothing without a provider session: no
    cookie is written.  With one, at an instant other than 0, the activity
    clock starts: [getSessionTimeoutInfo] at the same instant shows the
    full 30 minutes to the timeout and 5 to the warning, and neither flag
    is set. *)
Theorem initializeSession_starts_clock now w :
  ((∀ uid tok, provider w ≠ SignedIn uid tok) →
   jar (initializeSession now w) = jar w)
  ∧ (∀ uid tok,
       provider w = SignedIn uid tok →
       now ≠ 0 →
       fst (getSessionTimeoutInfo now (initializeSession now w))
       = Some {| timeUntilWarning := 5 * 60 * 1000;
                 timeUntilTimeout := 30 * 60 * 1000;
                 shouldWarn := false;
                 shouldTimeout := false |}).
Proof.
  split.
  - intros Hno. unfold initializeSession.
    pose proof (getCurrentSession_absent now w Hno) as Hnone.
    destruct (session_reads_only_log_get now w) as (Hj & _).
    destruct (getCurrentSession now w) as [session w1].
    simpl in Hnone. subst session. exact Hj.
  - intros uid tok Hp Hnow. unfold initializeSession.
    rewrite (getCurrentSession_signed_in now w uid tok Hp).
    cbn [userId]. unfold getSessionTimeoutInfo.
    rewrite (getCurrentSession_signed_in now _ uid tok)
      by (cbn; now rewrite updateSessionActivity_provider).
    cbn [lastActivity].
    replace (cookie_value "last-activity"
               (record (LogAuthEvent "Session initialized" uid)
                  (updateSessionActivity now w)))
      with (Some (toString now))
      by (symmetry; apply updateSessionActivity_last_activity).
    rewrite str_or_toString, parseInt_toString.
    destruct (Z.eqb_spec now 0); [contradiction|].
    cbn [fst]. unfold SESSION_WARNING_MS, SESSION_TIMEOUT_MS.
    replace (now - now) with 0 by lia. reflexivity.
Qed.

(** X19 on [signed_in_world]. *)
Lemma initializeSession_starts_clock_witness :
  let now := 1730000000000 in
  fst (getSessionTimeoutInfo now (initializeSession now signed_in_world))
  = Some {| timeUntilWarning := 5 * 60 * 1000;
            timeUntilTimeout := 30 * 60 * 1000;
            shouldWarn := false;
            shouldTimeout := false |}.
Proof.
  intros now.
  destruct (initializeSession_starts_clock now signed_in_world)
    as [_ Hstart].
  apply (Hstart "user-1" "eyJhbGciOiJIUzI1NiIsInR5cCI6IkpXVCJ9.e30.c2ln").
  - reflexivity.
  - discriminate.
Defined.

End SessionMore.

(** ** Secure redirects *)

Section RedirectFacts.

Import Js Str SecureRedirect.

Variable parseURL : string → option URL.
Variable decodeURIComponent : string → option string.

Lemma path_allowed_iff allowed path :
  path_allowed allowed path = true
  ↔ ∃ a, In a allowed
         ∧ (path = a ∨ startsWith path (a ++ "/") = true).
Proof.
  unfold path_allowed. rewrite existsb_exists.
  split; intros (a & Hin & H); exists a; (split; [exact Hin|]).
  - apply orb_true_iff in H as [H|H]; [left | now right].
    now apply String.eqb_eq.
  - apply orb_true_iff. destruct H as [->|H]; [left | now right].
    apply String.eqb_refl.
Qed.

Lemma isSafeRedirectURL_relative allowed appUrl url :
  startsWith url "/" = true →
  isSafeRedirectURL parseURL allowed appUrl url = path_allowed allowed url.
Proof. unfold isSafeRedirectURL. now intros ->. Qed.

(** X20.  Because ["/"] is on the allow list, every string that begins
    with two slashes passes [isSafeRedirectURL], whatever follows them and
    whatever the application's own origin is: the test on relative URLs
    compares the string with [allowedPath + '/'], which for ["/"] is
    ["//"]. *)
Theorem double_slash_url_is_accepted allowed appUrl rest :
  In "/" allowed →
  isSafeRedirectURL parseURL allowed appUrl ("//" ++ rest) = true.
Proof.
  intros Hin. rewrite isSafeRedirectURL_relative by reflexivity.
  apply path_allowed_iff. exists "/". split; [exact Hin|]. right.
  change ("/" ++ "/")%string with "//". apply startsWith_app.
Qed.

(** X21.  A URL that does not begin with ["/"] is accepted only if it
    parses, the application URL parses, the two origins are equal and the
    parsed path is allowed: an unparsable URL, an unparsable application
    URL and a foreign origin are all rejected. *)
Theorem absolute_url_needs_same_origin allowed appUrl url :
  startsWith url "/" = false →
  (isSafeRedirectURL parseURL allowed appUrl url = true
   ↔ ∃ parsed own,
       parseURL url = Some parsed
       ∧ parseURL (str_or appUrl "http://localhost:3000") = Some own
       ∧ origin parsed = origin own
       ∧ path_allowed allowed (pathname parsed) = true).
Proof.
  intros Hrel. unfold isSafeRedirectURL. rewrite Hrel.
  destruct (parseURL url) as [parsed|].
  2: { split; [discriminate|]. intros (? & ? & ? & _). discriminate. }
  destruct (parseURL (str_or appUrl "http://localhost:3000")) as [own|].
  2: { split; [discriminate|]. intros (? & ? & _ & ? & _). discriminate. }
  destruct (String.eqb_spec (origin parsed) (origin own)) as [Heq|Hne];
    simpl.
  - split; [eauto 6|]. now intros (? & ? & [= <-] & [= <-] & _ & H).
  - split; [discriminate|].
    intros (? & ? & [= <-] & [= <-] & Heq & _). contradiction.
Qed.

(** *** Extending the allow list *)

Lemma paths_include_iff allowed path :
  paths_include allowed path = true ↔ In path allowed.
Proof.
  unfold paths_include. rewrite existsb_exists. split.
  - intros (a & Hin & H). apply String.eqb_eq in H. now subst.
  - intros Hin. exists path. split; [exact Hin | apply String.eqb_refl].
Qed.

(** The shape of the list is kept. *)
Lemma addAllowedRedirectPath_shape path allowed :
  (Forall (λ a, startsWith a "/" = true) allowed →
   Forall (λ a, startsWith a "/" = true)
          (addAllowedRedirectPath path allowed))
  ∧ (List.NoDup allowed →
     List.NoDup (addAllowedRedirectPath path allowed))
  ∧ (startsWith path "/" = false ∨ In path allowed →
     addAllowedRedirectPath path allowed = allowed)
  ∧ addAllowedRedirectPath path (addAllowedRedirectPath path allowed)
    = addAllowedRedirectPath path allowed
  ∧ ∃ added, addAllowedRedirectPath path allowed = allowed ++ added.
Proof.
  unfold addAllowedRedirectPath.
  destruct (startsWith path "/") eqn:Hs; simpl.
  2: { repeat split; auto. exists []. now rewrite app_nil_r. }
  destruct (paths_include allowed path) eqn:Hi; simpl.
  { rewrite Hi. simpl. repeat split; auto.
    exists []. now rewrite app_nil_r. }
  assert (Hnin : ¬ In path allowed).
  { intros Hin. apply paths_include_iff in Hin. congruence. }
  assert (Hnow : paths_include (allowed ++ [path]) path = true).
  { apply paths_include_iff, in_or_app. right. now left. }
  rewrite Hnow. simpl. split; [|split; [|split; [|split]]].
  - intros Hall. apply Forall_app. split; [exact Hall|].
    constructor; [exact Hs | constructor].
  - intros Hnd. apply NoDup_ListNoDup, NoDup_app.
    apply NoDup_ListNoDup in Hnd.
    split; [exact Hnd|]. split.
    + intros x Hx Hx'. apply list_elem_of_In in Hx.
      apply list_elem_of_singleton in Hx'. now subst.
    + apply NoDup_singleton.
  - intros [H|H]; [discriminate | contradiction].
  - reflexivity.
  - eauto.
Qed.

Lemma path_allowed_app allowed more path :
  path_allowed (allowed ++ more) path
  = path_allowed allowed path || path_allowed more path.
Proof. unfold path_allowed. apply existsb_app. Qed.

(** What is accepted only grows. *)
Lemma addAllowedRedirectPath_monotone path allowed appUrl url :
  (isSafeRedirectURL parseURL allowed appUrl url = true →
   isSafeRedirectURL parseURL (addAllowedRedirectPath path allowed)
     appUrl url = true)
  ∧ (startsWith path "/" = true →
     isSafeRedirectURL parseURL (addAllowedRedirectPath path allowed)
       appUrl path = true).
Proof.
  assert (Hmono : ∀ p, path_allowed allowed p = true →
            path_allowed (addAllowedRedirectPath path allowed) p = true).
  { intros p Hp. unfold addAllowedRedirectPath.
    destruct (_ && _); [|exact Hp].
    rewrite path_allowed_app, Hp. reflexivity. }
  split.
  - unfold isSafeRedirectURL.
    destruct (startsWith url "/"); [apply Hmono|].
    destruct (parseURL url) as [parsed|]; [|auto].
    destruct (parseURL _) as [own|]; [|auto].
    destruct (negb _); [auto | apply Hmono].
  - intros Hs. rewrite isSafeRedirectURL_relative by exact Hs.
    unfold addAllowedRedirectPath. rewrite Hs. simpl.
    destruct (paths_include allowed path) eqn:Hi; simpl.
    + apply path_allowed_iff. exists path.
      split; [now apply paths_include_iff | now left].
    + rewrite path_allowed_app. apply orb_true_iff. right.
      apply path_allowed_iff. exists path. split; [now left | now left].
Qed.

(** X22.  [addAllowedRedirectPath] keeps the shape of the list: entries
    begin with ["/"] and are pairwise distinct if they were; a path that
    does not begin with ["/"] or is already listed changes nothing, so
    adding twice is adding once; existing entries keep their places.  And
    it only widens what is accepted: every URL that was safe stays safe,
    and a path beginning with ["/"] is itself safe once added. *)
Theorem addAllowedRedirectPath_only_widens path allowed appUrl url :
  let allowed' := addAllowedRedirectPath path allowed in
  (Forall (λ a, startsWith a "/" = true) allowed →
   Forall (λ a, startsWith a "/" = true) allowed')
  ∧ (List.NoDup allowed → List.NoDup allowed')
  ∧ (startsWith path "/" = false ∨ In path allowed → allowed' = allowed)
  ∧ addAllowedRedirectPath path allowed' = allowed'
  ∧ (∃ added, allowed' = allowed ++ added)
  ∧ (isSafeRedirectURL parseURL allowed appUrl url = true →
     isSafeRedirectURL parseURL allowed' appUrl url = true)
  ∧ (startsWith path "/" = true →
     isSafeRedirectURL parseURL allowed' appUrl path = true).
Proof.
  intros allowed'. subst allowed'.
  destruct (addAllowedRedirectPath_shape path allowed)
    as (H1 & H2 & H3 & H4 & H5).
  destruct (addAllowedRedirectPath_monotone path allowed appUrl url)
    as (H6 & H7).
  repeat (split; [assumption|]). assumption.
Qed.

(** *** What the helpers hand out *)

(** X23.  The helpers never hand out a URL that failed the check:
    [safeRedirect], [getSafeRedirectURL] and [sanitizeRedirectParam] answer
    either their fallback or a URL for which [isSafeRedirectURL] is true;
    with the default fallback ['/polls'] on the allow list, the answer of
    [getSafeRedirectURL] always passes the check. *)
Theorem redirect_helpers_answer_safe_or_fallback
    allowed appUrl url searchParams redirectParam fallback :
  let safe := isSafeRedirectURL parseURL allowed appUrl in
  (safeRedirect parseURL allowed appUrl url fallback = fallback
   ∨ (safeRedirect parseURL allowed appUrl url fallback = url
      ∧ safe url = true))
  ∧ (getSafeRedirectURL parseURL allowed appUrl searchParams fallback
     = fallback
     ∨ safe (getSafeRedirectURL parseURL allowed appUrl searchParams
               fallback) = true)
  ∧ (sanitizeRedirectParam parseURL decodeURIComponent allowed appUrl
       redirectParam = "/polls"
     ∨ safe (sanitizeRedirectParam parseURL decodeURIComponent allowed
               appUrl redirectParam) = true)
  ∧ (In "/polls" allowed →
     safe (getSafeRedirectURL parseURL allowed appUrl searchParams
             "/polls") = true).
Proof.
  intros safe.
  assert (Hget : ∀ fb,
            getSafeRedirectURL parseURL allowed appUrl searchParams fb = fb
            ∨ safe (getSafeRedirectURL parseURL allowed appUrl
                      searchParams fb) = true).
  { intros fb. unfold getSafeRedirectURL.
    destruct (match params_get "redirect" searchParams with
              | Some (String c s) => Some (String c s)
              | _ => _
              end) as [[|c s]|]; auto.
    destruct (isSafeRedirectURL parseURL allowed appUrl (String c s))
      eqn:Hs; auto. }
  split; [|split; [|split]].
  - unfold safeRedirect.
    destruct (isSafeRedirectURL parseURL allowed appUrl url) eqn:Hs; auto.
  - apply Hget.
  - unfold sanitizeRedirectParam.
    destruct redirectParam as [[|c s]|]; auto.
    destruct (decodeURIComponent (String c s)) as [decoded|]; auto.
    destruct (isSafeRedirectURL parseURL allowed appUrl decoded) eqn:Hs;
      auto.
  - intros Hin. destruct (Hget "/polls") as [-> | H]; [|exact H].
    subst safe. cbv beta.
    rewrite isSafeRedirectURL_relative by reflexivity.
    apply path_allowed_iff. exists "/polls". auto.
Qed.

Lemma form_encode_char_chars c :
  every_char (λ x, negb (Ascii.eqb x "&") && negb (Ascii.eqb x "=")
                   && negb (Ascii.eqb x "#") && negb (Ascii.eqb x "?")
                   && negb (Ascii.eqb x "/") && negb (Ascii.eqb x " "))
             (form_encode_char c) = true.
Proof. destruct c as [[] [] [] [] [] [] [] []]; reflexivity. Qed.

(** X24.  [createLoginRedirectURL] answers ['/login'] when there is no
    return URL, or an empty one, or one that fails the check.  For a
    return URL that passes the check it answers ['/login?redirect=']
    followed by the encoded URL, in which none of [&], [=], [#], [?], [/]
    or a space occurs: the return URL is carried, and it cannot add
    parameters or a fragment of its own to the login URL. *)
Theorem createLoginRedirectURL_encodes allowed appUrl returnTo :
  (str_truthy returnTo = false →
   createLoginRedirectURL parseURL allowed appUrl returnTo = "/login")
  ∧ (∀ url,
       returnTo = Some url →
       isSafeRedirectURL parseURL allowed appUrl url = false →
       createLoginRedirectURL parseURL allowed appUrl returnTo = "/login")
  ∧ (∀ url,
       returnTo = Some url → url ≠ EmptyString →
       isSafeRedirectURL parseURL allowed appUrl url = true →
       createLoginRedirectURL parseURL allowed appUrl returnTo
         = ("/login?redirect=" ++ form_encode url)%string
       ∧ createLoginRedirectURL parseURL allowed appUrl returnTo ≠ "/login"
       ∧ every_char
           (λ x, negb (Ascii.eqb x "&") && negb (Ascii.eqb x "=")
                 && negb (Ascii.eqb x "#") && negb (Ascii.eqb x "?")
                 && negb (Ascii.eqb x "/") && negb (Ascii.eqb x " "))
           (form_encode url) = true).
Proof.
  unfold createLoginRedirectURL. split; [|split].
  - destruct returnTo as [[|c s]|]; [reflexivity | discriminate
                                    | reflexivity].
  - intros url -> Hsafe. destruct url as [|c s]; [reflexivity|].
    now rewrite Hsafe.
  - intros url -> Hne Hsafe. destruct url as [|c s]; [contradiction|].
    rewrite Hsafe. cbn [negb]. split; [reflexivity|].
    split; [discriminate|].
    generalize (String c s). intros url.
    induction url as [|x url IH]; [reflexivity|].
    cbn [form_encode]. rewrite every_char_app, form_encode_char_chars, IH.
    reflexivity.
Qed.

End RedirectFacts.

(** X20 on the initial allow list: a protocol-relative URL of another host
    passes the check. *)
Lemma double_slash_url_is_accepted_witness :
  SecureRedirect.isSafeRedirectURL SecureRedirect.sample_parseURL
    SecureRedirect.ALLOWED_REDIRECT_PATHS None "//evil.example/polls"
  = true.
Proof.
  apply (double_slash_url_is_accepted SecureRedirect.sample_parseURL
           SecureRedirect.ALLOWED_REDIRECT_PATHS None "evil.example/polls").
  left. reflexivity.
Defined.

(** X21 on an absolute URL of the application's own origin. *)
Lemma absolute_url_needs_same_origin_witness :
  SecureRedirect.isSafeRedirectURL SecureRedirect.sample_parseURL
    SecureRedirect.ALLOWED_REDIRECT_PATHS None
    "http://localhost:3000/polls/42" = true
  ↔ ∃ parsed own,
      SecureRedirect.sample_parseURL "http://localhost:3000/polls/42"
      = Some parsed
      ∧ SecureRedirect.sample_parseURL
          (Js.str_or None "http://localhost:3000") = Some own
      ∧ SecureRedirect.origin parsed = SecureRedirect.origin own
      ∧ SecureRedirect.path_allowed SecureRedirect.ALLOWED_REDIRECT_PATHS
          (SecureRedirect.pathname parsed) = true.
Proof.
  apply (absolute_url_needs_same_origin SecureRedirect.sample_parseURL
           SecureRedirect.ALLOWED_REDIRECT_PATHS None
           "http://localhost:3000/polls/42").
  reflexivity.
Defined.

(** X22 on the initial allow list and a new path. *)
Lemma addAllowedRedirectPath_only_widens_witness :
  let allowed' :=
    SecureRedirect.addAllowedRedirectPath "/dashboard"
      SecureRedirect.ALLOWED_REDIRECT_PATHS in
  SecureRedirect.addAllowedRedirectPath "/dashboard" allowed' = allowed'
  ∧ SecureRedirect.isSafeRedirectURL SecureRedirect.sample_parseURL
      allowed' None "/dashboard" = true.
Proof.
  intros allowed'.
  destruct (addAllowedRedirectPath_only_widens
              SecureRedirect.sample_parseURL "/dashboard"
              SecureRedirect.ALLOWED_REDIRECT_PATHS None "/polls")
    as (_ & _ & _ & Hagain & _ & _ & Hsafe).
  split; [exact Hagain | apply Hsafe; reflexivity].
Defined.

(** X24 on a return URL with a query of its own. *)
Lemma createLoginRedirectURL_encodes_witness :
  SecureRedirect.createLoginRedirectURL SecureRedirect.sample_parseURL
    SecureRedirect.ALLOWED_REDIRECT_PATHS None
    (Some "/polls/42?tab=votes&sort=new first")
  = "/login?redirect=%2Fpolls%2F42%3Ftab%3Dvotes%26sort%3Dnew+first".
Proof.
  destruct (createLoginRedirectURL_encodes SecureRedirect.sample_parseURL
              SecureRedirect.ALLOWED_REDIRECT_PATHS None
              (Some "/polls/42?tab=votes&sort=new first"))
    as (_ & _ & Hsafe).
  destruct (Hsafe "/polls/42?tab=votes&sort=new first") as (Hurl & _).
  - reflexivity.
  - discriminate.
  - vm_compute. reflexivity.
  - rewrite Hurl. vm_compute. reflexivity.
Defined.

(** ** Authentication actions *)

Section AuthFacts.

Import Js Str RateLimit AuthActions.

(** *** Input sanitisation *)

Lemma escape_char_clean c :
  every_char (λ x, negb (Ascii.eqb x "<") && negb (Ascii.eqb x ">")
                   && negb (Ascii.eqb x "034") && negb (Ascii.eqb x "'"))
             (escape_char c) = true.
Proof. destruct c as [[] [] [] [] [] [] [] []]; reflexivity. Qed.

Lemma escape_char_plain c :
  negb (Ascii.eqb c "<") && negb (Ascii.eqb c ">")
  && negb (Ascii.eqb c "034") && negb (Ascii.eqb c "'")
  && negb (Ascii.eqb c "&") = true →
  escape_char c = String c EmptyString.
Proof.
  destruct c as [[] [] [] [] [] [] [] []]; intros H; try reflexivity;
    vm_compute in H; discriminate.
Qed.

(** X25.  The output of [sanitizeInput] contains none of [<], [>], the
    double quote and the apostrophe, whatever the input; and an input
    without these characters, without [&] and without white space at its
    ends comes back unchanged. *)
Theorem sanitizeInput_removes_markup input :
  every_char (λ x, negb (Ascii.eqb x "<") && negb (Ascii.eqb x ">")
                   && negb (Ascii.eqb x "034") && negb (Ascii.eqb x "'"))
             (sanitizeInput input) = true
  ∧ (every_char (λ c, negb (Ascii.eqb c "<") && negb (Ascii.eqb c ">")
                      && negb (Ascii.eqb c "034")
                      && negb (Ascii.eqb c "'")
                      && negb (Ascii.eqb c "&")) input = true →
     trim input = input →
     sanitizeInput input = input).
Proof.
  unfold sanitizeInput. split.
  - generalize (trim input). intros s.
    induction s as [|c s IH]; [reflexivity|].
    cbn [escape]. now rewrite every_char_app, escape_char_clean, IH.
  - intros Hplain ->. induction input as [|c s IH]; [reflexivity|].
    cbn [every_char] in Hplain. apply andb_true_iff in Hplain as [Hc Hs].
    cbn [escape]. rewrite (escape_char_plain c Hc), (IH Hs). reflexivity.
Qed.

(** X25 on a name without markup. *)
Lemma sanitizeInput_removes_markup_witness :
  sanitizeInput "Ada Lovelace" = "Ada Lovelace".
Proof.
  destruct (sanitizeInput_removes_markup "Ada Lovelace") as [_ Hsame].
  apply Hsame; reflexivity.
Defined.

(** *** The e-mail pattern *)

Lemma dot_then_more_iff s :
  dot_then_more s = true
  ↔ ∃ a b, s = (a ++ "." ++ b)%string ∧ b ≠ EmptyString
           ∧ every_char email_char a = true
           ∧ every_char email_char b = true.
Proof.
  induction s as [|c r IH]; cbn [dot_then_more].
  - split; [discriminate|]. intros ([|x a] & b & H & _); discriminate.
  - rewrite andb_true_iff, orb_true_iff, andb_true_iff, IH. split.
    + intros [Hc [[Hdot Hr] | (a & b & -> & Hb & Ha & Hb')]].
      * apply Ascii.eqb_eq in Hdot as ->.
        exists EmptyString, r. destruct r; [discriminate|]. auto.
      * exists (String c a), b. repeat split; auto.
        cbn [every_char]. now rewrite Hc, Ha.
    + intros ([|x a] & b & H & Hb & Ha & Hb').
      * injection H as -> ->. split; [reflexivity|]. left.
        split; [reflexivity|]. destruct b; [contradiction | exact Hb'].
      * rewrite append_cons in H. injection H as -> ->.
        cbn [every_char] in Ha. apply andb_true_iff in Ha as [Hx Ha].
        split; [exact Hx|]. right. exists a, b. auto.
Qed.

Lemma email_domain_iff s :
  email_domain s = true
  ↔ ∃ a b, s = (a ++ "." ++ b)%string
           ∧ a ≠ EmptyString ∧ b ≠ EmptyString
           ∧ every_char email_char a = true
           ∧ every_char email_char b = true.
Proof.
  destruct s as [|c r]; cbn [email_domain].
  - split; [discriminate|]. intros ([|x a] & b & H & Ha & _);
      [contradiction | discriminate].
  - rewrite andb_true_iff, dot_then_more_iff. split.
    + intros (Hc & a & b & -> & Hb & Ha & Hb').
      exists (String c a), b.
      split; [reflexivity|]. split; [discriminate|].
      split; [exact Hb|]. split; [|exact Hb'].
      cbn [every_char]. now rewrite Hc, Ha.
    + intros ([|x a] & b & H & Hne & Hb & Ha & Hb'); [contradiction|].
      rewrite append_cons in H. injection H as -> ->.
      cbn [every_char] in Ha. apply andb_true_iff in Ha as [Hx Ha].
      split; [exact Hx|]. exists a, b. auto.
Qed.

Lemma email_rest_iff s :
  email_rest s = true
  ↔ ∃ l d, s = (l ++ "@" ++ d)%string
           ∧ every_char email_char l = true
           ∧ email_domain d = true.
Proof.
  induction s as [|c r IH]; cbn [email_rest].
  - split; [discriminate|]. intros ([|x l] & d & H & _); discriminate.
  - destruct (Ascii.eqb_spec c "@") as [->|Hc].
    + split.
      * intros Hd. exists EmptyString, r. auto.
      * intros ([|x l] & d & H & Hl & Hd).
        -- now injection H as ->.
        -- rewrite append_cons in H. injection H as <- ->.
           cbn in Hl. discriminate.
    + rewrite andb_true_iff, IH. split.
      * intros (Hws & l & d & -> & Hl & Hd).
        exists (String c l), d. repeat split; auto.
        cbn [every_char]. unfold email_char at 1. rewrite Hws, Hl.
        apply Ascii.eqb_neq in Hc. now rewrite Hc.
      * intros ([|x l] & d & H & Hl & Hd).
        -- injection H as -> _. contradiction.
        -- rewrite append_cons in H. injection H as -> ->.
           cbn [every_char] in Hl. apply andb_true_iff in Hl as [Hx Hl].
           unfold email_char in Hx. apply andb_true_iff in Hx as [Hx _].
           split; [exact Hx|]. exists l, d. auto.
Qed.

(** X26.  The e-mail test accepts exactly the strings of the form
    [local@name.rest] in which the three parts are not empty and contain
    neither white space nor [@]: the language of
    [/^[^\s@]+@[^\s@]+\.[^\s@]+$/]. *)
Theorem emailRegex_test_language s :
  emailRegex_test s = true
  ↔ ∃ l a b,
      s = (l ++ "@" ++ a ++ "." ++ b)%string
      ∧ l ≠ EmptyString ∧ a ≠ EmptyString ∧ b ≠ EmptyString
      ∧ every_char email_char l = true
      ∧ every_char email_char a = true
      ∧ every_char email_char b = true.
Proof.
  destruct s as [|c r]; cbn [emailRegex_test].
  - split; [discriminate|].
    intros ([|x l] & a & b & H & Hl & _); [contradiction | discriminate].
  - rewrite andb_true_iff, email_rest_iff. split.
    + intros (Hc & l & d & -> & Hl & Hd).
      apply email_domain_iff in Hd as (a & b & -> & Ha & Hb & Ha' & Hb').
      exists (String c l), a, b.
      split; [reflexivity|]. split; [discriminate|].
      split; [exact Ha|]. split; [exact Hb|].
      split; [|split; [exact Ha' | exact Hb']].
      cbn [every_char]. now rewrite Hc, Hl.
    + intros ([|x l] & a & b & H & Hl & Ha & Hb & Hl' & Ha' & Hb');
        [contradiction|].
      rewrite append_cons in H. injection H as -> ->.
      cbn [every_char] in Hl'. apply andb_true_iff in Hl' as [Hx Hl'].
      split; [exact Hx|]. exists l, (a ++ "." ++ b)%string.
      repeat split; auto. apply email_domain_iff. exists a, b. auto.
Qed.

(** X26 on an address. *)
Lemma emailRegex_test_language_witness :
  emailRegex_test "ada@example.org" = true.
Proof.
  apply (proj2 (emailRegex_test_language "ada@example.org")).
  exists "ada", "example", "org".
  split; [reflexivity|]. split; [discriminate|].
  split; [discriminate|]. split; [discriminate|].
  split; [reflexivity|]. split; reflexivity.
Defined.

(** *** The limiter behind [login] and [register] *)

Lemma isRateLimited_true_unchanged now id rl :
  fst (isRateLimited now id rl) = true → snd (isRateLimited now id rl) = rl.
Proof.
  unfold isRateLimited.
  destruct (attempts rl !! id) as [e|]; simpl; [|discriminate].
  destruct (blocked e); simpl; destruct (now >? resetTime e); simpl;
    try discriminate; reflexivity.
Qed.

Lemma isRateLimited_absent now id rl :
  attempts rl !! id = None → isRateLimited now id rl = (false, rl).
Proof. unfold isRateLimited. now intros ->. Qed.

Lemma isRateLimited_counting now id rl e :
  attempts rl !! id = Some e → blocked e = false →
  count e < maxAttempts rl → now <= resetTime e →
  isRateLimited now id rl = (false, rl).
Proof.
  unfold isRateLimited. intros -> -> Hc Hn. simpl.
  destruct (Z.gtb_spec now (resetTime e)); [lia|].
  destruct (Z.geb_spec (count e) (maxAttempts rl)); [lia | reflexivity].
Qed.

Lemma login_limited backend headers clock data rl :
  createClient_ok backend = true →
  fst (isRateLimited (t_check clock) (getClientIP headers) rl) = true →
  login backend headers clock data rl
  = (Returned
       (Some (too_many_logins
                (getResetTime (t_reset clock) (getClientIP headers) rl))),
     rl).
Proof.
  intros Hok Hlim.
  pose proof (isRateLimited_true_unchanged _ _ _ Hlim) as Hsame.
  unfold login. rewrite Hok. cbn [negb].
  destruct (isRateLimited (t_check clock) (getClientIP headers) rl)
    as [limited rl1].
  cbn [fst snd] in *. subst limited rl1. reflexivity.
Qed.

Lemma register_limited backend headers clock data rl :
  createClient_ok backend = true →
  fst (isRateLimited (t_check clock) (getClientIP headers) rl) = true →
  register backend headers clock data rl
  = (Returned
       (Some (too_many_registrations
                (getResetTime (t_reset clock) (getClientIP headers) rl))),
     rl).
Proof.
  intros Hok Hlim.
  pose proof (isRateLimited_true_unchanged _ _ _ Hlim) as Hsame.
  unfold register. rewrite Hok. cbn [negb].
  destruct (isRateLimited (t_check clock) (getClientIP headers) rl)
    as [limited rl1].
  cbn [fst snd] in *. subst limited rl1. reflexivity.
Qed.

(** X27.  A rate-limited client is refused before anything else happens:
    [login] and [register] answer the too-many-attempts message, the
    limiter stays as it is, and the answer is the same for every form and
    every provider, so neither the input checks nor the provider were
    reached. *)
Theorem limited_client_is_refused_first
    backend backend' headers clock data data' rdata rl :
  createClient_ok backend = true →
  createClient_ok backend' = true →
  fst (isRateLimited (t_check clock) (getClientIP headers) rl) = true →
  login backend headers clock data rl
    = (Returned
         (Some (too_many_logins
                  (getResetTime (t_reset clock) (getClientIP headers) rl))),
       rl)
  ∧ login backend' headers clock data' rl
    = login backend headers clock data rl
  ∧ register backend headers clock rdata rl
    = (Returned
         (Some (too_many_registrations
                  (getResetTime (t_reset clock) (getClientIP headers) rl))),
       rl).
Proof.
  intros Hok Hok' Hlim.
  split; [now apply login_limited|].
  split; [|now apply register_limited].
  now rewrite !login_limited.
Qed.

(** X27 on a client blocked by five failures. *)
Lemma limited_client_is_refused_first_witness :
  let headers : gmap string string :=
    <["x-forwarded-for" := "203.0.113.7, 10.0.0.1"]> ∅ in
  let rl := recordFailures "203.0.113.7" [0; 1; 2; 3; 4] authRateLimiter in
  let clock := {| t_check := 1000; t_reset := 1000; t_record := 1001 |} in
  let accepting :=
    {| createClient_ok := true;
       signInWithPassword := λ _ _, SignInOk;
       signUp := λ _ _ _, SignUpOk |} in
  let data := {| login_email := "ada@example.org";
                 login_password := "wrong" |} in
  let data' := {| login_email := "not an address";
                  login_password := EmptyString |} in
  let rdata := {| register_name := "Ada";
                  register_email := "ada@example.org";
                  register_password := "Abcdef1!" |} in
  login rejecting_backend headers clock data rl
    = (Returned
         (Some (too_many_logins
                  (getResetTime (t_reset clock) (getClientIP headers) rl))),
       rl)
  ∧ login accepting headers clock data' rl
    = login rejecting_backend headers clock data rl
  ∧ register rejecting_backend headers clock rdata rl
    = (Returned
         (Some (too_many_registrations
                  (getResetTime (t_reset clock) (getClientIP headers) rl))),
       rl).
Proof.
  intros headers rl clock accepting data data' rdata.
  apply (limited_client_is_refused_first rejecting_backend accepting
           headers clock data data' rdata rl).
  - reflexivity.
  - reflexivity.
  - vm_compute. reflexivity.
Defined.

Lemma login_rejected_step backend headers clock data rl :
  createClient_ok backend = true →
  isRateLimited (t_check clock) (getClientIP headers) rl = (false, rl) →
  well_formed data → rejects backend data →
  snd (login backend headers clock data rl)
  = recordFailedAttempt (t_record clock) (getClientIP headers) rl.
Proof.
  intros Hok Hlim [Hmail Hpw] Hrej. unfold login.
  rewrite Hok, Hlim. cbn [negb].
  unfold sanitizedEmail in Hmail. rewrite Hmail. cbn [negb].
  destruct (login_password data) as [|c p] eqn:Hp; [contradiction|].
  cbn [String.length Nat.eqb]. unfold rejects, sanitizedEmail in Hrej.
  rewrite Hp in Hrej.
  destruct (signInWithPassword backend _ _); [contradiction | |];
    reflexivity.
Qed.

Lemma logins_counting backend headers calls : ∀ rl e,
  createClient_ok backend = true →
  attempts rl !! getClientIP headers = Some e →
  blocked e = false →
  count e + Z.of_nat (length calls) <= maxAttempts rl →
  Forall (rejected_by backend (resetTime e)) calls →
  logins backend headers calls rl
  = recordFailures (getClientIP headers)
      (map (λ call, t_record (fst call)) calls) rl.
Proof.
  induction calls as [|call calls IH]; intros rl e Hok He Hb Hlen Hall;
    [reflexivity|].
  apply Forall_cons in Hall as [(Hwf & Hrej & Hc & Hr) Hall].
  simpl length in Hlen.
  cbn [logins recordFailures fold_left map].
  rewrite (login_rejected_step backend headers (fst call) (snd call) rl
             Hok); auto.
  2: { apply (isRateLimited_counting _ _ _ e); auto; lia. }
  destruct calls as [|call' calls]; [reflexivity|].
  simpl length in Hlen.
  pose proof (lookup_recordFailedAttempt_live (t_record (fst call))
                (getClientIP headers) rl e He Hr) as Hnew.
  assert (Hbump : bump (t_record (fst call)) rl e
            = {| count := count e + 1; resetTime := resetTime e;
                 blocked := false |}).
  { unfold bump.
    destruct (Z.geb_spec (count e + 1) (maxAttempts rl)); [lia|].
    now rewrite Hb. }
  rewrite Hbump in Hnew.
  destruct (recordFailedAttempt_config (t_record (fst call))
              (getClientIP headers) rl) as (Hm & _ & _).
  apply (IH _ _ Hok Hnew eq_refl).
  - rewrite Hm. cbn [count]. simpl length. lia.
  - exact Hall.
Qed.

(** X28.  Lock-out, end to end.  A client without an entry makes
    [maxAttempts] well-formed logins that the provider rejects, all within
    the window opened by the first.  From then until [blockDurationMs]
    after the last of them, every [login] and every [register] from that
    client is refused with the too-many-attempts message, whatever the
    credentials and whatever the provider would answer, and the limiter
    does not change. *)
Theorem lockout_after_rejected_logins
    backend headers call1 rest rl backend' clock' data' rdata' :
  let ip := getClientIP headers in
  let deadline := t_record (fst call1) + windowMs rl in
  let rl' := logins backend headers (call1 :: rest) rl in
  let t_last := t_record (fst (List.last rest call1)) in
  createClient_ok backend = true →
  createClient_ok backend' = true →
  2 <= maxAttempts rl →
  attempts rl !! ip = None →
  Z.of_nat (length (call1 :: rest)) = maxAttempts rl →
  well_formed (snd call1) →
  rejects backend (snd call1) →
  Forall (rejected_by backend deadline) rest →
  t_check clock' <= t_last + blockDurationMs rl →
  login backend' headers clock' data' rl'
    = (Returned (Some (too_many_logins
                         (getResetTime (t_reset clock') ip rl'))), rl')
  ∧ register backend' headers clock' rdata' rl'
    = (Returned (Some (too_many_registrations
                         (getResetTime (t_reset clock') ip rl'))), rl').
Proof.
  intros ip deadline rl' t_last Hok Hok' Hmax Hnone Hlen Hwf Hrej Hall Ht.
  assert (Hrun : rl' = recordFailures ip
                   (t_record (fst call1)
                    :: map (λ call, t_record (fst call)) rest) rl).
  { subst rl'. cbn [logins fold_left].
    rewrite (login_rejected_step backend headers (fst call1) (snd call1)
               rl Hok (isRateLimited_absent _ _ _ Hnone) Hwf Hrej).
    fold ip.
    assert (Hopen : opens_window (t_record (fst call1)) ip rl)
      by (unfold opens_window; now rewrite Hnone).
    pose proof (lookup_recordFailedAttempt_new _ _ _ Hopen) as Hfirst.
    destruct (recordFailedAttempt_config (t_record (fst call1)) ip rl)
      as (Hm & _ & _).
    apply (logins_counting backend headers rest _ _ Hok Hfirst eq_refl).
    - rewrite Hm. cbn [count fresh]. simpl length in Hlen. lia.
    - exact Hall. }
  assert (Hentry : attempts rl' !! ip
            = Some {| count := maxAttempts rl;
                      resetTime := t_last + blockDurationMs rl;
                      blocked := true |}).
  { rewrite Hrun.
    rewrite (recordFailures_blocks rl ip (t_record (fst call1))
               (map (λ call, t_record (fst call)) rest) Hmax).
    - do 3 f_equal. subst t_last. clear.
      revert call1. induction rest as [|c r IH]; intros call1;
        [reflexivity|].
      cbn [map]. destruct r as [|c' r']; [reflexivity|].
      change (List.last (c :: c' :: r') call1)
        with (List.last (c' :: r') call1).
      change (List.last (t_record (fst c) :: map _ (c' :: r')) _)
        with (List.last (map (λ call, t_record (fst call)) (c' :: r'))
                (t_record (fst call1))).
      apply IH.
    - cbn [length] in *. now rewrite length_map.
    - unfold opens_window. now rewrite Hnone.
    - apply Forall_map. eapply Forall_impl; [exact Hall|].
      intros call (_ & _ & _ & Hr). exact Hr. }
  assert (Hlim : fst (isRateLimited (t_check clock') ip rl') = true).
  { rewrite (isRateLimited_blocked _ _ _ _ Hentry eq_refl). cbn.
    destruct (Z.gtb_spec (t_check clock') (t_last + blockDurationMs rl));
      [lia | reflexivity]. }
  split; [now apply login_limited | now apply register_limited].
Qed.

(** X28 on five rejected logins of one client within five seconds: a
    quarter of an hour later a provider that would accept is not
    asked. *)
Lemma lockout_after_rejected_logins_witness :
  let headers : gmap string string :=
    <["x-forwarded-for" := "203.0.113.7, 10.0.0.1"]> ∅ in
  let data := {| login_email := "ada@example.org";
                 login_password := "wrong" |} in
  let at_ t := ({| t_check := t; t_reset := t; t_record := t + 1 |}, data) in
  let rl' := logins rejecting_backend headers
               [at_ 0; at_ 1000; at_ 2000; at_ 3000; at_ 4000]
               authRateLimiter in
  let accepting :=
    {| createClient_ok := true;
       signInWithPassword := λ _ _, SignInOk;
       signUp := λ _ _ _, SignUpOk |} in
  let clock' := {| t_check := 900000; t_reset := 900000;
                   t_record := 900001 |} in
  let rdata := {| register_name := "Ada";
                  register_email := "ada@example.org";
                  register_password := "Abcdef1!" |} in
  login accepting headers clock' data rl'
    = (Returned (Some (too_many_logins
                         (getResetTime (t_reset clock')
                            (getClientIP headers) rl'))), rl')
  ∧ register accepting headers clock' rdata rl'
    = (Returned (Some (too_many_registrations
                         (getResetTime (t_reset clock')
                            (getClientIP headers) rl'))), rl').
Proof.
  intros headers data at_ rl' accepting clock' rdata.
  apply (lockout_after_rejected_logins rejecting_backend headers
           (at_ 0) [at_ 1000; at_ 2000; at_ 3000; at_ 4000]
           authRateLimiter accepting clock' data rdata).
  - reflexivity.
  - reflexivity.
  - vm_compute. discriminate.
  - vm_compute. reflexivity.
  - reflexivity.
  - split; [vm_compute; reflexivity | discriminate].
  - vm_compute. discriminate.
  - repeat (apply Forall_cons_2;
            [split; [split; [vm_compute; reflexivity | discriminate]
                    | split; [vm_compute; discriminate
                             | split; vm_compute; discriminate]] |]).
    apply Forall_nil_2.
  - vm_compute. discriminate.
Defined.

End AuthFacts.

(** ** Logger *)

Section LoggerFacts.

Import Js Str Logger.

(** Induction on log values, with the hypothesis for every item of an
    array and every value of an object. *)
Lemma Json_induction (P : Json → Prop) :
  P JNull → P JUndefined → (∀ b, P (JBool b)) → (∀ n, P (JNum n)) →
  (∀ s, P (JStr s)) →
  (∀ items, Forall P items → P (JArr items)) →
  (∀ entries, Forall (λ entry, P (snd entry)) entries → P (JObj entries)) →
  ∀ v, P v.
Proof.
  intros HNull HUndef HBool HNum HStr HArr HObj.
  fix IH 1. intros v.
  destruct v as [| |b|n|s|items|entries];
    [exact HNull | exact HUndef | apply HBool | apply HNum | apply HStr
    | | ].
  - apply HArr. induction items as [|x items IHitems]; constructor.
    + apply IH.
    + exact IHitems.
  - apply HObj. induction entries as [|[k x] entries IHentries];
      constructor.
    + apply IH.
    + exact IHentries.
Qed.

Lemma is_object_redact v :
  is_object (redactSensitiveData v) = is_object v.
Proof. destruct v; reflexivity. Qed.

Lemma exposes_plain v : is_object v = false → exposes v = false.
Proof. destruct v; simpl; congruence. Qed.

Lemma adds_entry_pair k v :
  adds_entry (k, v) = negb (String.eqb k "__proto__").
Proof. reflexivity. Qed.

Lemma redact_nothing_exposed v : exposes (redactSensitiveData v) = false.
Proof.
  induction v as [| |b|n|s|items IH|entries IH] using Json_induction;
    try reflexivity; cbn [redactSensitiveData exposes].
  - induction IH as [|x items Hx _ IHitems]; [reflexivity|].
    cbn [map existsb]. now rewrite Hx, IHitems.
  - induction IH as [|[k x] entries Hx _ IHentries]; [reflexivity|].
    cbn [map snd] in *.
    destruct (isSensitive k) eqn:Hk; [|destruct (is_object x) eqn:Ho];
      cbn [List.filter]; rewrite adds_entry_pair;
      (destruct (negb (String.eqb k "__proto__")); [|exact IHentries]);
      cbn [existsb]; rewrite IHentries, orb_false_r, Hk;
      [reflexivity | exact Hx | now apply exposes_plain].
Qed.

Lemma redact_idempotent v :
  redactSensitiveData (redactSensitiveData v) = redactSensitiveData v.
Proof.
  induction v as [| |b|n|s|items IH|entries IH] using Json_induction;
    try reflexivity; cbn [redactSensitiveData]; f_equal.
  - induction IH as [|x items Hx _ IHitems]; [reflexivity|].
    cbn [map]. now rewrite Hx, IHitems.
  - induction IH as [|[k x] entries Hx _ IHentries]; [reflexivity|].
    cbn [map snd] in *.
    destruct (isSensitive k) eqn:Hk; [|destruct (is_object x) eqn:Ho];
      cbn [List.filter]; rewrite !adds_entry_pair;
      (destruct (negb (String.eqb k "__proto__")) eqn:Hadd;
       [|exact IHentries]);
      cbn [map List.filter]; rewrite Hk;
      [ | rewrite is_object_redact, Ho, Hx | rewrite Ho ];
      rewrite adds_entry_pair, Hadd; f_equal; exact IHentries.
Qed.

Lemma redact_without_rewritten_keys v :
  has_key isSensitive v = false →
  has_key (String.eqb "__proto__") v = false →
  redactSensitiveData v = v.
Proof.
  induction v as [| |b|n|s|items IH|entries IH] using Json_induction;
    try reflexivity; cbn [redactSensitiveData has_key];
    intros Hno Hown; f_equal.
  - induction IH as [|x items Hx _ IHitems]; [reflexivity|].
    cbn [map existsb] in *.
    apply orb_false_iff in Hno as [Hx' Hno].
    apply orb_false_iff in Hown as [Hx'' Hown].
    now rewrite (Hx Hx' Hx''), (IHitems Hno Hown).
  - induction IH as [|[k x] entries Hx _ IHentries]; [reflexivity|].
    cbn [map existsb snd] in *.
    apply orb_false_iff in Hno as [Hk Hno].
    apply orb_false_iff in Hk as [Hk Hx'].
    apply orb_false_iff in Hown as [Hp Hown].
    apply orb_false_iff in Hp as [Hp Hx''].
    rewrite Hk.
    assert (Hadd : negb (String.eqb k "__proto__") = true)
      by (rewrite String.eqb_sym, Hp; reflexivity).
    destruct (is_object x); cbn [List.filter];
      rewrite adds_entry_pair, Hadd, (IHentries Hno Hown); [|reflexivity].
    now rewrite (Hx Hx' Hx'').
Qed.

(** X29.  Redaction is complete and stable.  After [redactSensitiveData]
    no entry at any depth of objects and arrays has a key matching a
    sensitive pattern and a value other than ['[REDACTED]']; redacting
    again changes nothing; and a value in which no key matches a pattern
    or is ['__proto__'] comes back as it was. *)
Theorem redaction_complete_and_stable v :
  exposes (redactSensitiveData v) = false
  ∧ redactSensitiveData (redactSensitiveData v) = redactSensitiveData v
  ∧ (has_key isSensitive v = false →
     has_key (String.eqb "__proto__") v = false →
     redactSensitiveData v = v).
Proof.
  split; [apply redact_nothing_exposed|].
  split; [apply redact_idempotent | apply redact_without_rewritten_keys].
Qed.

Lemma levels_range name b : levels name = Some b → 0 <= b <= 3.
Proof.
  unfold levels.
  destruct (String.eqb name "debug"); [intros [= <-]; lia|].
  destruct (String.eqb name "info"); [intros [= <-]; lia|].
  destruct (String.eqb name "warn"); [intros [= <-]; lia|].
  destruct (String.eqb name "error"); [intros [= <-]; lia | discriminate].
Qed.

(** X30.  The threshold of the logger.  With a recognised [LOG_LEVEL] a
    level is logged exactly when it is at least the threshold, so errors
    are always logged and whatever is logged at one level is logged at
    every higher one; without [LOG_LEVEL] the threshold is ['info'].  With
    an unrecognised [LOG_LEVEL] nothing is logged, errors included. *)
Theorem shouldLog_threshold env level :
  (levels (logLevel env) = None → shouldLog env level = false)
  ∧ (levels (logLevel env) ≠ None → shouldLog env Error = true)
  ∧ (∀ higher a b,
       levels (level_name level) = Some a →
       levels (level_name higher) = Some b →
       a <= b →
       shouldLog env level = true → shouldLog env higher = true)
  ∧ (str_truthy env = false →
     shouldLog env level = negb (String.eqb (level_name level) "debug")).
Proof.
  unfold shouldLog. split; [|split; [|split]].
  - intros ->. now destruct (levels (level_name level)).
  - intros Hne. change (levels (level_name Error)) with (Some 3).
    destruct (levels (logLevel env)) as [b|] eqn:Hb; [|contradiction].
    apply levels_range in Hb. apply Z.geb_le. lia.
  - intros higher a b -> -> Hab.
    destruct (levels (logLevel env)) as [t|]; [|discriminate].
    intros H. apply Z.geb_le in H. apply Z.geb_le. lia.
  - intros Henv. unfold logLevel. rewrite (str_or_falsy _ _ Henv).
    destruct level; reflexivity.
Qed.

End LoggerFacts.

(** X29 on the context of the age-expiry event of the session
    guardian: the user id stays, the [sessionAge] is redacted, since its
    key contains ["session"]. *)
Lemma redaction_complete_and_stable_witness :
  Logger.redactSensitiveData
    (Logger.JObj [("userId", Logger.JStr "user-1");
                  ("details", Logger.JArr [Logger.JObj
                     [("sessionAge", Logger.JNum 86400001)]])])
  = Logger.JObj [("userId", Logger.JStr "user-1");
                 ("details", Logger.JArr [Logger.JObj
                    [("sessionAge", Logger.JStr "[REDACTED]")]])]
  ∧ Logger.redactSensitiveData
      (Logger.JObj [("userId", Logger.JStr "user-1")])
    = Logger.JObj [("userId", Logger.JStr "user-1")].
Proof.
  split; [vm_compute; reflexivity|].
  destruct (redaction_complete_and_stable
              (Logger.JObj [("userId", Logger.JStr "user-1")]))
    as (_ & _ & Hid).
  apply Hid; vm_compute; reflexivity.
Defined.

(** X30 with [LOG_LEVEL=warn]: a warning is logged, hence an
    error too. *)
Lemma shouldLog_threshold_witness :
  Logger.shouldLog (Some "warn") Logger.Error = true.
Proof.
  destruct (shouldLog_threshold (Some "warn") Logger.Warn)
    as (_ & _ & Hmono & _).
  apply (Hmono Logger.Error 2 3); try reflexivity. lia.
Defined.
